(** * EC2 provisioner: a shallow embedding of [provisioner/aws_ec2_provisioning.py]

    The script provisions EC2 instances in parallel (on-demand or spot with
    bounded retry, backoff and cancellation of failed spot requests) and
    tears instances down again.  The embedding follows the Python source
    function by function:

    - Python exceptions are values [Raise e] carrying [str(e)];
    - the boto3 client and the clock are an abstract world [W] driven by an
      oracle record [EC2 W], so the theorems hold for every behaviour of the
      remote API;
    - configuration objects live in a store (the caller and the provisioner
      may alias them), so that "does not modify the original" is a statement
      about the store;
    - every API call, every sleep and every log record is written to an
      event list, the observable behaviour of one run;
    - [time.sleep] and the constructor of [ThreadPoolExecutor] raise as
      CPython's do; the pool runs the submitted calls one after the other in
      an order left open, and hands out their futures in a second order left
      open, so the theorems hold for every schedule. *)

From Stdlib Require Import ZArith String List Lia DecimalString Sorted.
From stdpp Require Import base gmap list strings.

Open Scope string_scope.
Open Scope list_scope.
Open Scope Z_scope.

(** ** Python values *)

(** [str(e)] of a caught exception. *)
Definition Exn := string.

Inductive Res (A : Type) : Type :=
| Ok (a : A)
| Raise (e : Exn).
Arguments Ok {A} a.
Arguments Raise {A} e.

(** [str(n)] for a Python int. *)
Definition str_Z (z : Z) : string := NilZero.string_of_int (Z.to_int z).

(** An f-string field holding an [Optional[str]]. *)
Definition str_opt (o : option string) : string :=
  match o with Some s => s | None => "None" end.

(** Python truthiness of an [Optional[str]]: [None] and the empty string are falsy. *)
Definition truthy (o : option string) : bool :=
  match o with
  | Some s => negb (String.eqb s "")
  | None => false
  end.

(** Python truthiness of an optional list or dict: [None] and empty are falsy. *)
Definition truthy_seq {A : Type} (o : option (list A)) : bool :=
  match o with
  | Some (_ :: _) => true
  | _ => false
  end.

(** [range(n)]. *)
Definition range (n : Z) : list Z := map Z.of_nat (seq 0 (Z.to_nat n)).

(** ** Data model *)

(** [@dataclass EC2InstanceConfig].  A [Dict[str, str]] is kept as an
    association list in insertion order, the order [.items()] iterates in. *)
Record EC2InstanceConfig : Type := {
  instance_type : string;
  name : option string;
  image_id : option string;
  key_name : option string;
  security_group_ids : option (list string);
  subnet_id : option string;
  user_data : option string;
  tags : option (list (string * string));
  volume_size : Z;
  volume_type : string;
  iam_instance_profile : option string;
  spot_instance : bool;
  spot_max_price : option string;
  spot_max_retries : Z;
  spot_retry_delay : Z
}.

(** Attribute assignment on a config object. *)
Definition set_name (v : option string) (c : EC2InstanceConfig) : EC2InstanceConfig :=
  {| instance_type := instance_type c; name := v; image_id := image_id c;
     key_name := key_name c; security_group_ids := security_group_ids c;
     subnet_id := subnet_id c; user_data := user_data c; tags := tags c;
     volume_size := volume_size c; volume_type := volume_type c;
     iam_instance_profile := iam_instance_profile c;
     spot_instance := spot_instance c; spot_max_price := spot_max_price c;
     spot_max_retries := spot_max_retries c; spot_retry_delay := spot_retry_delay c |}.

Definition set_image_id (v : option string) (c : EC2InstanceConfig) : EC2InstanceConfig :=
  {| instance_type := instance_type c; name := name c; image_id := v;
     key_name := key_name c; security_group_ids := security_group_ids c;
     subnet_id := subnet_id c; user_data := user_data c; tags := tags c;
     volume_size := volume_size c; volume_type := volume_type c;
     iam_instance_profile := iam_instance_profile c;
     spot_instance := spot_instance c; spot_max_price := spot_max_price c;
     spot_max_retries := spot_max_retries c; spot_retry_delay := spot_retry_delay c |}.

Definition set_tags (v : option (list (string * string))) (c : EC2InstanceConfig)
  : EC2InstanceConfig :=
  {| instance_type := instance_type c; name := name c; image_id := image_id c;
     key_name := key_name c; security_group_ids := security_group_ids c;
     subnet_id := subnet_id c; user_data := user_data c; tags := v;
     volume_size := volume_size c; volume_type := volume_type c;
     iam_instance_profile := iam_instance_profile c;
     spot_instance := spot_instance c; spot_max_price := spot_max_price c;
     spot_max_retries := spot_max_retries c; spot_retry_delay := spot_retry_delay c |}.

(** One entry of a boto3 tag list, [{'Key': k, 'Value': v}]. *)
Record Tag : Type := { Key : string; Value : option string }.

Record Ebs : Type := {
  VolumeSize : Z;
  VolumeType : string;
  DeleteOnTermination : bool;
  Encrypted : bool
}.

Record BlockDeviceMapping : Type := { DeviceName : string; Ebs_ : Ebs }.

(** The [launch_params] dict of [provision_instance]; an absent key is [None]. *)
Record LaunchParams : Type := {
  ImageId : option string;
  InstanceType : string;
  BlockDeviceMappings : list BlockDeviceMapping;
  KeyName : option string;
  SecurityGroupIds : option (list string);
  SubnetId : option string;
  UserData : option string;
  IamInstanceProfile : option string
}.

Record TagSpecification : Type := { ResourceType : string; Tags : list Tag }.

(** The keyword arguments of [run_instances]. *)
Record OnDemandParams : Type := {
  launch : LaunchParams;
  MinCount : Z;
  MaxCount : Z;
  TagSpecifications : list TagSpecification
}.

(** The keyword arguments of [request_spot_instances]. *)
Record SpotRequestParams : Type := {
  LaunchSpecification : LaunchParams;
  Type_ : string;
  SpotPrice : option string
}.

(** The attributes read from [ec2_resource.Instance(instance_id)]. *)
Record InstanceAttrs : Type := {
  public_ip_address : option string;
  private_ip_address : option string;
  state_Name : string
}.

(** The result dict of one provisioning; an absent key is [None]. *)
Record Result : Type := {
  r_name : option string;
  r_instance_id : option string;
  r_public_ip : option string;
  r_private_ip : option string;
  r_state : option string;
  r_status : string;
  r_instance_type : option string;
  r_spot_request_id : option string;
  r_error : option string
}.

(** [{'name': n, 'status': 'failed', 'error': e}]. *)
Definition failed_result (n : option string) (e : Exn) : Result :=
  {| r_name := n; r_instance_id := None; r_public_ip := None; r_private_ip := None;
     r_state := None; r_status := "failed"; r_instance_type := None;
     r_spot_request_id := None; r_error := Some e |}.

(** [result['spot_request_id'] = spot_request_id]. *)
Definition set_spot_request_id (sir : string) (r : Result) : Result :=
  {| r_name := r_name r; r_instance_id := r_instance_id r; r_public_ip := r_public_ip r;
     r_private_ip := r_private_ip r; r_state := r_state r; r_status := r_status r;
     r_instance_type := r_instance_type r; r_spot_request_id := Some sir;
     r_error := r_error r |}.

(** ** Observable events *)

Inductive Level : Type := INFO | WARNING | ERROR.

(** One constructor per log statement of the source, holding the values its
    f-string interpolates. *)
Inductive LogMsg : Type :=
| MsgStarting (n : option string)
| MsgProvisionFailed (n : option string) (e : Exn)
| MsgWaitingRunning (iid : string)
| MsgSpotAttempt (k max_retries : Z) (n : option string)
| MsgSpotMaxPrice (p : option string)
| MsgNoMaxPrice
| MsgRequestingSpot (n : option string)
| MsgWaitingFulfilled (sir : string)
| MsgWaitingSpotRunning (iid : string)
| MsgTagged (iid : string)
| MsgTagFailed (iid : string) (e : Exn)
| MsgSpotProvisioned (n : option string) (k : Z)
| MsgAttemptFailed (k : Z) (n : option string) (e : Exn)
| MsgCancelling (sir : string)
| MsgCancelFailed (e : Exn)
| MsgWaitingRetry (d : Z)
| MsgProvisioned (ty : string) (n : option string) (iid : string)
| MsgStartParallel (n : nat)
| MsgCompletedOk (n : option string)
| MsgCompletedFailed (n : option string) (e : string)
| MsgUnexpected (n : option string) (e : Exn)
| MsgSummary (successful failed : nat)
| MsgTerminating (iid : string)
| MsgTerminateFailed (iid : string) (e : Exn)
| MsgStartCleanup (n : nat)
| MsgCleanupError (iid : string) (e : Exn).

(** The text of a log record. *)
Definition render (m : LogMsg) : string :=
  match m with
  | MsgStarting n => "Starting provisioning for instance: " +:+ str_opt n
  | MsgProvisionFailed n e =>
      "Failed to provision instance " +:+ str_opt n +:+ ": " +:+ e
  | MsgWaitingRunning iid => "Waiting for instance " +:+ iid +:+ " to be running..."
  | MsgSpotAttempt k m n =>
      "Spot instance attempt " +:+ str_Z k +:+ "/" +:+ str_Z m +:+ " for " +:+ str_opt n
  | MsgSpotMaxPrice p => "Setting spot max price to: " +:+ str_opt p
  | MsgNoMaxPrice => "No max price specified - AWS will use current on-demand price"
  | MsgRequestingSpot n => "Requesting spot instance for " +:+ str_opt n +:+ "..."
  | MsgWaitingFulfilled sir =>
      "Waiting for spot request " +:+ sir +:+ " to be fulfilled..."
  | MsgWaitingSpotRunning iid =>
      "Waiting for spot instance " +:+ iid +:+ " to be running..."
  | MsgTagged iid => "Successfully tagged spot instance " +:+ iid
  | MsgTagFailed iid e => "Failed to tag spot instance " +:+ iid +:+ ": " +:+ e
  | MsgSpotProvisioned n k =>
      "Spot instance " +:+ str_opt n +:+ " successfully provisioned on attempt "
      +:+ str_Z k
  | MsgAttemptFailed k n e =>
      "Spot instance attempt " +:+ str_Z k +:+ " failed for " +:+ str_opt n
      +:+ ": " +:+ e
  | MsgCancelling sir => "Cancelling failed spot request " +:+ sir
  | MsgCancelFailed e => "Failed to cancel spot request: " +:+ e
  | MsgWaitingRetry d => "Waiting " +:+ str_Z d +:+ " seconds before retry..."
  | MsgProvisioned ty n iid =>
      "Successfully provisioned " +:+ ty +:+ " instance " +:+ str_opt n
      +:+ " (" +:+ iid +:+ ")"
  | MsgStartParallel n =>
      "Starting parallel provisioning of " +:+ str_Z (Z.of_nat n) +:+ " instances"
  | MsgCompletedOk n => "Instance " +:+ str_opt n +:+ " completed successfully"
  | MsgCompletedFailed n e => "Instance " +:+ str_opt n +:+ " failed: " +:+ e
  | MsgUnexpected n e => "Unexpected error provisioning " +:+ str_opt n +:+ ": " +:+ e
  | MsgSummary s f =>
      "Provisioning completed. Successful: " +:+ str_Z (Z.of_nat s) +:+ ", Failed: "
      +:+ str_Z (Z.of_nat f)
  | MsgTerminating iid => "Terminating instance: " +:+ iid
  | MsgTerminateFailed iid e =>
      "Failed to terminate instance " +:+ iid +:+ ": " +:+ e
  | MsgStartCleanup n =>
      "Starting cleanup of " +:+ str_Z (Z.of_nat n) +:+ " instances"
  | MsgCleanupError iid e => "Error during cleanup of " +:+ iid +:+ ": " +:+ e
  end.

(** What one run does to the outside: log records, the API calls it issues
    (recorded when issued, whether or not they succeed) and completed sleeps. *)
Inductive Event : Type :=
| EvLog (lvl : Level) (m : LogMsg)
| EvRunInstances (p : OnDemandParams)
| EvRequestSpot (p : SpotRequestParams)
| EvWaitFulfilled (sir : string)
| EvDescribeSpot (sir : string)
| EvWaitRunning (iid : string)
| EvVolumes (iid : string)
| EvLoadInstance (iid : string)
| EvCreateTags (resources : list string) (tgs : list Tag)
| EvCancelSpot (sir : string)
| EvTerminate (iid : string)
| EvSleep (secs : Z).

(** ** The outside world *)

(** The boto3 client and resource, the clock and base64, as an oracle over an
    abstract world.  A call that parses its response ([response['Instances'][0]
    ['InstanceId']] and the like) returns the parsed identifier, or raises when
    the call or the parse raises. *)
Record EC2 (W : Type) : Type := {
  run_instances : OnDemandParams -> W -> Res string * W;
  request_spot_instances : SpotRequestParams -> W -> Res string * W;
  wait_spot_instance_request_fulfilled : string -> W -> Res unit * W;
  describe_spot_instance_requests : string -> W -> Res string * W;
  wait_instance_running : string -> W -> Res unit * W;
  create_tags : list string -> list Tag -> W -> Res unit * W;
  cancel_spot_instance_requests : string -> W -> Res unit * W;
  terminate_instances : string -> W -> Res unit * W;
  instance_volumes : string -> W -> Res (list string) * W;
  instance_load : string -> W -> Res InstanceAttrs * W;
  time_time : W -> Z * W;
  time_strftime : W -> string * W;
  b64encode : string -> string
}.
Arguments run_instances {W} _ _ _.
Arguments request_spot_instances {W} _ _ _.
Arguments wait_spot_instance_request_fulfilled {W} _ _ _.
Arguments describe_spot_instance_requests {W} _ _ _.
Arguments wait_instance_running {W} _ _ _.
Arguments create_tags {W} _ _ _ _.
Arguments cancel_spot_instance_requests {W} _ _ _.
Arguments terminate_instances {W} _ _ _.
Arguments instance_volumes {W} _ _ _.
Arguments instance_load {W} _ _ _.
Arguments time_time {W} _ _.
Arguments time_strftime {W} _ _.
Arguments b64encode {W} _ _.

(** References to config objects. *)
Definition Loc := positive.

(** The state one run threads: the world and the store of config objects. *)
Record St (W : Type) : Type := {
  world : W;
  heap : gmap Loc EC2InstanceConfig
}.
Arguments world {W} _.
Arguments heap {W} _.
Arguments Build_St {W} _ _.

(** ** The monad of the embedding: state, exceptions, emitted events *)

Definition M (W A : Type) : Type := St W -> Res A * St W * list Event.

Definition ret {W A : Type} (a : A) : M W A := fun s => (Ok a, s, []).

Definition raise {W A : Type} (e : Exn) : M W A := fun s => (Raise e, s, []).

Definition bind {W A B : Type} (m : M W A) (k : A -> M W B) : M W B :=
  fun s =>
    match m s with
    | (Ok a, s1, ev1) =>
        match k a s1 with
        | (r, s2, ev2) => (r, s2, ev1 ++ ev2)
        end
    | (Raise e, s1, ev1) => (Raise e, s1, ev1)
    end.

Notation "'let*' x ':=' m 'in' k" := (bind m (fun x => k))
  (at level 10, x pattern, m at level 100, k at level 200).
Notation "m ';;' k" := (bind m (fun _ => k))
  (at level 100, k at level 200, right associativity).

(** [try: m  except Exception as e: ...], with the handler left to the caller:
    the outcome of [m] as a value.  State changes and events of [m] stay. *)
Definition try_ {W A : Type} (m : M W A) : M W (Res A) :=
  fun s => match m s with (r, s1, ev1) => (Ok r, s1, ev1) end.

Definition emit {W : Type} (e : Event) : M W unit := fun s => (Ok tt, s, [e]).

(** [self.logger.<level>(msg)]. *)
Definition log {W : Type} (lvl : Level) (m : LogMsg) : M W unit := emit (EvLog lvl m).

(** An API call: the event is emitted, the oracle answers and moves the world. *)
Definition call {W A : Type} (e : Event) (f : W -> Res A * W) : M W A :=
  fun s =>
    match f (world s) with
    | (r, w) => (r, Build_St w (heap s), [e])
    end.

(** A clock read; it does not raise and leaves no event. *)
Definition clock {W A : Type} (f : W -> A * W) : M W A :=
  fun s =>
    match f (world s) with
    | (a, w) => (Ok a, Build_St w (heap s), [])
    end.

(** The longest sleep, in seconds, whose count of nanoseconds fits a signed
    64-bit integer. *)
Definition sleep_max : Z := 9223372036.

(** [time.sleep(secs)] on an [int], as CPython 3.11 does it: the argument is
    first converted to nanoseconds in a signed 64-bit integer, which raises
    [OverflowError] when it does not fit, in either direction; a negative
    argument then raises [ValueError]. *)
Definition sleep {W : Type} (secs : Z) : M W unit :=
  if (secs <? - sleep_max) || (sleep_max <? secs)
  then raise "timestamp too large to convert to C _PyTime_t"
  else if secs <? 0 then raise "sleep length must be non-negative"
  else emit (EvSleep secs).

(** Reading a config object through its reference. *)
Definition load {W : Type} (l : Loc) : M W EC2InstanceConfig :=
  fun s =>
    match heap s !! l with
    | Some c => (Ok c, s, [])
    | None => (Raise "dangling reference", s, [])
    end.

(** [copy.deepcopy(config)]: a fresh object with the same contents. *)
Definition deepcopy {W : Type} (l : Loc) : M W Loc :=
  let* c := load l in
  fun s =>
    let l' := fresh (dom (heap s)) in
    (Ok l', Build_St (world s) (<[l' := c]> (heap s)), []).

(** [config.attr = v] on the object behind [l]. *)
Definition assign {W : Type} (l : Loc) (f : EC2InstanceConfig -> EC2InstanceConfig)
  : M W unit :=
  let* c := load l in
  fun s => (Ok tt, Build_St (world s) (<[l := f c]> (heap s)), []).

(** ** The thread pool

    [ThreadPoolExecutor] runs the submitted calls on its worker threads and
    [as_completed] hands their futures to the caller as they finish.  Both
    orders are left to the scheduler, so a run is given two orders on the
    positions of the submitted list: [started], in which the calls are run,
    and [completed], in which their futures are handed out.  The pool runs
    every submitted call once and hands out every future once, so each order
    is a permutation of the positions [0 .. n-1]; the theorems assume that
    and nothing else of a schedule.  A call is run to its end before the
    next one begins, and the caller's loop over the futures comes after the
    workers' events in the event list. *)

(** [ThreadPoolExecutor(max_workers=...)], the check its constructor makes. *)
Definition ThreadPoolExecutor {W : Type} (max_workers : Z) : M W unit :=
  if max_workers <=? 0 then raise "max_workers must be greater than 0"
  else ret tt.

(** [{executor.submit(fn, x): x for x in submitted}] and the work of the
    pool: the future at position [i] holds what [fn] returned or raised on
    the [i]-th submitted value. *)
Fixpoint submit {W A B : Type} (fn : A -> M W B) (submitted : list A)
    (started : list nat) : M W (gmap nat (Res B)) :=
  match started with
  | [] => ret ∅
  | i :: rest =>
      match submitted !! i with
      | Some x =>
          let* future := try_ (fn x) in
          let* futures := submit fn submitted rest in
          ret (<[i := future]> futures)
      | None => submit fn submitted rest
      end
  end.

(** [as_completed(future_to_x)]: the futures in the order [completed], each
    with the value it was submitted for ([future_to_x[future]]). *)
Definition as_completed {A B : Type} (submitted : list A)
    (futures : gmap nat (Res B)) (completed : list nat) : list (A * Res B) :=
  omap (fun i => match submitted !! i, futures !! i with
                 | Some x, Some future => Some (x, future)
                 | _, _ => None
                 end) completed.

(** ** The provisioner, [class EC2Provisioner] *)

Section EC2Provisioner.
Context {W : Type} (api : EC2 W).

(** [_create_block_device_mappings]. *)
Definition _create_block_device_mappings (config : EC2InstanceConfig)
  : list BlockDeviceMapping :=
  [ {| DeviceName := "/dev/sda1";
       Ebs_ := {| VolumeSize := volume_size config;
                  VolumeType := volume_type config;
                  DeleteOnTermination := true;
                  Encrypted := true |} |} ].

(** [_create_tags]: three fixed tags, then the config's own in dict order. *)
Definition _create_tags (config : EC2InstanceConfig) (instance_id : string)
  : M W (list Tag) :=
  let* date := clock (time_strftime api) in
  ret ([ {| Key := "Name"; Value := name config |};
         {| Key := "CreatedBy"; Value := Some "EC2Provisioner" |};
         {| Key := "CreationDate"; Value := Some date |} ]
       ++ (if truthy_seq (tags config)
           then map (fun kv => {| Key := fst kv; Value := Some (snd kv) |})
                    (default [] (tags config))
           else [])).

(** The tags [_set_defaults] gives a config without tags. *)
Definition default_tags (spot : bool) : list (string * string) :=
  [ ("Environment", "Development");
    ("Project", "AutoProvisioned");
    ("InstanceType", if spot then "Spot" else "OnDemand") ].

(** [_set_defaults]: deep-copies the config, then fills the copy's falsy
    [name], [image_id] and [tags]; returns the copy. *)
Definition _set_defaults (config : Loc) : M W Loc :=
  let* config := deepcopy config in
  let* c := load config in
  (if negb (truthy (name c))
   then let* t := clock (time_time api) in
        assign config (set_name (Some (instance_type c +:+ "-" +:+ str_Z t)))
   else ret tt);;
  let* c := load config in
  (if negb (truthy (image_id c))
   then assign config (set_image_id (Some "ami-0ae8595e2aff47037"))
   else ret tt);;
  let* c := load config in
  (if negb (truthy_seq (tags c))
   then assign config (set_tags (Some (default_tags (spot_instance c))))
   else ret tt);;
  ret config.

(** The [launch_params] dict built in [provision_instance]: optional keys are
    added only for truthy fields. *)
Definition launch_params_of (config : EC2InstanceConfig) : LaunchParams :=
  {| ImageId := image_id config;
     InstanceType := instance_type config;
     BlockDeviceMappings := _create_block_device_mappings config;
     KeyName := if truthy (key_name config) then key_name config else None;
     SecurityGroupIds :=
       if truthy_seq (security_group_ids config) then security_group_ids config
       else None;
     SubnetId := if truthy (subnet_id config) then subnet_id config else None;
     UserData :=
       if truthy (user_data config)
       then option_map (b64encode api) (user_data config)
       else None;
     IamInstanceProfile :=
       if truthy (iam_instance_profile config) then iam_instance_profile config
       else None |}.

(** The loop of [_finalize_instance] tagging every volume; no [try] around it. *)
Fixpoint tag_volumes (config : EC2InstanceConfig) (instance_id : string)
    (volumes : list string) : M W unit :=
  match volumes with
  | [] => ret tt
  | volume :: rest =>
      let* tgs := _create_tags config instance_id in
      call (EvCreateTags [volume] tgs) (create_tags api [volume] tgs);;
      tag_volumes config instance_id rest
  end.

(** [_finalize_instance]. *)
Definition _finalize_instance (config : EC2InstanceConfig) (instance_id : string)
    (instance_type_ : string) : M W Result :=
  let* volumes := call (EvVolumes instance_id) (instance_volumes api instance_id) in
  tag_volumes config instance_id volumes;;
  let* instance := call (EvLoadInstance instance_id) (instance_load api instance_id) in
  let result :=
    {| r_name := name config;
       r_instance_id := Some instance_id;
       r_public_ip := public_ip_address instance;
       r_private_ip := private_ip_address instance;
       r_state := Some (state_Name instance);
       r_status := "success";
       r_instance_type := Some instance_type_;
       r_spot_request_id := None;
       r_error := None |} in
  log INFO (MsgProvisioned instance_type_ (name config) instance_id);;
  ret result.

(** [_launch_on_demand_instance]. *)
Definition _launch_on_demand_instance (config : EC2InstanceConfig)
    (launch_params : LaunchParams) : M W Result :=
  let* tgs := _create_tags config "" in
  let on_demand_params :=
    {| launch := launch_params; MinCount := 1; MaxCount := 1;
       TagSpecifications := [ {| ResourceType := "instance"; Tags := tgs |} ] |} in
  let* instance_id :=
    call (EvRunInstances on_demand_params) (run_instances api on_demand_params) in
  log INFO (MsgWaitingRunning instance_id);;
  call (EvWaitRunning instance_id) (wait_instance_running api instance_id);;
  _finalize_instance config instance_id "on-demand".

(** [_launch_spot_instance], the [try] body up to and including the binding of
    the local [spot_request_id]. *)
Definition spot_try_request (config : EC2InstanceConfig) (launch_params : LaunchParams)
    (max_retries attempt : Z) : M W string :=
  log INFO (MsgSpotAttempt (attempt + 1) max_retries (name config));;
  let spot_request_params :=
    {| LaunchSpecification := launch_params; Type_ := "one-time";
       SpotPrice := if truthy (spot_max_price config) then spot_max_price config
                    else None |} in
  (if truthy (spot_max_price config)
   then log INFO (MsgSpotMaxPrice (spot_max_price config))
   else log INFO MsgNoMaxPrice);;
  log INFO (MsgRequestingSpot (name config));;
  call (EvRequestSpot spot_request_params)
       (request_spot_instances api spot_request_params).

(** [_launch_spot_instance], the end of the [try] body: the instance is
    tagged inside a [try] of its own, then the result is returned. *)
Definition spot_try_tag (config : EC2InstanceConfig) (instance_id : string)
    (attempt : Z) (result : Result) : M W Result :=
  let* tagged :=
    try_ (let* tgs := _create_tags config instance_id in
          call (EvCreateTags [instance_id] tgs) (create_tags api [instance_id] tgs);;
          log INFO (MsgTagged instance_id)) in
  match tagged with
  | Ok _ => ret tt
  | Raise tag_error => log WARNING (MsgTagFailed instance_id tag_error)
  end;;
  log INFO (MsgSpotProvisioned (name config) (attempt + 1));;
  ret result.

(** [_launch_spot_instance], the rest of the [try] body, with
    [spot_request_id] bound. *)
Definition spot_try_fulfil (config : EC2InstanceConfig) (spot_request_id : string)
    (attempt : Z) : M W Result :=
  log INFO (MsgWaitingFulfilled spot_request_id);;
  call (EvWaitFulfilled spot_request_id)
       (wait_spot_instance_request_fulfilled api spot_request_id);;
  let* instance_id :=
    call (EvDescribeSpot spot_request_id)
         (describe_spot_instance_requests api spot_request_id) in
  log INFO (MsgWaitingSpotRunning instance_id);;
  call (EvWaitRunning instance_id) (wait_instance_running api instance_id);;
  let* result := _finalize_instance config instance_id "spot" in
  let result := set_spot_request_id spot_request_id result in
  spot_try_tag config instance_id attempt result.

(** The message of the exception raised after the last attempt. *)
Definition all_attempts_failed (max_retries : Z) (n : option string) (e : Exn) : Exn :=
  "All " +:+ str_Z max_retries +:+ " spot instance attempts failed for "
  +:+ str_opt n +:+ ". Last error: " +:+ e.

(** [_launch_spot_instance], the [except Exception as e] handler.  [locals_sir]
    is the local [spot_request_id] as [locals()] sees it: bound once any
    iteration has bound it.  Returns the delay for the next attempt. *)
Definition spot_except (config : EC2InstanceConfig) (max_retries attempt : Z)
    (retry_delay : Z) (locals_sir : option string) (e : Exn) : M W Z :=
  log WARNING (MsgAttemptFailed (attempt + 1) (name config) e);;
  match locals_sir with
  | Some spot_request_id =>
      let* cancelled :=
        try_ (log INFO (MsgCancelling spot_request_id);;
              call (EvCancelSpot spot_request_id)
                   (cancel_spot_instance_requests api spot_request_id)) in
      match cancelled with
      | Ok _ => ret tt
      | Raise cleanup_error => log WARNING (MsgCancelFailed cleanup_error)
      end
  | None => ret tt
  end;;
  if attempt =? max_retries - 1
  then raise (all_attempts_failed max_retries (name config) e)
  else
    log INFO (MsgWaitingRetry retry_delay);;
    sleep retry_delay;;
    ret (Z.min (retry_delay * 2) 120).

(** [_launch_spot_instance], the [for attempt in ...] loop over the attempts
    still to run.  Falling off the end of the loop returns [None]. *)
Fixpoint spot_loop (config : EC2InstanceConfig) (launch_params : LaunchParams)
    (max_retries : Z) (attempts : list Z) (retry_delay : Z)
    (locals_sir : option string) : M W (option Result) :=
  match attempts with
  | [] => ret None
  | attempt :: rest =>
      let* requested :=
        try_ (spot_try_request config launch_params max_retries attempt) in
      match requested with
      | Raise e =>
          let* retry_delay :=
            spot_except config max_retries attempt retry_delay locals_sir e in
          spot_loop config launch_params max_retries rest retry_delay locals_sir
      | Ok spot_request_id =>
          let* fulfilled := try_ (spot_try_fulfil config spot_request_id attempt) in
          match fulfilled with
          | Ok result => ret (Some result)
          | Raise e =>
              let* retry_delay :=
                spot_except config max_retries attempt retry_delay
                            (Some spot_request_id) e in
              spot_loop config launch_params max_retries rest retry_delay
                        (Some spot_request_id)
          end
      end
  end.

(** [_launch_spot_instance]. *)
Definition _launch_spot_instance (config : EC2InstanceConfig)
    (launch_params : LaunchParams) : M W (option Result) :=
  let max_retries := spot_max_retries config in
  let retry_delay := spot_retry_delay config in
  spot_loop config launch_params max_retries (range max_retries) retry_delay None.

(** [provision_instance], the [try] body after [_set_defaults]. *)
Definition provision_try (config : Loc) : M W (option Result) :=
  let* c := load config in
  log INFO (MsgStarting (name c));;
  let launch_params := launch_params_of c in
  if spot_instance c
  then _launch_spot_instance c launch_params
  else let* result := _launch_on_demand_instance c launch_params in
       ret (Some result).

(** [provision_instance], the [except Exception as e] handler; [config] is
    whatever the local variable refers to when the exception arrives. *)
Definition provision_except (config : Loc) (e : Exn) : M W (option Result) :=
  let* c := load config in
  log ERROR (MsgProvisionFailed (name c) e);;
  ret (Some (failed_result (name c) e)).

(** [provision_instance].  The local [config] is rebound by [_set_defaults]
    inside the [try]; the handler reads the current binding. *)
Definition provision_instance (config : Loc) : M W (option Result) :=
  let* defaulted := try_ (_set_defaults config) in
  match defaulted with
  | Raise e => provision_except config e
  | Ok config' =>
      let* outcome := try_ (provision_try config') in
      match outcome with
      | Ok result => ret result
      | Raise e => provision_except config' e
      end
  end.

(** [r['status'] == status] counted over [results]; subscripting a [None]
    entry raises [TypeError]. *)
Fixpoint count_status (status : string) (results : list (option Result)) : Res nat :=
  match results with
  | [] => Ok 0%nat
  | None :: _ => Raise "'NoneType' object is not subscriptable"
  | Some r :: rest =>
      match count_status status rest with
      | Ok n => Ok (if String.eqb (r_status r) status then S n else n)
      | Raise e => Raise e
      end
  end.

Definition lift_res {A : Type} (r : Res A) : M W A :=
  match r with Ok a => ret a | Raise e => raise e end.

(** [provision_instances_parallel], its [except Exception as e] handler:
    appends a failed result named after the submitted config. *)
Definition parallel_except (results : list (option Result)) (config : Loc) (e : Exn)
  : M W (list (option Result)) :=
  let* c := load config in
  let error_result := failed_result (name c) e in
  log ERROR (MsgUnexpected (name c) e);;
  ret (results ++ [Some error_result]).

(** [provision_instances_parallel], the [for future in as_completed(...)] loop
    over the completed futures, each with its config.  [future.result()]
    returns what the task returned or raises what it raised.
    [results.append(result)] precedes the subscript [result['status']], so a
    [None] result stays in the list when the subscript raises into the
    handler. *)
Fixpoint collect (completed : list (Loc * Res (option Result)))
    (results : list (option Result)) : M W (list (option Result)) :=
  match completed with
  | [] => ret results
  | (config, future) :: rest =>
      let* results :=
        match future with
        | Raise e => parallel_except results config e
        | Ok result =>
            let results := results ++ [result] in
            match result with
            | None =>
                parallel_except results config "'NoneType' object is not subscriptable"
            | Some r =>
                let* c := load config in
                (if String.eqb (r_status r) "success"
                 then log INFO (MsgCompletedOk (name c))
                 else log ERROR (MsgCompletedFailed (name c)
                                   (default "Unknown error" (r_error r))));;
                ret results
            end
        end in
      collect rest results
  end.

(** [provision_instances_parallel] on a provisioner with [self.max_workers];
    [started] and [completed] are the two orders of the pool's schedule. *)
Definition provision_instances_parallel (max_workers : Z)
    (started completed : list nat) (configs : list Loc)
  : M W (list (option Result)) :=
  log INFO (MsgStartParallel (length configs));;
  ThreadPoolExecutor max_workers;;
  let* future_to_config := submit provision_instance configs started in
  let* results :=
    collect (as_completed configs future_to_config completed) [] in
  let* successful := lift_res (count_status "success" results) in
  let* failed := lift_res (count_status "failed" results) in
  log INFO (MsgSummary successful failed);;
  ret results.

(** [terminate_instance]. *)
Definition terminate_instance (instance_id : string) : M W bool :=
  let* terminated :=
    try_ (log INFO (MsgTerminating instance_id);;
          call (EvTerminate instance_id) (terminate_instances api instance_id)) in
  match terminated with
  | Ok _ => ret true
  | Raise e => log ERROR (MsgTerminateFailed instance_id e);; ret false
  end.

(** [cleanup_instances], the [for future in as_completed(...)] loop over the
    completed futures, each with its identifier; [results] is the dict. *)
Fixpoint cleanup_collect (completed : list (string * Res bool))
    (results : gmap string bool) : M W (gmap string bool) :=
  match completed with
  | [] => ret results
  | (instance_id, future) :: rest =>
      match future with
      | Ok success => cleanup_collect rest (<[instance_id := success]> results)
      | Raise e =>
          log ERROR (MsgCleanupError instance_id e);;
          cleanup_collect rest (<[instance_id := false]> results)
      end
  end.

(** [cleanup_instances] on a provisioner with [self.max_workers]; [started]
    and [completed] are the two orders of the pool's schedule. *)
Definition cleanup_instances (max_workers : Z) (started completed : list nat)
    (instance_ids : list string) : M W (gmap string bool) :=
  log INFO (MsgStartCleanup (length instance_ids));;
  ThreadPoolExecutor max_workers;;
  let* future_to_id := submit terminate_instance instance_ids started in
  cleanup_collect (as_completed instance_ids future_to_id completed) ∅.

End EC2Provisioner.

(** ** Scripted worlds

    Concrete oracles for running the provisioner on examples.  The world is the
    number of oracle calls made so far; a script answers each kind of call
    from that number. *)

Module Scenario.

Record Script : Type := {
  on_run : nat -> Res string;
  on_request : nat -> Res string;
  on_fulfilled : nat -> Res unit;
  on_describe : nat -> Res string;
  on_running : nat -> Res unit;
  on_tag : nat -> Res unit;
  on_cancel : nat -> Res unit;
  on_terminate : string -> Res unit;
  volumes_of : list string
}.

Definition scripted (s : Script) : EC2 nat :=
  {| run_instances := fun _ w => (on_run s w, S w);
     request_spot_instances := fun _ w => (on_request s w, S w);
     wait_spot_instance_request_fulfilled := fun _ w => (on_fulfilled s w, S w);
     describe_spot_instance_requests := fun _ w => (on_describe s w, S w);
     wait_instance_running := fun _ w => (on_running s w, S w);
     create_tags := fun _ _ w => (on_tag s w, S w);
     cancel_spot_instance_requests := fun _ w => (on_cancel s w, S w);
     terminate_instances := fun iid w => (on_terminate s iid, S w);
     instance_volumes := fun _ w => (Ok (volumes_of s), S w);
     instance_load := fun _ w =>
       (Ok {| public_ip_address := Some "54.0.0.1";
              private_ip_address := Some "10.0.0.1";
              state_Name := "running" |}, S w);
     time_time := fun w => (1700000000, w);
     time_strftime := fun w => ("2024-01-01", w);
     b64encode := fun s => s |}.

(** Every call succeeds; an instance has one volume. *)
Definition all_ok : Script :=
  {| on_run := fun _ => Ok "i-0001";
     on_request := fun _ => Ok "sir-0001";
     on_fulfilled := fun _ => Ok tt;
     on_describe := fun _ => Ok "i-0001";
     on_running := fun _ => Ok tt;
     on_tag := fun _ => Ok tt;
     on_cancel := fun _ => Ok tt;
     on_terminate := fun _ => Ok tt;
     volumes_of := ["vol-0001"] |}.

(** The instance comes up, but every [create_tags] call is refused. *)
Definition tags_refused : Script :=
  {| on_run := fun _ => Ok "i-0001";
     on_request := fun _ => Ok "sir-0001";
     on_fulfilled := fun _ => Ok tt;
     on_describe := fun _ => Ok "i-0001";
     on_running := fun _ => Ok tt;
     on_tag := fun _ => Raise "UnauthorizedOperation";
     on_cancel := fun _ => Ok tt;
     on_terminate := fun _ => Ok tt;
     volumes_of := ["vol-0001"] |}.

(** No spot capacity: every spot request is refused. *)
Definition no_capacity : Script :=
  {| on_run := fun _ => Ok "i-0001";
     on_request := fun _ => Raise "InsufficientInstanceCapacity";
     on_fulfilled := fun _ => Ok tt;
     on_describe := fun _ => Ok "i-0001";
     on_running := fun _ => Ok tt;
     on_tag := fun _ => Ok tt;
     on_cancel := fun _ => Ok tt;
     on_terminate := fun _ => Ok tt;
     volumes_of := ["vol-0001"] |}.

(** The first spot request (the first oracle call) is accepted but never
    fulfilled; later requests are refused outright. *)
Definition accepted_then_refused : Script :=
  {| on_run := fun _ => Ok "i-0001";
     on_request := fun w => if Nat.eqb w 0 then Ok "sir-0001"
                            else Raise "MaxSpotInstanceCountExceeded";
     on_fulfilled := fun _ => Raise "Waiter SpotInstanceRequestFulfilled failed";
     on_describe := fun _ => Ok "i-0001";
     on_running := fun _ => Ok tt;
     on_tag := fun _ => Ok tt;
     on_cancel := fun _ => Ok tt;
     on_terminate := fun _ => Ok tt;
     volumes_of := ["vol-0001"] |}.

(** Termination of ["i-bbb"] raises, every other one succeeds. *)
Definition bbb_stuck : Script :=
  {| on_run := fun _ => Ok "i-0001";
     on_request := fun _ => Ok "sir-0001";
     on_fulfilled := fun _ => Ok tt;
     on_describe := fun _ => Ok "i-0001";
     on_running := fun _ => Ok tt;
     on_tag := fun _ => Ok tt;
     on_cancel := fun _ => Ok tt;
     on_terminate := fun iid => if String.eqb iid "i-bbb"
                                then Raise "OperationNotPermitted" else Ok tt;
     volumes_of := ["vol-0001"] |}.

(** A config as [load_config_from_file] builds it from
    [{"instance_type": ty}] plus the given name, tags, mode, retries, delay. *)
Definition config (ty : string) (n : option string)
    (tg : option (list (string * string))) (spot : bool) (retries delay : Z)
  : EC2InstanceConfig :=
  {| instance_type := ty; name := n; image_id := None; key_name := None;
     security_group_ids := None; subnet_id := None; user_data := None;
     tags := tg; volume_size := 8; volume_type := "gp3";
     iam_instance_profile := None; spot_instance := spot;
     spot_max_price := None; spot_max_retries := retries;
     spot_retry_delay := delay |}.

(** A fully specified config. *)
Definition web : EC2InstanceConfig :=
  {| instance_type := "t3.micro"; name := Some "web";
     image_id := Some "ami-0123456789abcdef0"; key_name := None;
     security_group_ids := None; subnet_id := None; user_data := None;
     tags := Some [("Team", "infra")]; volume_size := 8; volume_type := "gp3";
     iam_instance_profile := None; spot_instance := true;
     spot_max_price := None; spot_max_retries := 3; spot_retry_delay := 30 |}.

(** The same with an empty tag dict, [tags = {}]. *)
Definition web_no_tags : EC2InstanceConfig := set_tags (Some []) web.

(** A named spot config with [spot_max_retries = 0]. *)
Definition zero_retries : EC2InstanceConfig :=
  config "t3.micro" (Some "a") None true 0 30.

(** A named on-demand config. *)
Definition on_demand : EC2InstanceConfig :=
  config "t3.micro" (Some "a") None false 3 30.

(** A named spot config with two attempts. *)
Definition two_tries : EC2InstanceConfig :=
  config "t3.micro" (Some "a") None true 2 30.

(** A named spot config with [spot_retry_delay = 200]. *)
Definition slow_start : EC2InstanceConfig :=
  config "t3.micro" (Some "a") None true 3 200.

(** The config of [{"instance_type": "t3.micro"}]: no name, image or tags. *)
Definition bare : EC2InstanceConfig :=
  config "t3.micro" None None true 3 30.

(** A state whose store holds [c] at reference 1 and nothing else. *)
Definition store1 (c : EC2InstanceConfig) : St nat :=
  {| world := 0%nat; heap := {[ 1%positive := c ]} |}.

End Scenario.

(** ** Observations on a run *)

(** The three components of what a computation returns. *)
Definition outcome {W A : Type} (x : Res A * St W * list Event) : Res A := x.1.1.
Definition final {W A : Type} (x : Res A * St W * list Event) : St W := x.1.2.
Definition events {W A : Type} (x : Res A * St W * list Event) : list Event := x.2.

Definition sleep_of (e : Event) : option Z :=
  match e with EvSleep d => Some d | _ => None end.

(** The delays slept, in order. *)
Definition sleeps (ev : list Event) : list Z := omap sleep_of ev.

Definition request_of (e : Event) : option SpotRequestParams :=
  match e with EvRequestSpot p => Some p | _ => None end.

(** The spot requests issued (the allocation attempts), in order. *)
Definition requests (ev : list Event) : list SpotRequestParams := omap request_of ev.

Definition cancel_of (e : Event) : option string :=
  match e with EvCancelSpot sir => Some sir | _ => None end.

(** The spot request ids for which a cancellation was issued, in order. *)
Definition cancels (ev : list Event) : list string := omap cancel_of ev.

Definition failure_of (e : Event) : option (Z * option string * Exn) :=
  match e with
  | EvLog WARNING (MsgAttemptFailed k n err) => Some (k, n, err)
  | _ => None
  end.

(** The failed spot attempts: attempt number (from 1), config name, error. *)
Definition failures (ev : list Event) : list (Z * option string * Exn) :=
  omap failure_of ev.

Definition terminate_failure_of (e : Event) : option string :=
  match e with
  | EvLog ERROR (MsgTerminateFailed iid _) => Some iid
  | _ => None
  end.

(** The instance ids whose termination raised. *)
Definition terminate_failures (ev : list Event) : list string :=
  omap terminate_failure_of ev.

(** The spot protocol as the remote side sees it. *)
Inductive SpotCall : Type :=
| Request
| Await (sir : string)
| Cancel (sir : string).

Definition spot_call_of (e : Event) : option SpotCall :=
  match e with
  | EvRequestSpot _ => Some Request
  | EvWaitFulfilled sir => Some (Await sir)
  | EvCancelSpot sir => Some (Cancel sir)
  | _ => None
  end.

Definition spot_calls (ev : list Event) : list SpotCall := omap spot_call_of ev.

(** An event outside the retry protocol: neither a sleep, nor a call on a spot
    request, nor the record of a failed attempt. *)
Definition plain (e : Event) : Prop :=
  sleep_of e = None ∧ spot_call_of e = None ∧ failure_of e = None.

(** An event that is neither a sleep, a spot request, a cancellation nor the
    record of a failed attempt. *)
Definition quiet (e : Event) : Prop :=
  sleep_of e = None ∧ request_of e = None ∧ cancel_of e = None ∧ failure_of e = None.

(** [m] leaves the store of config objects alone and emits only [P]-events. *)
Definition obeys {W A : Type} (P : Event -> Prop) (m : M W A) : Prop :=
  ∀ s, heap (final (m s)) = heap s ∧ Forall P (events (m s)).

(** The delays of [n] successive backoffs starting from [d]: each is the
    previous one doubled and capped by [min(retry_delay * 2, 120)]. *)
Fixpoint backoff_seq (d : Z) (n : nat) : list Z :=
  match n with
  | O => []
  | S n => d :: backoff_seq (Z.min (d * 2) 120) n
  end.

(** The backoff property: non-decreasing, doubling from the initial delay
    [d0] under the cap, and bounded by 120. *)
Definition backoff_ok (d0 : Z) (ds : list Z) : Prop :=
  StronglySorted Z.le ds ∧ ds = backoff_seq d0 (length ds) ∧ Forall (λ d, d ≤ 120) ds.

(** What [_set_defaults] makes of a config read at clock value [t]. *)
Definition defaulted (t : Z) (c : EC2InstanceConfig) : EC2InstanceConfig :=
  let c1 := if truthy (name c) then c
            else set_name (Some (instance_type c +:+ "-" +:+ str_Z t)) c in
  let c2 := if truthy (image_id c1) then c1
            else set_image_id (Some "ami-0ae8595e2aff47037") c1 in
  if truthy_seq (tags c2) then c2
  else set_tags (Some (default_tags (spot_instance c2))) c2.

(** What [provision_instance] launches once the defaults are in: the spot
    path or the on-demand path, on the defaulted config. *)
Definition launch_of {W : Type} (api : EC2 W) (c' : EC2InstanceConfig)
  : M W (option Result) :=
  if spot_instance c'
  then _launch_spot_instance api c' (launch_params_of api c')
  else let* result := _launch_on_demand_instance api c' (launch_params_of api c') in
       ret (Some result).

(** [r] is a result dict for the config object behind [l] in the store [h]:
    named after the defaulted config, with status 'success' or 'failed'. *)
Definition result_for (h : gmap Loc EC2InstanceConfig) (l : Loc) (r : option Result)
  : Prop :=
  ∃ c res t, h !! l = Some c ∧ r = Some res ∧
             r_name res = name (defaulted t c) ∧
             (r_status res = "success" ∨ r_status res = "failed").

(** A config on which [_launch_spot_instance] enters its loop at least once,
    or which is not a spot config at all. *)
Definition retries_positive (c : EC2InstanceConfig) : Prop :=
  spot_instance c = true → 1 ≤ spot_max_retries c.

(** The elements of [xs] at the positions [order], in that order: the
    submitted values in the order of a schedule. *)
Definition picked {A : Type} (xs : list A) (order : list nat) : list A :=
  omap (fun i => xs !! i) order.

(** What the completion loop of [provision_instances_parallel] appends for
    one future, by what the future holds; [h] is the store, read for the
    name of the submitted config. *)
Definition entries_of (h : gmap Loc EC2InstanceConfig)
    (p : Loc * Res (option Result)) : list (option Result) :=
  let n := match h !! p.1 with Some c => name c | None => None end in
  match p.2 with
  | Ok (Some r) => [Some r]
  | Ok None =>
      [None; Some (failed_result n "'NoneType' object is not subscriptable")]
  | Raise e => [Some (failed_result n e)]
  end.

(** The future [p.2] holds what the task of the config [p.1] returned or
    raised, run in some state whose store extends [h]. *)
Definition future_of {W : Type} (api : EC2 W) (h : gmap Loc EC2InstanceConfig)
    (p : Loc * Res (option Result)) : Prop :=
  ∃ c s, h !! p.1 = Some c ∧ h ⊆ heap s ∧
         p.2 = outcome (provision_instance api p.1 s).

(** The answers of the API to termination calls issued for [ids] in that
    order, from the world [w]: each identifier with whether its call
    returned ([true]) or raised ([false]). *)
Fixpoint terminations {W : Type} (api : EC2 W) (ids : list string) (w : W)
  : list (string * bool) :=
  match ids with
  | [] => []
  | instance_id :: rest =>
      let (answer, w') := terminate_instances api instance_id w in
      (instance_id, match answer with Ok _ => true | Raise _ => false end)
      :: terminations api rest w'
  end.


(** ** Configuration files and saved reports *)

(** One object of the JSON config file as [json.load] returns it, for a file
    whose values have the types the dataclass annotates.  A field is [None]
    when the object has no such key; for the fields read by [item.get(key)]
    without a default, also when the value is null. *)
Record ConfigItem : Type := {
  item_instance_type : option string;
  item_name : option string;
  item_image_id : option string;
  item_key_name : option string;
  item_security_group_ids : option (list string);
  item_subnet_id : option string;
  item_user_data : option string;
  item_tags : option (list (string * string));
  item_volume_size : option Z;
  item_volume_type : option string;
  item_iam_instance_profile : option string;
  item_spot_instance : option bool;
  item_spot_max_price : option string;
  item_spot_max_retries : option Z;
  item_spot_retry_delay : option Z
}.

(** [load_config_from_file], the [for item in config_data] loop.  The
    subscript [item['instance_type']] raises [KeyError] on a missing key;
    every other field is read with [item.get]. *)
Fixpoint load_items (config_data : list ConfigItem) (configs : list EC2InstanceConfig)
  : Res (list EC2InstanceConfig) :=
  match config_data with
  | [] => Ok configs
  | item :: rest =>
      match item_instance_type item with
      | None => Raise "'instance_type'"
      | Some ty =>
          let config :=
            {| instance_type := ty;
               name := item_name item;
               image_id := item_image_id item;
               key_name := item_key_name item;
               security_group_ids := item_security_group_ids item;
               subnet_id := item_subnet_id item;
               user_data := item_user_data item;
               tags := item_tags item;
               volume_size := default 8 (item_volume_size item);
               volume_type := default "gp3" (item_volume_type item);
               iam_instance_profile := item_iam_instance_profile item;
               spot_instance := default true (item_spot_instance item);
               spot_max_price := item_spot_max_price item;
               spot_max_retries := default 3 (item_spot_max_retries item);
               spot_retry_delay := default 30 (item_spot_retry_delay item) |} in
          load_items rest (configs ++ [config])
      end
  end.

(** [load_config_from_file].  [config_data] is what [open] and [json.load]
    gave for [config_file]: the parsed list, or the exception they raised.
    Every exception is re-raised with the file name in front. *)
Definition load_config_from_file (config_file : string)
    (config_data : Res (list ConfigItem)) : Res (list EC2InstanceConfig) :=
  let loaded :=
    match config_data with
    | Ok config_data => load_items config_data []
    | Raise e => Raise e
    end in
  match loaded with
  | Ok configs => Ok configs
  | Raise e =>
      Raise ("Failed to load configuration from " +:+ config_file +:+ ": " +:+ e)
  end.

(** An object with the key [instance_type] only. *)
Definition item_of_type (ty : string) : ConfigItem :=
  {| item_instance_type := Some ty; item_name := None; item_image_id := None;
     item_key_name := None; item_security_group_ids := None;
     item_subnet_id := None; item_user_data := None; item_tags := None;
     item_volume_size := None; item_volume_type := None;
     item_iam_instance_profile := None; item_spot_instance := None;
     item_spot_max_price := None; item_spot_max_retries := None;
     item_spot_retry_delay := None |}.

(** [c] holds what the config file object [item] says, with the defaults of
    the dataclass for the keys the object leaves out. *)
Definition loaded_from (item : ConfigItem) (c : EC2InstanceConfig) : Prop :=
  item_instance_type item = Some (instance_type c) ∧
  name c = item_name item ∧ image_id c = item_image_id item ∧
  key_name c = item_key_name item ∧
  security_group_ids c = item_security_group_ids item ∧
  subnet_id c = item_subnet_id item ∧ user_data c = item_user_data item ∧
  tags c = item_tags item ∧
  volume_size c = default 8 (item_volume_size item) ∧
  volume_type c = default "gp3" (item_volume_type item) ∧
  iam_instance_profile c = item_iam_instance_profile item ∧
  spot_instance c = default true (item_spot_instance item) ∧
  spot_max_price c = item_spot_max_price item ∧
  spot_max_retries c = default 3 (item_spot_max_retries item) ∧
  spot_retry_delay c = default 30 (item_spot_retry_delay item).

(** [create_sample_config], the list it dumps to [sample_config.json]. *)
Definition sample_config : list ConfigItem :=
  [ item_of_type "t3.micro";
    {| item_instance_type := Some "t3.small"; item_name := Some "custom-name";
       item_image_id := None; item_key_name := None;
       item_security_group_ids := None; item_subnet_id := None;
       item_user_data := None; item_tags := None; item_volume_size := None;
       item_volume_type := None; item_iam_instance_profile := None;
       item_spot_instance := None; item_spot_max_price := None;
       item_spot_max_retries := None; item_spot_retry_delay := None |};
    {| item_instance_type := Some "t3.medium"; item_name := None;
       item_image_id := None; item_key_name := None;
       item_security_group_ids := None; item_subnet_id := None;
       item_user_data := None; item_tags := None; item_volume_size := None;
       item_volume_type := None; item_iam_instance_profile := None;
       item_spot_instance := Some false; item_spot_max_price := None;
       item_spot_max_retries := None; item_spot_retry_delay := None |} ].

(** [main], cleanup mode: the comprehension
    [[r['instance_id'] for r in previous_results if r['status'] == 'success']]
    over the result dicts of the saved report.  A successful entry without
    the key [instance_id] raises [KeyError]. *)
Fixpoint successful_instance_ids (previous_results : list Result)
  : Res (list string) :=
  match previous_results with
  | [] => Ok []
  | r :: rest =>
      if String.eqb (r_status r) "success"
      then match r_instance_id r with
           | None => Raise "'instance_id'"
           | Some instance_id =>
               match successful_instance_ids rest with
               | Ok instance_ids => Ok (instance_id :: instance_ids)
               | Raise e => Raise e
               end
           end
      else successful_instance_ids rest
  end.

(** ** Further observations *)

Definition run_of (e : Event) : option OnDemandParams :=
  match e with EvRunInstances p => Some p | _ => None end.

(** The [run_instances] calls issued, in order. *)
Definition runs (ev : list Event) : list OnDemandParams := omap run_of ev.

(** An API call, as opposed to a log record or a sleep. *)
Definition is_api_call (e : Event) : bool :=
  match e with
  | EvLog _ _ | EvSleep _ => false
  | _ => true
  end.

(** The API calls issued, in order. *)
Definition api_calls (ev : list Event) : list Event := List.filter is_api_call ev.

(** An event of finalization and tagging: not part of the retry protocol,
    and neither a launch nor a termination. *)
Definition benign (e : Event) : Prop :=
  plain e ∧ run_of e = None ∧ (∀ iid, e ≠ EvTerminate iid).

(** An event of the spot path: neither an on-demand launch nor a termination. *)
Definition spot_only (e : Event) : Prop :=
  run_of e = None ∧ (∀ iid, e ≠ EvTerminate iid).

(** The seconds slept in all. *)
Definition total_slept (ev : list Event) : Z := foldr Z.add 0 (sleeps ev).

(** A result dict as the provisioner builds them: a success carries an
    instance id and no error, a failure an error and no instance id. *)
Definition well_formed (r : Result) : Prop :=
  (r_status r = "success" ∧ is_Some (r_instance_id r) ∧ r_error r = None) ∨
  (r_status r = "failed" ∧ r_instance_id r = None ∧ is_Some (r_error r)).

(** An entry of the result list that is a dict is well formed. *)
Definition entry_ok (o : option Result) : Prop := ∀ r, o = Some r → well_formed r.

(** The tag list [_create_tags] builds for a config on the day [date]. *)
Definition tags_for (c : EC2InstanceConfig) (date : string) : list Tag :=
  {| Key := "Name"; Value := name c |}
  :: {| Key := "CreatedBy"; Value := Some "EC2Provisioner" |}
  :: {| Key := "CreationDate"; Value := Some date |}
  :: map (λ kv, {| Key := fst kv; Value := Some (snd kv) |}) (default [] (tags c)).


(** The one spot request an acquisition for [c] issues, again at each retry. *)
Definition spot_request_for (c : EC2InstanceConfig) (lp : LaunchParams)
  : SpotRequestParams :=
  {| LaunchSpecification := lp; Type_ := "one-time";
     SpotPrice := if truthy (spot_max_price c) then spot_max_price c else None |}.

(** The mode name [_finalize_instance] is given for a config. *)
Definition mode_of (c : EC2InstanceConfig) : string :=
  if spot_instance c then "spot" else "on-demand".

(** ** More scripted runs *)

Module Sample.

(** What the acquisition of [Scenario.web] returns when every call succeeds. *)
Definition web_success : Result :=
  {| r_name := Some "web"; r_instance_id := Some "i-0001";
     r_public_ip := Some "54.0.0.1"; r_private_ip := Some "10.0.0.1";
     r_state := Some "running"; r_status := "success";
     r_instance_type := Some "spot"; r_spot_request_id := Some "sir-0001";
     r_error := None |}.


(** What [load_config_from_file] makes of [{"instance_type": "t3.micro"}]. *)
Definition minimal : EC2InstanceConfig :=
  Scenario.config "t3.micro" None None true 3 30.



(** A named spot config with [spot_retry_delay = 2 ** 63]. *)
Definition overlong_delay : EC2InstanceConfig :=
  Scenario.config "t3.micro" (Some "a") None true 3 9223372036854775808.

(** A state whose store holds [c1] at reference 1 and [c2] at reference 2. *)
Definition store2 (c1 c2 : EC2InstanceConfig) : St nat :=
  {| world := 0%nat; heap := {[ 1%positive := c1; 2%positive := c2 ]} |}.

(** A config file object [{"name": "db"}], without the key [instance_type]. *)
Definition no_type : ConfigItem :=
  {| item_instance_type := None; item_name := Some "db"; item_image_id := None;
     item_key_name := None; item_security_group_ids := None;
     item_subnet_id := None; item_user_data := None; item_tags := None;
     item_volume_size := None; item_volume_type := None;
     item_iam_instance_profile := None; item_spot_instance := None;
     item_spot_max_price := None; item_spot_max_retries := None;
     item_spot_retry_delay := None |}.

End Sample.

(** * Properties *)

#[local] Set Warnings "-clear-no-such-hyp".

Section Monad.
Context {W : Type}.
Implicit Types (P : Event → Prop).

Lemma bind_run {A B : Type} (m : M W A) (k : A → M W B) (s : St W) :
  bind m k s =
    match outcome (m s) with
    | Ok a => (outcome (k a (final (m s))), final (k a (final (m s))),
               events (m s) ++ events (k a (final (m s))))
    | Raise e => (Raise e, final (m s), events (m s))
    end.
Proof.
  unfold bind, outcome, final, events.
  destruct (m s) as [[[a|e] s1] ev1]; simpl; [|done].
  by destruct (k a s1) as [[r s2] ev2].
Qed.

Lemma try_run {A : Type} (m : M W A) (s : St W) :
  try_ m s = (Ok (outcome (m s)), final (m s), events (m s)).
Proof. unfold try_, outcome, final, events. by destruct (m s) as [[r s1] ev1]. Qed.

Lemma outcome_bind_Ok {A B : Type} (m : M W A) (k : A → M W B) (s : St W) (b : B) :
  outcome (bind m k s) = Ok b →
  ∃ a, outcome (m s) = Ok a ∧ outcome (k a (final (m s))) = Ok b.
Proof.
  rewrite bind_run. destruct (outcome (m s)) as [a|e]; [|done].
  intros H. by exists a.
Qed.

Lemma events_bind {A B : Type} (m : M W A) (k : A → M W B) (s : St W) :
  events (bind m k s) =
    events (m s) ++ match outcome (m s) with
                    | Ok a => events (k a (final (m s)))
                    | Raise _ => []
                    end.
Proof.
  rewrite bind_run. destruct (outcome (m s)); [done|].
  unfold events at 1; simpl. by rewrite app_nil_r.
Qed.

Lemma final_bind {A B : Type} (m : M W A) (k : A → M W B) (s : St W) :
  final (bind m k s) =
    match outcome (m s) with
    | Ok a => final (k a (final (m s)))
    | Raise _ => final (m s)
    end.
Proof. rewrite bind_run. by destruct (outcome (m s)). Qed.

Lemma outcome_bind {A B : Type} (m : M W A) (k : A → M W B) (s : St W) :
  outcome (bind m k s) =
    match outcome (m s) with
    | Ok a => outcome (k a (final (m s)))
    | Raise e => Raise e
    end.
Proof. rewrite bind_run. by destruct (outcome (m s)). Qed.

Lemma outcome_ret_Ok {A : Type} (a b : A) (s : St W) :
  outcome (ret a s) = Ok b → a = b.
Proof. by intros [= ->]. Qed.

Lemma obeys_ret {A : Type} P (a : A) : obeys P (ret (W:=W) a).
Proof. intros s; split; [done | constructor]. Qed.

Lemma obeys_raise {A : Type} P (e : Exn) : obeys P (raise (W:=W) (A:=A) e).
Proof. intros s; split; [done | constructor]. Qed.

Lemma obeys_bind {A B : Type} P (m : M W A) (k : A → M W B) :
  obeys P m → (∀ a, obeys P (k a)) → obeys P (bind m k).
Proof.
  intros Hm Hk s. rewrite bind_run.
  destruct (Hm s) as [Hh Hev].
  destruct (outcome (m s)) as [a|e]; simpl; [|done].
  destruct (Hk a (final (m s))) as [Hh' Hev'].
  unfold final, events in *; simpl. split; [congruence | by apply Forall_app].
Qed.

Lemma obeys_try {A : Type} P (m : M W A) : obeys P m → obeys P (try_ m).
Proof. intros Hm s. rewrite try_run. apply Hm. Qed.

Lemma obeys_emit P (e : Event) : P e → obeys P (emit (W:=W) e).
Proof. intros He s; split; [done | by repeat constructor]. Qed.

Lemma obeys_log P (lvl : Level) (m : LogMsg) :
  P (EvLog lvl m) → obeys P (log (W:=W) lvl m).
Proof. apply obeys_emit. Qed.

Lemma obeys_call {A : Type} P (e : Event) (f : W → Res A * W) :
  P e → obeys P (call e f).
Proof.
  intros He s. unfold call, final, events.
  destruct (f (world s)) as [r w]; simpl. split; [done | by repeat constructor].
Qed.

Lemma obeys_clock {A : Type} P (f : W → A * W) : obeys P (clock f).
Proof.
  intros s. unfold clock, final, events.
  destruct (f (world s)) as [a w]; simpl. split; [done | constructor].
Qed.

Lemma obeys_sleep P (d : Z) : P (EvSleep d) → obeys P (sleep (W:=W) d).
Proof.
  intros Hd. unfold sleep.
  destruct (_ || _); [apply obeys_raise|].
  destruct (d <? 0); [apply obeys_raise | by apply obeys_emit].
Qed.

(** The three ways [time.sleep] ends. *)
Lemma sleep_cases (d : Z) (s : St W) :
  (0 ≤ d ≤ sleep_max ∧ sleep d s = (Ok tt, s, [EvSleep d])) ∨
  (- sleep_max ≤ d < 0 ∧
   sleep d s = (Raise "sleep length must be non-negative", s, [])) ∨
  ((d < - sleep_max ∨ sleep_max < d) ∧
   sleep d s = (Raise "timestamp too large to convert to C _PyTime_t", s, [])).
Proof.
  unfold sleep.
  destruct (Z.ltb_spec d (- sleep_max)) as [H1|H1]; cbn [orb].
  - right; right. split; [by left | done].
  - destruct (Z.ltb_spec sleep_max d) as [H2|H2].
    + right; right. split; [by right | done].
    + destruct (Z.ltb_spec d 0) as [H3|H3]; [right; left | left]; done.
Qed.

Lemma obeys_load P (l : Loc) : obeys P (load (W:=W) l).
Proof.
  intros s. unfold load, final, events.
  destruct (heap s !! l); simpl; (split; [done | constructor]).
Qed.

Lemma obeys_lift_res {A : Type} P (r : Res A) : obeys P (lift_res (W:=W) r).
Proof. destruct r; [apply obeys_ret | apply obeys_raise]. Qed.

Lemma obeys_weaken {A : Type} P (Q : Event → Prop) (m : M W A) :
  (∀ e, P e → Q e) → obeys P m → obeys Q m.
Proof.
  intros HPQ Hm s. destruct (Hm s) as [Hh Hev]. split; [done|].
  eapply Forall_impl; eauto.
Qed.

End Monad.

(** ** The thread pool *)

Section Pool.
Context {W A B : Type} (fn : A → M W B).
Implicit Types (submitted : list A) (started completed : list nat).
Implicit Types (futures : gmap nat (Res B)).

Lemma ThreadPoolExecutor_run (max_workers : Z) (s : St W) :
  ThreadPoolExecutor max_workers s =
    if max_workers <=? 0
    then (Raise "max_workers must be greater than 0", s, [])
    else (Ok tt, s, []).
Proof. unfold ThreadPoolExecutor. by destruct (max_workers <=? 0). Qed.

(** One call run by the pool, spelled out. *)
Lemma submit_cons submitted i rest x (s : St W) :
  submitted !! i = Some x →
  submit fn submitted (i :: rest) s =
    let y := fn x s in
    let z := submit fn submitted rest (final y) in
    match outcome z with
    | Ok futures =>
        (Ok (<[i := outcome y]> futures), final z, events y ++ events z)
    | Raise e => (Raise e, final z, events y ++ events z)
    end.
Proof.
  intros Hi. cbn [submit]. rewrite Hi.
  unfold bind, try_, ret, outcome, final, events.
  destruct (fn x s) as [[r s1] ev1]; cbn [fst snd].
  destruct (submit fn submitted rest s1) as [[[futures|e] s2] ev2];
    cbn [fst snd]; by rewrite ?app_nil_r.
Qed.

(** The pool never raises: what a call raises is kept in its future.  An
    invariant [I] of the calls holds after the pool has run them, there is a
    future for every started position of the submitted list, and every
    future holds the outcome of its call. *)
Lemma submit_spec (I : St W → Prop) (Q : A → Res B → Prop) submitted :
  (∀ x s, x ∈ submitted → I s → I (final (fn x s)) ∧ Q x (outcome (fn x s))) →
  ∀ started s, I s →
    ∃ futures,
      outcome (submit fn submitted started s) = Ok futures ∧
      I (final (submit fn submitted started s)) ∧
      (∀ i, is_Some (futures !! i) ↔ i ∈ started ∧ is_Some (submitted !! i)) ∧
      (∀ i r, futures !! i = Some r → ∃ x, submitted !! i = Some x ∧ Q x r).
Proof.
  intros Hfn. induction started as [|i rest IH]; intros s Hs.
  - exists ∅. split; [done|]. split; [done|]. split.
    + intros i. rewrite lookup_empty. split; [by intros [? ?]|].
      intros [H _]. by apply elem_of_nil in H.
    + intros i r. by rewrite lookup_empty.
  - destruct (submitted !! i) as [x|] eqn:Hi.
    + rewrite (submit_cons _ _ _ _ _ Hi). cbn zeta.
      destruct (Hfn x s) as [HI HQ]; [by eapply list_elem_of_lookup_2 | done |].
      destruct (IH _ HI) as (futures & Hout & HI' & Hdom & Hval).
      rewrite Hout. exists (<[i := outcome (fn x s)]> futures).
      cbn [outcome final fst snd].
      split; [done|]. split; [done|]. split.
      * intros j. destruct (decide (j = i)) as [->|Hne].
        -- rewrite lookup_insert_eq. split; [|by eauto].
           intros _. split; [by left | by eauto].
        -- rewrite lookup_insert_ne by done. rewrite Hdom. set_solver.
      * intros j r. destruct (decide (j = i)) as [->|Hne].
        -- rewrite lookup_insert_eq. intros [= <-]. eauto.
        -- rewrite lookup_insert_ne by done. apply Hval.
    + cbn [submit]. rewrite Hi.
      destruct (IH s Hs) as (futures & Hout & HI' & Hdom & Hval).
      exists futures. split; [done|]. split; [done|]. split; [|done].
      intros j. rewrite Hdom. split; [set_solver|].
      intros [[->|Hj]%elem_of_cons Hsome]; [|done].
      rewrite Hi in Hsome. by destruct Hsome.
Qed.

End Pool.

(** ** Schedules *)

Section Schedule.
Context {A B : Type}.
Implicit Types (submitted : list A) (started completed : list nat).
Implicit Types (futures : gmap nat (Res B)).

Lemma elem_of_picked (xs : list A) (order : list nat) (x : A) :
  x ∈ picked xs order ↔ ∃ i, i ∈ order ∧ xs !! i = Some x.
Proof. unfold picked. apply list_elem_of_omap. Qed.

Lemma picked_seq (xs : list A) : picked xs (seq 0 (length xs)) = xs.
Proof.
  assert (∀ pre : list A,
            omap (λ i, (pre ++ xs) !! i) (seq (length pre) (length xs)) = xs) as H.
  { induction xs as [|x xs IH]; intros pre; [done|].
    cbn [length seq omap list_omap].
    rewrite (list_lookup_middle pre xs x (length pre) eq_refl).
    f_equal. specialize (IH (pre ++ [x])).
    rewrite length_app, <- app_assoc in IH. cbn [length app] in IH.
    by rewrite Nat.add_1_r in IH. }
  apply (H []).
Qed.

(** However the scheduler orders them, the values of a schedule are the
    submitted values. *)
Lemma picked_perm (xs : list A) (order : list nat) :
  order ≡ₚ seq 0 (length xs) → picked xs order ≡ₚ xs.
Proof.
  intros Hperm. rewrite <- (picked_seq xs) at 2. unfold picked. by rewrite Hperm.
Qed.

Lemma schedule_elem (n : nat) (order : list nat) (i : nat) :
  order ≡ₚ seq 0 n → i ∈ order ↔ (i < n)%nat.
Proof. intros ->. rewrite elem_of_seq. lia. Qed.

Lemma schedule_NoDup (n : nat) (order : list nat) :
  order ≡ₚ seq 0 n → NoDup order.
Proof. intros ->. apply NoDup_seq. Qed.

Lemma elem_of_as_completed submitted futures completed (x : A) (r : Res B) :
  (x, r) ∈ as_completed submitted futures completed ↔
  ∃ i, i ∈ completed ∧ submitted !! i = Some x ∧ futures !! i = Some r.
Proof.
  unfold as_completed. rewrite list_elem_of_omap. split.
  - intros (i & Hi & H). exists i.
    destruct (submitted !! i), (futures !! i); naive_solver.
  - intros (i & Hi & Hx & Hr). exists i. by rewrite Hx, Hr.
Qed.

(** With a future for every submitted value, [as_completed] yields the
    submitted values in the order of completion. *)
Lemma as_completed_fst submitted futures completed :
  (∀ i, i ∈ completed → is_Some (submitted !! i) → is_Some (futures !! i)) →
  (as_completed submitted futures completed).*1 = picked submitted completed.
Proof.
  unfold as_completed, picked.
  induction completed as [|i rest IH]; intros Hall; [done|].
  cbn [omap list_omap].
  destruct (submitted !! i) as [x|] eqn:Hx.
  - destruct (Hall i) as [r Hr]; [by left | by eauto |].
    rewrite Hr. cbn [fmap list_fmap fst]. f_equal.
    apply IH. intros j Hj. apply Hall. by right.
  - apply IH. intros j Hj. apply Hall. by right.
Qed.

(** Every future is for one of the submitted values. *)
Lemma as_completed_submitted submitted futures completed (p : A * Res B) :
  p ∈ as_completed submitted futures completed → p.1 ∈ submitted.
Proof.
  destruct p as [x r]. intros (i & _ & Hx & _)%elem_of_as_completed.
  by eapply list_elem_of_lookup_2.
Qed.

End Schedule.

(** Steps through a computation built from the monad's combinators. *)
Ltac obeys_auto :=
  repeat first
    [ apply obeys_ret | apply obeys_raise | apply obeys_clock | apply obeys_load
    | apply obeys_lift_res | apply obeys_try
    | apply obeys_log | apply obeys_call | apply obeys_sleep
    | apply obeys_bind; [|intros ?]
    | match goal with |- obeys _ (match ?x with _ => _ end) => destruct x end ];
  try (by repeat split).

Lemma omap_nil_Forall {A : Type} (f : Event → option A) (ev : list Event) :
  Forall (λ e, f e = None) ev → omap f ev = [].
Proof. induction 1 as [|e ev He _ IH]; simpl; [done|]. by rewrite He. Qed.

Lemma quiet_events (ev : list Event) :
  Forall quiet ev →
  sleeps ev = [] ∧ requests ev = [] ∧ cancels ev = [] ∧ failures ev = [].
Proof.
  intros H. repeat split; apply omap_nil_Forall;
    (eapply Forall_impl; [exact H|]); intros e (?&?&?&?); done.
Qed.

Lemma plain_quiet (e : Event) : plain e → quiet e.
Proof. intros (Hs & Hc & Hf). by destruct e. Qed.

Lemma plain_events (ev : list Event) : Forall plain ev → spot_calls ev = [].
Proof.
  intros H. apply omap_nil_Forall.
  eapply Forall_impl; [exact H|]. by intros e (_ & ? & _).
Qed.

Section Verification.
Context {W : Type} (api : EC2 W).
Implicit Types (c : EC2InstanceConfig) (s : St W).

Lemma create_tags_plain c iid : obeys plain (_create_tags api c iid).
Proof. unfold _create_tags. obeys_auto. Qed.

Lemma tag_volumes_plain c iid vols : obeys plain (tag_volumes api c iid vols).
Proof.
  induction vols as [|v vols IH]; simpl; [apply obeys_ret|].
  apply obeys_bind; [apply create_tags_plain|]; intros tgs.
  apply obeys_bind; [by apply obeys_call|]; intros _. exact IH.
Qed.

Lemma finalize_plain c iid ty : obeys plain (_finalize_instance api c iid ty).
Proof.
  unfold _finalize_instance.
  apply obeys_bind; [by apply obeys_call|]; intros vols.
  apply obeys_bind; [apply tag_volumes_plain|]; intros _.
  obeys_auto.
Qed.

Lemma on_demand_plain c lp : obeys plain (_launch_on_demand_instance api c lp).
Proof.
  unfold _launch_on_demand_instance.
  apply obeys_bind; [apply create_tags_plain|]; intros tgs.
  apply obeys_bind; [by apply obeys_call|]; intros iid.
  apply obeys_bind; [by apply obeys_log|]; intros _.
  apply obeys_bind; [by apply obeys_call|]; intros _.
  apply finalize_plain.
Qed.

Lemma spot_try_tag_plain c iid a r : obeys plain (spot_try_tag api c iid a r).
Proof.
  unfold spot_try_tag. apply obeys_bind.
  { apply obeys_try. apply obeys_bind; [apply create_tags_plain|]; intros tgs.
    obeys_auto. }
  intros t. obeys_auto.
Qed.

(** The part of the [try] body that follows the fulfilment wait. *)
Lemma spot_after_await_plain c sid a :
  obeys plain
    (let* instance_id :=
       call (EvDescribeSpot sid) (describe_spot_instance_requests api sid) in
     log INFO (MsgWaitingSpotRunning instance_id);;
     call (EvWaitRunning instance_id) (wait_instance_running api instance_id);;
     let* result := _finalize_instance api c instance_id "spot" in
     spot_try_tag api c instance_id a (set_spot_request_id sid result)).
Proof.
  do 3 (apply obeys_bind; [obeys_auto|]; intros ?).
  apply obeys_bind; [apply finalize_plain|]; intros r.
  apply spot_try_tag_plain.
Qed.

Lemma spot_try_fulfil_quiet c sid a : obeys quiet (spot_try_fulfil api c sid a).
Proof.
  unfold spot_try_fulfil.
  do 2 (apply obeys_bind; [obeys_auto|]; intros ?).
  eapply obeys_weaken; [apply plain_quiet | apply spot_after_await_plain].
Qed.

(** Of the calls on spot requests, the rest of the [try] body issues the
    fulfilment wait and no other. *)
Lemma spot_try_fulfil_calls c sid a s :
  spot_calls (events (spot_try_fulfil api c sid a s)) = [Await sid].
Proof.
  unfold spot_try_fulfil. rewrite events_bind.
  change (outcome (log INFO (MsgWaitingFulfilled sid) s)) with (Ok (A:=unit) tt).
  rewrite events_bind. unfold spot_calls. rewrite !omap_app.
  set (s1 := final (log INFO (MsgWaitingFulfilled sid) s)).
  assert (omap spot_call_of (events (call (EvWaitFulfilled sid)
            (wait_spot_instance_request_fulfilled api sid) s1)) = [Await sid]) as ->.
  { unfold call, events. by destruct (wait_spot_instance_request_fulfilled _ _ _). }
  destruct (outcome (call _ _ s1)) as [[]|e]; [|done].
  destruct (spot_after_await_plain c sid a (final (call (EvWaitFulfilled sid)
              (wait_spot_instance_request_fulfilled api sid) s1))) as [_ Hplain].
  apply plain_events in Hplain. unfold spot_calls in Hplain.
  simpl. by rewrite Hplain.
Qed.

(** A finalized instance is reported as a success under the config's name. *)
Lemma finalize_success c iid ty s r :
  outcome (_finalize_instance api c iid ty s) = Ok r →
  r_status r = "success" ∧ r_name r = name c ∧ r_instance_id r = Some iid.
Proof.
  unfold _finalize_instance. intros H.
  do 4 (apply outcome_bind_Ok in H as (? & _ & H)).
  apply outcome_ret_Ok in H as <-. done.
Qed.

Lemma on_demand_success c lp s r :
  outcome (_launch_on_demand_instance api c lp s) = Ok r →
  r_status r = "success" ∧ r_name r = name c.
Proof.
  unfold _launch_on_demand_instance. intros H.
  do 4 (apply outcome_bind_Ok in H as (? & _ & H)).
  apply finalize_success in H. tauto.
Qed.

Lemma spot_try_fulfil_success c sid a s r :
  outcome (spot_try_fulfil api c sid a s) = Ok r →
  r_status r = "success" ∧ r_name r = name c ∧ r_spot_request_id r = Some sid.
Proof.
  unfold spot_try_fulfil. intros H.
  do 5 (apply outcome_bind_Ok in H as (? & _ & H)).
  apply outcome_bind_Ok in H as (r0 & Hfin & H).
  apply finalize_success in Hfin as (Hst & Hnm & _).
  unfold spot_try_tag in H.
  do 3 (apply outcome_bind_Ok in H as (? & _ & H)).
  apply outcome_ret_Ok in H as <-. done.
Qed.

(** One pass through the request part of the [try] body issues exactly one
    spot request and nothing else of note. *)
Lemma spot_try_request_spec c lp n a s :
  let x := spot_try_request api c lp n a s in
  heap (final x) = heap s ∧ sleeps (events x) = [] ∧
  length (requests (events x)) = 1%nat ∧ cancels (events x) = [] ∧
  failures (events x) = [].
Proof.
  unfold spot_try_request, bind, log, emit, call, final, events.
  destruct (truthy (spot_max_price c)); simpl;
    destruct (request_spot_instances _ _ _) as [[sid|e] w]; by simpl.
Qed.

(** The handler: records the failure, cancels what [locals()] holds, and then
    either gives up (on the last attempt), or sleeps and doubles the delay. *)
Lemma spot_except_spec c n a d sir e s :
  let x := spot_except api c n a d sir e s in
  heap (final x) = heap s ∧ requests (events x) = [] ∧
  failures (events x) = [(a + 1, name c, e)] ∧
  cancels (events x) = option_list sir ∧
  match outcome x with
  | Ok d' => a ≠ n - 1 ∧ 0 ≤ d ∧ d' = Z.min (d * 2) 120 ∧ sleeps (events x) = [d]
  | Raise e' =>
      sleeps (events x) = [] ∧ (a = n - 1 → e' = all_attempts_failed n (name c) e)
  end.
Proof.
  unfold spot_except, bind, try_, log, emit, call, raise, ret,
    outcome, final, events.
  destruct sir as [sid|]; cbn [fst snd app option_list].
  - destruct (cancel_spot_instance_requests _ _ _) as [[[]|ce] w];
      cbn [fst snd app world heap];
      (destruct (Z.eqb_spec a (n - 1)) as [Ha|Ha]; [done|]);
      match goal with |- context [sleep d ?s'] =>
        destruct (sleep_cases d s') as [[Hd ->]|[[Hd ->]|[Hd ->]]] end;
      cbn; repeat split; (done || lia).
  - (destruct (Z.eqb_spec a (n - 1)) as [Ha|Ha]; [done|]);
      match goal with |- context [sleep d ?s'] =>
        destruct (sleep_cases d s') as [[Hd ->]|[[Hd ->]|[Hd ->]]] end;
      cbn; repeat split; (done || lia).
Qed.

(** One iteration of the retry loop, spelled out. *)
Lemma spot_loop_cons c lp n a rest d sir s :
  spot_loop api c lp n (a :: rest) d sir s =
    let x1 := spot_try_request api c lp n a s in
    match outcome x1 with
    | Raise e =>
        let x2 := spot_except api c n a d sir e (final x1) in
        match outcome x2 with
        | Ok d' =>
            let x3 := spot_loop api c lp n rest d' sir (final x2) in
            (outcome x3, final x3, events x1 ++ events x2 ++ events x3)
        | Raise e' => (Raise e', final x2, events x1 ++ events x2)
        end
    | Ok sid =>
        let x2 := spot_try_fulfil api c sid a (final x1) in
        match outcome x2 with
        | Ok result => (Ok (Some result), final x2, events x1 ++ events x2)
        | Raise e =>
            let x3 := spot_except api c n a d (Some sid) e (final x2) in
            match outcome x3 with
            | Ok d' =>
                let x4 := spot_loop api c lp n rest d' (Some sid) (final x3) in
                (outcome x4, final x4,
                 events x1 ++ events x2 ++ events x3 ++ events x4)
            | Raise e' =>
                (Raise e', final x3, events x1 ++ events x2 ++ events x3)
            end
        end
    end.
Proof.
  cbn [spot_loop]. unfold bind, try_, ret, outcome, final, events.
  destruct (spot_try_request _ _ _ _ _ _) as [[[sid|e] s1] ev1]; cbn [fst snd].
  - destruct (spot_try_fulfil _ _ _ _ _) as [[[r|e] s2] ev2]; cbn [fst snd].
    + by rewrite app_nil_r.
    + destruct (spot_except _ _ _ _ _ _ _ _) as [[[d'|e'] s3] ev3]; cbn [fst snd].
      * by destruct (spot_loop _ _ _ _ _ _ _ _) as [[r4 s4] ev4].
      * done.
  - destruct (spot_except _ _ _ _ _ _ _ _) as [[[d'|e'] s3] ev3]; cbn [fst snd].
    + by destruct (spot_loop _ _ _ _ _ _ _ _) as [[r4 s4] ev4].
    + done.
Qed.

Lemma sleeps_app ev1 ev2 : sleeps (ev1 ++ ev2) = sleeps ev1 ++ sleeps ev2.
Proof. apply omap_app. Qed.

Lemma requests_app ev1 ev2 : requests (ev1 ++ ev2) = requests ev1 ++ requests ev2.
Proof. apply omap_app. Qed.

Lemma cancels_app ev1 ev2 : cancels (ev1 ++ ev2) = cancels ev1 ++ cancels ev2.
Proof. apply omap_app. Qed.

Lemma failures_app ev1 ev2 : failures (ev1 ++ ev2) = failures ev1 ++ failures ev2.
Proof. apply omap_app. Qed.

(** Unfolds one iteration of [spot_loop] and splits on what each of its parts
    returned, with the parts' specifications in the context. *)
Ltac spot_loop_cases c lp n a d sir s :=
  rewrite (spot_loop_cons c lp n a _ d sir s); cbn zeta;
  let Hreq := fresh "Hreq" in
  pose proof (spot_try_request_spec c lp n a s) as Hreq; cbn zeta in Hreq;
  destruct Hreq as (?Hh1 & ?Hsl1 & ?Hrq1 & ?Hcn1 & ?Hfl1);
  let s1 := fresh "s1" in
  set (s1 := final (spot_try_request api c lp n a s)) in *;
  destruct (outcome (spot_try_request api c lp n a s)) as [?sid|?e1];
  [ let Hful := fresh "Hful" in
    pose proof (spot_try_fulfil_quiet c sid a s1) as Hful;
    destruct Hful as [?Hh2 Hful];
    apply quiet_events in Hful as (?Hsl2 & ?Hrq2 & ?Hcn2 & ?Hfl2);
    pose proof (spot_try_fulfil_success c sid a s1) as ?Hok2;
    let s2 := fresh "s2" in
    set (s2 := final (spot_try_fulfil api c sid a s1)) in *;
    destruct (outcome (spot_try_fulfil api c sid a s1)) as [?r|?e2];
    [ | let Hex := fresh "Hex" in
        pose proof (spot_except_spec c n a d (Some sid) e2 s2) as Hex;
        cbn zeta in Hex;
        destruct Hex as (?Hh3 & ?Hrq3 & ?Hfl3 & ?Hcn3 & ?Hout3);
        destruct (outcome (spot_except api c n a d (Some sid) e2 s2)) as [?d'|?e'] ]
  | let Hex := fresh "Hex" in
    pose proof (spot_except_spec c n a d sir e1 s1) as Hex;
    cbn zeta in Hex;
    destruct Hex as (?Hh3 & ?Hrq3 & ?Hfl3 & ?Hcn3 & ?Hout3);
    destruct (outcome (spot_except api c n a d sir e1 s1)) as [?d'|?e'] ];
  cbn [outcome final events fst snd].

(** The delays slept by the loop are successive backoffs from the delay it
    was entered with. *)
Lemma spot_loop_sleeps c lp n attempts :
  ∀ d sir s, ∃ k,
    sleeps (events (spot_loop api c lp n attempts d sir s)) = backoff_seq d k ∧
    (k ≠ 0%nat → 0 ≤ d).
Proof.
  induction attempts as [|a rest IH]; intros d sir s.
  - by exists 0%nat.
  - spot_loop_cases c lp n a d sir s; rewrite ?sleeps_app, ?Hsl1, ?Hsl2.
    + by exists 0%nat.
    + destruct Hout3 as (_ & Hd & -> & ->).
      destruct (IH (Z.min (d * 2) 120) (Some sid) (final (spot_except api c n a d (Some sid) e2 s2)))
        as (k & -> & _).
      by exists (S k).
    + destruct Hout3 as [-> _]. by exists 0%nat.
    + destruct Hout3 as (_ & Hd & -> & ->).
      destruct (IH (Z.min (d * 2) 120) sir (final (spot_except api c n a d sir e1 s1)))
        as (k & -> & _).
      by exists (S k).
    + destruct Hout3 as [-> _]. by exists 0%nat.
Qed.

(** The loop never touches the store of config objects. *)
Lemma spot_loop_heap c lp n attempts :
  ∀ d sir s, heap (final (spot_loop api c lp n attempts d sir s)) = heap s.
Proof.
  induction attempts as [|a rest IH]; intros d sir s; [done|].
  spot_loop_cases c lp n a d sir s; rewrite ?IH; congruence.
Qed.


(** Once attempt number [n] of [n] has failed with [e], the loop has raised
    the exception that names [n] and [e]. *)
Lemma spot_loop_failures c lp n attempts :
  ∀ d sir s nm e,
    (n, nm, e) ∈ failures (events (spot_loop api c lp n attempts d sir s)) →
    nm = name c ∧
    outcome (spot_loop api c lp n attempts d sir s)
    = Raise (all_attempts_failed n (name c) e).
Proof.
  induction attempts as [|a rest IH]; intros d sir s nm e.
  - intros H. by apply elem_of_nil in H.
  - spot_loop_cases c lp n a d sir s;
      rewrite ?failures_app, ?Hfl1, ?Hfl2, ?Hfl3; simpl.
    + intros H. by apply elem_of_nil in H.
    + destruct Hout3 as (Hne & _).
      intros [H|H]%elem_of_cons; [injection H as Hn _ _; lia|].
      by apply IH in H.
    + destruct Hout3 as (_ & Hlast).
      intros H%list_elem_of_singleton. injection H as Hn -> ->.
      split; [done|]. rewrite Hlast; [done|lia].
    + destruct Hout3 as (Hne & _).
      intros [H|H]%elem_of_cons; [injection H as Hn _ _; lia|].
      by apply IH in H.
    + destruct Hout3 as (_ & Hlast).
      intros H%list_elem_of_singleton. injection H as Hn -> ->.
      split; [done|]. rewrite Hlast; [done|lia].
Qed.

(** A result returned from inside the loop is a success under the config's name. *)
Lemma spot_loop_result c lp n attempts :
  ∀ d sir s r,
    outcome (spot_loop api c lp n attempts d sir s) = Ok (Some r) →
    r_status r = "success" ∧ r_name r = name c.
Proof.
  induction attempts as [|a rest IH]; intros d sir s r0; [done|].
  spot_loop_cases c lp n a d sir s; try done; try apply IH.
  intros [= <-]. destruct (Hok2 r) as (? & ? & _); done.
Qed.

(** The loop falls off its end only if its last attempt is not the one
    numbered [n - 1]. *)
Lemma spot_loop_not_None c lp n attempts :
  ∀ d sir s,
    last attempts = Some (n - 1) →
    outcome (spot_loop api c lp n attempts d sir s) ≠ Ok None.
Proof.
  induction attempts as [|a rest IH]; intros d sir s Hlast; [done|].
  destruct rest as [|b rest].
  - injection Hlast as ->.
    spot_loop_cases c lp n (n - 1) d sir s; try done;
      destruct Hout3 as (Hne & _); done.
  - spot_loop_cases c lp n a d sir s; try done; by apply IH.
Qed.

(** What [_set_defaults] does, in one equation: the copy is a fresh object
    holding the defaulted config; the clock is read only for a missing name. *)
Lemma set_defaults_run s l c :
  heap s !! l = Some c →
  _set_defaults api l s =
    (Ok (fresh (dom (heap s))),
     {| world := if truthy (name c) then world s else (time_time api (world s)).2;
        heap := <[fresh (dom (heap s)) := defaulted (time_time api (world s)).1 c]>
                  (heap s) |},
     []).
Proof.
  intros Hl. unfold _set_defaults, deepcopy, assign, load, bind, clock, ret.
  simpl. rewrite Hl. simpl. rewrite lookup_insert_eq.
  unfold defaulted.
  destruct (time_time api (world s)) as [t w] eqn:Ht.
  repeat first
    [ rewrite lookup_insert_eq | rewrite insert_insert_eq | rewrite Ht
    | progress simpl
    | match goal with
      | |- context [truthy ?x] => destruct (truthy x) eqn:?
      | |- context [truthy_seq ?x] => destruct (truthy_seq x) eqn:?
      end ]; done.
Qed.

Lemma defaulted_spot t c :
  spot_instance (defaulted t c) = spot_instance c ∧
  spot_max_retries (defaulted t c) = spot_max_retries c ∧
  spot_retry_delay (defaulted t c) = spot_retry_delay c.
Proof.
  unfold defaulted.
  repeat match goal with
         | |- context [if ?b then _ else _] => destruct b
         end; done.
Qed.

(** On a config whose name, image and tags are all truthy, defaulting
    changes nothing. *)
Lemma defaulted_id t c :
  truthy (name c) = true → truthy (image_id c) = true →
  truthy_seq (tags c) = true → defaulted t c = c.
Proof. unfold defaulted. by intros -> -> ->. Qed.

Lemma length_range n : length (range n) = Z.to_nat n.
Proof. unfold range. by rewrite length_map, length_seq. Qed.

Lemma range_nonpos n : n ≤ 0 → range n = [].
Proof. intros Hn. unfold range. by replace (Z.to_nat n) with 0%nat by lia. Qed.

Lemma last_range n : 1 ≤ n → last (range n) = Some (n - 1).
Proof.
  intros Hn. unfold range.
  replace (Z.to_nat n) with (S (Z.to_nat (n - 1))) by lia.
  rewrite seq_S, map_app. cbn [map]. rewrite last_snoc. f_equal. lia.
Qed.

Lemma launch_of_heap c' s : heap (final (launch_of api c' s)) = heap s.
Proof.
  unfold launch_of. destruct (spot_instance c').
  - apply spot_loop_heap.
  - assert (obeys plain
      (let* result := _launch_on_demand_instance api c' (launch_params_of api c') in
       ret (Some result))) as H.
    { apply obeys_bind; [apply on_demand_plain | intros; apply obeys_ret]. }
    apply H.
Qed.

Lemma provision_try_run s l' c' :
  heap s !! l' = Some c' →
  provision_try api l' s =
    (outcome (launch_of api c' s), final (launch_of api c' s),
     EvLog INFO (MsgStarting (name c')) :: events (launch_of api c' s)).
Proof.
  intros Hl'.
  change (provision_try api l')
    with (let* c := load l' in log INFO (MsgStarting (name c));; launch_of api c).
  unfold bind, load, log, emit, outcome, final, events. rewrite Hl'.
  by destruct (launch_of api c' s) as [[r s1] ev1].
Qed.

Lemma provision_except_run s l' c' e :
  heap s !! l' = Some c' →
  provision_except l' e s =
    (Ok (Some (failed_result (name c') e)), s,
     [EvLog ERROR (MsgProvisionFailed (name c') e)]).
Proof.
  intros Hl'. unfold provision_except, bind, load, log, emit, ret.
  by rewrite Hl'.
Qed.

(** [provision_instance] in one equation: the outcome of the launch on the
    defaulted config, with an exception turned into a failed result. *)
Lemma provision_instance_run s l c :
  heap s !! l = Some c →
  let c' := defaulted (time_time api (world s)).1 c in
  let y := launch_of api c' (final (_set_defaults api l s)) in
  provision_instance api l s =
    match outcome y with
    | Ok res => (Ok res, final y, EvLog INFO (MsgStarting (name c')) :: events y)
    | Raise e =>
        (Ok (Some (failed_result (name c') e)), final y,
         EvLog INFO (MsgStarting (name c')) :: events y
         ++ [EvLog ERROR (MsgProvisionFailed (name c') e)])
    end.
Proof.
  intros Hl c' y. subst y.
  unfold provision_instance. unfold bind at 1, try_ at 1.
  rewrite (set_defaults_run s l c Hl). fold c'. cbn [final fst snd].
  set (l' := fresh (dom (heap s))).
  set (s0 := {| world := _; heap := _ |}).
  assert (heap s0 !! l' = Some c') as Hl' by apply lookup_insert_eq.
  pose proof (launch_of_heap c' s0) as Hheap.
  unfold bind, try_. rewrite (provision_try_run s0 l' c' Hl').
  destruct (launch_of api c' s0) as [[[res|e] s1] ev1];
    cbn [outcome final events fst snd] in *.
  - unfold ret. simpl. by rewrite app_nil_r.
  - rewrite (provision_except_run s1 l' c' e) by congruence. done.
Qed.

Lemma length_backoff_seq k : ∀ d, length (backoff_seq d k) = k.
Proof. induction k as [|k IH]; intros d; simpl; [done | by rewrite IH]. Qed.

Lemma backoff_seq_bounds k :
  ∀ d, 0 ≤ d ≤ 120 → Forall (λ x, d ≤ x ∧ x ≤ 120) (backoff_seq d k).
Proof.
  induction k as [|k IH]; intros d Hd; simpl; constructor; [lia|].
  eapply Forall_impl; [apply IH; lia|]. intros x Hx; simpl in Hx. lia.
Qed.

Lemma backoff_seq_sorted k :
  ∀ d, 0 ≤ d ≤ 120 → StronglySorted Z.le (backoff_seq d k).
Proof.
  induction k as [|k IH]; intros d Hd; simpl; constructor.
  - apply IH. lia.
  - eapply Forall_impl; [apply backoff_seq_bounds; lia|].
    intros x Hx; simpl in Hx. lia.
Qed.

(** C4 (as amended).  Within one spot acquisition whose configured initial
    retry delay is at most 120, the delays actually slept are non-decreasing,
    start from the configured delay and double at each attempt under the cap
    [min(retry_delay * 2, 120)], and are bounded above by 120. *)
Theorem backoff_within_cap (c : EC2InstanceConfig) (lp : LaunchParams) (s : St W) :
  spot_retry_delay c ≤ 120 →
  backoff_ok (spot_retry_delay c)
             (sleeps (events (_launch_spot_instance api c lp s))).
Proof.
  intros Hd. unfold _launch_spot_instance; cbn zeta.
  destruct (spot_loop_sleeps c lp (spot_max_retries c) (range (spot_max_retries c))
              (spot_retry_delay c) None s) as (k & -> & Hpos).
  unfold backoff_ok. rewrite length_backoff_seq.
  destruct k as [|k]; [repeat split; constructor|].
  assert (0 ≤ spot_retry_delay c ≤ 120) as Hd' by (split; [by apply Hpos | done]).
  repeat split.
  - by apply backoff_seq_sorted.
  - eapply Forall_impl; [by apply backoff_seq_bounds|].
    intros x Hx; simpl in Hx. lia.
Qed.









(** C8.  [_set_defaults] returns a reference to a new object; the object the
    caller passed in holds the same config afterwards, field for field, and
    so does every other object that existed before the call. *)
Theorem set_defaults_leaves_original (s : St W) (l : Loc) (c : EC2InstanceConfig) :
  heap s !! l = Some c →
  ∃ l', outcome (_set_defaults api l s) = Ok l' ∧
        l' ≠ l ∧
        heap (final (_set_defaults api l s)) !! l = Some c ∧
        ∀ k, k ≠ l' → heap (final (_set_defaults api l s)) !! k = heap s !! k.
Proof.
  intros Hl. rewrite (set_defaults_run s l c Hl).
  exists (fresh (dom (heap s))). cbn [outcome final fst snd heap].
  assert (fresh (dom (heap s)) ≠ l) as Hne.
  { intros Heq. apply (is_fresh (dom (heap s))). rewrite Heq.
    apply elem_of_dom. by exists c. }
  repeat split; [done | by rewrite lookup_insert_ne |].
  intros k Hk. by rewrite lookup_insert_ne.
Qed.

(** C9 (as amended).  On a config whose name and image reference are
    non-empty strings and whose tag dict is non-empty, [_set_defaults] returns
    a copy equal to the input and does not read the clock; applying it again
    to that copy does the same. *)
Theorem set_defaults_fully_specified (s : St W) (l : Loc) (c : EC2InstanceConfig) :
  heap s !! l = Some c →
  truthy (name c) = true →
  truthy (image_id c) = true →
  truthy_seq (tags c) = true →
  ∃ l1, outcome (_set_defaults api l s) = Ok l1 ∧
        heap (final (_set_defaults api l s)) !! l1 = Some c ∧
        world (final (_set_defaults api l s)) = world s ∧
  ∃ l2, outcome (_set_defaults api l1 (final (_set_defaults api l s))) = Ok l2 ∧
        heap (final (_set_defaults api l1 (final (_set_defaults api l s)))) !! l2
        = Some c ∧
        world (final (_set_defaults api l1 (final (_set_defaults api l s))))
        = world s.
Proof.
  intros Hl Hn Hi Ht. rewrite (set_defaults_run s l c Hl).
  rewrite Hn, (defaulted_id _ c Hn Hi Ht). cbn [outcome final fst snd].
  set (l1 := fresh (dom (heap s))).
  exists l1. split; [done|]. cbn [heap world].
  split; [apply lookup_insert_eq|]. split; [done|].
  set (s1 := {| world := world s; heap := <[l1:=c]> (heap s) |}).
  assert (heap s1 !! l1 = Some c) as Hl1 by apply lookup_insert_eq.
  rewrite (set_defaults_run s1 l1 c Hl1).
  rewrite Hn, (defaulted_id _ c Hn Hi Ht). cbn [outcome final fst snd heap world].
  eexists. split; [done|]. split; [apply lookup_insert_eq | done].
Qed.

Lemma spot_try_request_calls c lp n a s :
  spot_calls (events (spot_try_request api c lp n a s)) = [Request].
Proof.
  unfold spot_try_request, bind, log, emit, call, events.
  destruct (truthy (spot_max_price c)); simpl;
    destruct (request_spot_instances _ _ _) as [[sid|e] w]; by simpl.
Qed.

Lemma spot_except_calls c n a d sir e s :
  spot_calls (events (spot_except api c n a d sir e s))
  = match sir with Some sid => [Cancel sid] | None => [] end.
Proof.
  unfold spot_except, bind, try_, log, emit, call, raise, ret, events.
  destruct sir as [sid|]; cbn [fst snd app].
  - destruct (cancel_spot_instance_requests _ _ _) as [[[]|ce] w];
      cbn [fst snd app world heap];
      (destruct (a =? n - 1); [done|]);
      match goal with |- context [sleep d ?s'] =>
        destruct (sleep_cases d s') as [[Hd ->]|[[Hd ->]|[Hd ->]]] end; done.
  - (destruct (a =? n - 1); [done|]);
      match goal with |- context [sleep d ?s'] =>
        destruct (sleep_cases d s') as [[Hd ->]|[[Hd ->]|[Hd ->]]] end; done.
Qed.


(** X8.  An attempt whose request is refused while [locals()] holds no id from an
    earlier attempt issues no cancellation. *)
Theorem refused_first_attempt_not_cancelled
    (c : EC2InstanceConfig) (lp : LaunchParams) (n a : Z) (rest : list Z) (d : Z)
    (s : St W) (e : Exn) :
  outcome (spot_try_request api c lp n a s) = Raise e →
  ∃ tail,
    spot_calls (events (spot_loop api c lp n (a :: rest) d None s))
    = [Request] ++ tail ∧
    (tail = [] ∨
     ∃ d' s', tail = spot_calls (events (spot_loop api c lp n rest d' None s'))).
Proof.
  intros Hreq. rewrite spot_loop_cons. cbn zeta. rewrite Hreq.
  set (s1 := final (spot_try_request _ _ _ _ _ _)).
  pose proof (spot_except_calls c n a d None e s1) as Hc.
  destruct (outcome (spot_except api c n a d None e s1)) as [d'|e'];
    cbn [events snd]; unfold spot_calls in *;
    rewrite !omap_app; fold (spot_calls (events (spot_try_request api c lp n a s)));
    rewrite spot_try_request_calls, Hc.
  - eexists. split; [reflexivity|]. right. by eexists _, _.
  - exists []. split; [done | by left].
Qed.

(** X9.  Where a tag failure is not fatal.  The tagging of a spot instance after its
    launch cannot fail the acquisition: [spot_try_tag] returns the result it
    was given, and a refused [create_tags] call is logged as a warning. *)
Theorem spot_instance_tag_failure_nonfatal
    (c : EC2InstanceConfig) (iid : string) (a : Z) (r : Result) (s : St W) :
  outcome (spot_try_tag api c iid a r s) = Ok r ∧
  ∀ tgs e,
    outcome (_create_tags api c iid s) = Ok tgs →
    (create_tags api [iid] tgs (world (final (_create_tags api c iid s)))).1 = Raise e →
    EvLog WARNING (MsgTagFailed iid e) ∈ events (spot_try_tag api c iid a r s).
Proof.
  unfold spot_try_tag, _create_tags, bind, try_, clock, call, log, emit, ret,
    outcome, final, events.
  destruct (time_strftime api (world s)) as [date w]; simpl.
  destruct (create_tags api _ _ w) as [[[]|e'] w'] eqn:Hct; simpl.
  - split; [done|]. intros tgs e [= <-]. rewrite Hct. done.
  - split; [done|]. intros tgs e [= <-]. rewrite Hct. simpl. intros [= ->].
    set_solver.
Qed.

(** The error boundary of one acquisition.  On an on-demand config, and on a spot
    config with at least one retry, [provision_instance] returns a result
    dict named after the defaulted config, with status 'success', or with
    status 'failed' and the error text. *)
Theorem provision_instance_returns_result
    (s : St W) (l : Loc) (c : EC2InstanceConfig) :
  heap s !! l = Some c →
  retries_positive c →
  ∃ r, outcome (provision_instance api l s) = Ok (Some r) ∧
       r_name r = name (defaulted (time_time api (world s)).1 c) ∧
       (r_status r = "success" ∨
        r_status r = "failed" ∧ ∃ e, r_error r = Some e).
Proof.
  intros Hl Hpos. rewrite (provision_instance_run s l c Hl); cbn zeta.
  set (c' := defaulted _ c). set (s0 := final _).
  destruct (defaulted_spot (time_time api (world s)).1 c) as (Es & En & _).
  fold c' in Es, En.
  destruct (outcome (launch_of api c' s0)) as [res|e] eqn:Hy;
    cbn [outcome fst]; [|by eexists; repeat split; eauto].
  unfold launch_of in Hy. rewrite Es in Hy.
  destruct (spot_instance c) eqn:Hspot.
  - unfold _launch_spot_instance in Hy; cbn zeta in Hy.
    destruct res as [r|].
    + apply spot_loop_result in Hy as [Hst Hnm]. exists r. auto.
    + apply spot_loop_not_None in Hy; [done|].
      rewrite En. apply last_range. by apply Hpos.
  - apply outcome_bind_Ok in Hy as (r & Hr & Hy).
    apply outcome_ret_Ok in Hy as <-.
    apply on_demand_success in Hr as [Hst Hnm]. exists r. auto.
Qed.

(** Without a positive [spot_max_retries] the retry loop of a spot config is
    not entered, and [provision_instance] returns what falls off its end. *)
Lemma provision_instance_falls_through s l c :
  heap s !! l = Some c →
  spot_instance c = true →
  spot_max_retries c ≤ 0 →
  outcome (provision_instance api l s) = Ok None.
Proof.
  intros Hl Hspot Hn. rewrite (provision_instance_run s l c Hl); cbn zeta.
  destruct (defaulted_spot (time_time api (world s)).1 c) as (Es & En & _).
  unfold launch_of, _launch_spot_instance. rewrite Es, Hspot, En.
  cbn zeta. by rewrite (range_nonpos _ Hn).
Qed.

(** C2.  For every API behaviour, a spot config whose [spot_max_retries]
    is not positive makes [provision_instance] return [None]: what it
    returns is not a result dict, so it has neither status 'success' nor
    status 'failed'. *)
Theorem provision_instance_None_without_retries
    (s : St W) (l : Loc) (c : EC2InstanceConfig) :
  heap s !! l = Some c →
  spot_instance c = true →
  spot_max_retries c ≤ 0 →
  outcome (provision_instance api l s) = Ok None ∧
  ¬ ∃ r, outcome (provision_instance api l s) = Ok (Some r) ∧
         (r_status r = "success" ∨ r_status r = "failed").
Proof.
  intros Hl Hspot Hn.
  rewrite (provision_instance_falls_through s l c Hl Hspot Hn).
  split; [done|]. by intros (r & Hr & _).
Qed.

(** [provision_instance] only adds its private copy to the store. *)
Lemma provision_instance_heap s l c :
  heap s !! l = Some c → heap s ⊆ heap (final (provision_instance api l s)).
Proof.
  intros Hl. rewrite (provision_instance_run s l c Hl); cbn zeta.
  set (c' := defaulted _ c).
  pose proof (launch_of_heap c' (final (_set_defaults api l s))) as Hh.
  assert (heap s ⊆ heap (final (_set_defaults api l s))) as Hsub.
  { rewrite (set_defaults_run s l c Hl). cbn [final fst snd heap].
    apply insert_subseteq, not_elem_of_dom, is_fresh. }
  destruct (outcome (launch_of api c' _)); cbn [final fst snd]; by rewrite Hh.
Qed.

(** The completion loop, in one equation: it appends the entries of each
    future in turn, and leaves the state as it found it. *)
Lemma collect_run (cf : list (Loc * Res (option Result))) :
  ∀ results s,
    Forall (λ p, is_Some (heap s !! p.1)) cf →
    outcome (collect cf results s)
    = Ok (results ++ mjoin (entries_of (heap s) <$> cf)) ∧
    final (collect cf results s) = s.
Proof.
  induction cf as [|[l fut] rest IH]; intros results s Hall.
  - cbn. by rewrite app_nil_r.
  - apply Forall_cons in Hall as [[c Hc] Hall]. cbn [fst] in Hc.
    replace (results ++ mjoin (entries_of (heap s) <$> (l, fut) :: rest))
      with ((results ++ entries_of (heap s) (l, fut))
            ++ mjoin (entries_of (heap s) <$> rest))
      by (by rewrite <- app_assoc).
    destruct (IH (results ++ entries_of (heap s) (l, fut)) s Hall) as [<- Hfin].
    assert (∃ evs,
              collect ((l, fut) :: rest) results s =
                (outcome (collect rest (results ++ entries_of (heap s) (l, fut)) s),
                 final (collect rest (results ++ entries_of (heap s) (l, fut)) s),
                 evs ++ events (collect rest
                                  (results ++ entries_of (heap s) (l, fut)) s)))
      as [evs ->]; [|done].
    cbn [collect]. unfold entries_of. cbn [fst snd]. rewrite Hc.
    unfold parallel_except.
    unfold bind, load, log, emit, ret, outcome, final, events.
    destruct fut as [[r|]|e]; rewrite ?Hc; cbn [fst snd].
    + destruct (String.eqb (r_status r) "success"); cbn [fst snd];
        destruct (collect rest (results ++ [Some r]) s) as [[o s2] ev2];
        by eexists.
    + rewrite <- app_assoc. cbn [app].
      match goal with |- context [collect rest ?rs s] =>
        destruct (collect rest rs s) as [[o s2] ev2] end.
      by eexists [_].
    + match goal with |- context [collect rest ?rs s] =>
        destruct (collect rest rs s) as [[o s2] ev2] end.
      by eexists [_].
Qed.

(** [provision_instances_parallel] in one equation. *)
Lemma parallel_run max_workers started completed configs s :
  provision_instances_parallel api max_workers started completed configs s =
    let start := EvLog INFO (MsgStartParallel (length configs)) in
    if max_workers <=? 0
    then (Raise "max_workers must be greater than 0", s, [start])
    else
      let x := submit (provision_instance api) configs started s in
      match outcome x with
      | Raise e => (Raise e, final x, start :: events x)
      | Ok futures =>
          let y := collect (as_completed configs futures completed) []
                     (final x) in
          match outcome y with
          | Raise e => (Raise e, final y, start :: events x ++ events y)
          | Ok results =>
              match count_status "success" results,
                    count_status "failed" results with
              | Ok ns, Ok nf =>
                  (Ok results, final y,
                   start :: events x ++ events y
                   ++ [EvLog INFO (MsgSummary ns nf)])
              | Raise e, _ => (Raise e, final y, start :: events x ++ events y)
              | Ok _, Raise e =>
                  (Raise e, final y, start :: events x ++ events y)
              end
          end
      end.
Proof.
  unfold provision_instances_parallel. unfold bind at 1, log, emit.
  unfold bind at 1. rewrite ThreadPoolExecutor_run.
  destruct (max_workers <=? 0); [done|]. cbn zeta.
  unfold bind, lift_res, ret, raise, outcome, final, events.
  destruct (submit (provision_instance api) configs started s)
    as [[[futures|e] s1] ev1]; cbn [fst snd app]; [|by rewrite ?app_nil_r].
  destruct (collect (as_completed configs futures completed) [] s1)
    as [[[results|e] s2] ev2]; cbn [fst snd app]; [|by rewrite ?app_nil_r].
  destruct (count_status "success" results); cbn [fst snd app];
    [|by rewrite ?app_nil_r].
  destruct (count_status "failed" results); cbn [fst snd app];
    by rewrite ?app_nil_r.
Qed.

(** What the pool leaves when every submitted config is in the store: a
    future for each of them, holding the outcome of its task, and a store
    that has only grown. *)
Lemma parallel_futures configs started completed s :
  started ≡ₚ seq 0 (length configs) →
  (∀ l, l ∈ configs → is_Some (heap s !! l)) →
  ∃ futures,
    outcome (submit (provision_instance api) configs started s) = Ok futures ∧
    heap s ⊆ heap (final (submit (provision_instance api) configs started s)) ∧
    (as_completed configs futures completed).*1 = picked configs completed ∧
    Forall (future_of api (heap s)) (as_completed configs futures completed).
Proof.
  intros Hstart Hall.
  destruct (submit_spec (provision_instance api) (λ s', heap s ⊆ heap s')
              (λ l r, future_of api (heap s) (l, r)) configs) with started s
    as (futures & Hout & Hsub & Hdom & Hval).
  { intros l s' Hl Hs'. destruct (Hall l Hl) as [c Hc].
    assert (heap s' !! l = Some c) as Hc' by by eapply lookup_weaken.
    split; [|by exists c, s'].
    etrans; [done|]. by eapply provision_instance_heap. }
  { done. }
  exists futures. split; [done|]. split; [done|]. split.
  - apply as_completed_fst. intros i _ Hi. apply Hdom. split; [|done].
    apply (schedule_elem _ _ _ Hstart). by apply lookup_lt_is_Some.
  - apply Forall_forall. intros [l r] (i & _ & Hl & Hr)%elem_of_as_completed.
    destruct (Hval i r Hr) as (l' & Hl' & HQ). by simplify_eq.
Qed.

Lemma entries_single h' (P : Loc → option Result → Prop)
    (cf : list (Loc * Res (option Result))) :
  Forall (λ p, ∃ r, entries_of h' p = [Some r] ∧ P p.1 (Some r)) cf →
  Forall2 P cf.*1 (mjoin (entries_of h' <$> cf)).
Proof.
  induction 1 as [|p rest (r & Hent & HP) _ IH]; [constructor|].
  cbn [fmap list_fmap mjoin list_join]. rewrite Hent. by constructor.
Qed.

Lemma count_status_total status (results : list (option Result)) :
  Forall is_Some results → ∃ n, count_status status results = Ok n.
Proof.
  induction 1 as [|r results [r' ->] _ [n IH]]; simpl; [by eexists|].
  rewrite IH. by eexists.
Qed.

(** X14.  One result per config.  On a provisioner with at least one worker,
    when every spot config submitted has at least one retry,
    [provision_instances_parallel] returns exactly one result dict per
    submitted config, in completion order, each named after its (defaulted)
    config, whatever the API does and however the pool schedules the tasks.
    With [max_workers] not positive the pool constructor raises and no list
    is returned. *)
Theorem parallel_one_result_per_config
    (max_workers : Z) (configs : list Loc) (started completed : list nat)
    (s : St W) :
  started ≡ₚ seq 0 (length configs) →
  completed ≡ₚ seq 0 (length configs) →
  (∀ l, l ∈ configs → ∃ c, heap s !! l = Some c ∧ retries_positive c) →
  (1 ≤ max_workers →
   ∃ results,
     outcome (provision_instances_parallel api max_workers started completed
                configs s) = Ok results ∧
     length results = length configs ∧
     Forall2 (result_for (heap s)) (picked configs completed) results) ∧
  (max_workers ≤ 0 →
   outcome (provision_instances_parallel api max_workers started completed
              configs s) = Raise "max_workers must be greater than 0").
Proof.
  intros Hstart Hcompl Hall. rewrite parallel_run; cbn zeta. split.
  - intros Hmw. destruct (Z.leb_spec max_workers 0); [lia|].
    destruct (parallel_futures configs started completed s Hstart)
      as (futures & -> & Hsub & Hfst & Hfut).
    { intros l Hl. destruct (Hall l Hl) as (c & Hc & _). eauto. }
    set (cf := as_completed configs futures completed) in *.
    set (s1 := final _) in *.
    destruct (collect_run cf [] s1) as [Hout _].
    { eapply Forall_impl; [exact Hfut|]. intros p (c & s' & Hc & _).
      exists c. by eapply lookup_weaken. }
    rewrite Hout. cbn [app].
    assert (Forall2 (result_for (heap s)) cf.*1
              (mjoin (entries_of (heap s1) <$> cf))) as Hfor.
    { apply entries_single. apply Forall_forall. intros [l fut] Hin.
      rewrite Forall_forall in Hfut.
      destruct (Hfut _ Hin) as (c & s' & Hc & Hs' & Hr). cbn [fst snd] in *.
      destruct (Hall l) as (c' & Hc' & Hpos);
        [apply (as_completed_submitted _ _ _ _ Hin)|].
      assert (c' = c) as -> by congruence.
      assert (heap s' !! l = Some c) as Hl' by by eapply lookup_weaken.
      destruct (provision_instance_returns_result s' l c Hl' Hpos)
        as (r & Hr' & Hnm & Hst).
      exists r. unfold entries_of. cbn [fst snd]. rewrite Hr, Hr'.
      split; [done|].
      exists c, r, (time_time api (world s')).1. repeat split; [done..|].
      destruct Hst as [?|[? _]]; auto. }
    set (results := mjoin _) in *.
    assert (Forall is_Some results) as Hsome.
    { clear -Hfor. induction Hfor as [|l r ls rs (c & res & t & _ & -> & _) _ IH];
        constructor; eauto. }
    destruct (count_status_total "success" results Hsome) as [n1 ->].
    destruct (count_status_total "failed" results Hsome) as [n2 ->].
    exists results. cbn [outcome fst]. split; [done|]. split.
    + rewrite <- (Forall2_length _ _ _ Hfor), Hfst.
      by rewrite (picked_perm _ _ Hcompl).
    + by rewrite <- Hfst.
  - intros Hmw. destruct (Z.leb_spec max_workers 0); [done | lia].
Qed.

(** With its config object in the store, [provision_instance] returns: no
    exception leaves it. *)
Lemma provision_instance_total s l c :
  heap s !! l = Some c → ∃ res, outcome (provision_instance api l s) = Ok res.
Proof.
  intros Hl. rewrite (provision_instance_run s l c Hl); cbn zeta.
  destruct (outcome (launch_of api _ _)); by eexists.
Qed.

Lemma count_status_None status (results : list (option Result)) :
  None ∈ results →
  count_status status results = Raise "'NoneType' object is not subscriptable".
Proof.
  induction results as [|[r|] results IH]; simpl.
  - intros H. by apply elem_of_nil in H.
  - intros [H|H]%elem_of_cons; [done|]. by rewrite IH.
  - done.
Qed.

(** C1.  Whatever the API does and however the pool schedules the tasks, one
    spot config with a non-positive [spot_max_retries] among the submitted
    configs makes [provision_instances_parallel] raise instead of returning
    a list of results: the task of that config returns [None], which is
    appended to the results and breaks the summary with a [TypeError] (on a
    provisioner whose [max_workers] is not positive, the pool constructor
    has raised [ValueError] before that). *)
Theorem parallel_raises_without_retries
    (max_workers : Z) (configs : list Loc) (started completed : list nat)
    (s : St W) (l : Loc) (c : EC2InstanceConfig) :
  started ≡ₚ seq 0 (length configs) →
  completed ≡ₚ seq 0 (length configs) →
  (∀ k, k ∈ configs → is_Some (heap s !! k)) →
  l ∈ configs →
  heap s !! l = Some c →
  spot_instance c = true →
  spot_max_retries c ≤ 0 →
  outcome (provision_instances_parallel api max_workers started completed
             configs s)
  = Raise (if max_workers <=? 0 then "max_workers must be greater than 0"
           else "'NoneType' object is not subscriptable").
Proof.
  intros Hstart Hcompl Hall Hl Hc Hspot Hn. rewrite parallel_run; cbn zeta.
  destruct (max_workers <=? 0); [done|].
  destruct (parallel_futures configs started completed s Hstart Hall)
    as (futures & -> & Hsub & Hfst & Hfut).
  set (cf := as_completed configs futures completed) in *.
  set (s1 := final _) in *.
  destruct (collect_run cf [] s1) as [Hout _].
  { eapply Forall_impl; [exact Hfut|]. intros p (c' & s' & Hc' & _).
    exists c'. by eapply lookup_weaken. }
  rewrite Hout. cbn [app].
  assert (None ∈ mjoin (entries_of (heap s1) <$> cf)) as Hnone.
  { assert (l ∈ cf.*1) as Hin.
    { rewrite Hfst. by rewrite (picked_perm _ _ Hcompl). }
    apply list_elem_of_fmap in Hin as ([l' fut] & -> & Hin). cbn [fst] in *.
    rewrite Forall_forall in Hfut.
    destruct (Hfut _ Hin) as (c' & s' & Hc' & Hs' & Hr). cbn [fst snd] in *.
    assert (c' = c) as -> by congruence.
    assert (heap s' !! l' = Some c) as Hl' by by eapply lookup_weaken.
    rewrite (provision_instance_falls_through s' l' c Hl' Hspot Hn) in Hr.
    apply list_elem_of_join. eexists. split; [|apply list_elem_of_fmap; eauto].
    unfold entries_of. cbn [fst snd]. rewrite Hr. by left. }
  by rewrite (count_status_None "success" _ Hnone).
Qed.

(** C5.  An attempt obtains a spot request id and fails, the handler cancels
    the request and lets the loop go on; the request of the next attempt is
    refused, so that attempt obtains no id.  The handler still finds
    [spot_request_id] in [locals()] and issues a second cancellation for the
    id of the earlier attempt. *)
Theorem stale_request_cancelled_again
    (c : EC2InstanceConfig) (lp : LaunchParams) (n a1 a2 : Z) (rest : list Z)
    (d d' : Z) (s : St W) (sid : string) (e1 e2 : Exn) :
  let s1 := final (spot_try_request api c lp n a1 s) in
  let s2 := final (spot_try_fulfil api c sid a1 s1) in
  let s3 := final (spot_except api c n a1 d (Some sid) e1 s2) in
  outcome (spot_try_request api c lp n a1 s) = Ok sid →
  outcome (spot_try_fulfil api c sid a1 s1) = Raise e1 →
  outcome (spot_except api c n a1 d (Some sid) e1 s2) = Ok d' →
  outcome (spot_try_request api c lp n a2 s3) = Raise e2 →
  ∃ tail,
    spot_calls (events (spot_loop api c lp n (a1 :: a2 :: rest) d None s))
    = [Request; Await sid; Cancel sid; Request; Cancel sid] ++ tail.
Proof.
  intros s1 s2 s3 Hreq1 Hful1 Hex1 Hreq2.
  rewrite spot_loop_cons. cbn zeta. fold s1. rewrite Hreq1.
  fold s2. rewrite Hful1. fold s3. rewrite Hex1.
  rewrite (spot_loop_cons c lp n a2 rest d' (Some sid) s3). cbn zeta.
  rewrite Hreq2.
  set (s4 := final (spot_try_request api c lp n a2 s3)).
  pose proof (spot_except_calls c n a1 d (Some sid) e1 s2) as Hc1.
  pose proof (spot_except_calls c n a2 d' (Some sid) e2 s4) as Hc2.
  pose proof (spot_try_request_calls c lp n a1 s) as Hr1.
  pose proof (spot_try_request_calls c lp n a2 s3) as Hr2.
  pose proof (spot_try_fulfil_calls c sid a1 s1) as Hf1.
  unfold spot_calls in *.
  destruct (outcome (spot_except api c n a2 d' (Some sid) e2 s4)) as [d''|e'];
    cbn [events snd]; rewrite !omap_app, Hr1, Hf1, Hc1, Hr2, Hc2.
  - by eexists.
  - exists []. done.
Qed.

(** [terminate_instance] in one equation: it always returns a boolean,
    [False] exactly when the termination call raised, which is then logged
    as an error. *)
Lemma terminate_instance_run iid s :
  terminate_instance api iid s =
    match (terminate_instances api iid (world s)).1 with
    | Ok _ =>
        (Ok true,
         {| world := (terminate_instances api iid (world s)).2; heap := heap s |},
         [EvLog INFO (MsgTerminating iid); EvTerminate iid])
    | Raise e =>
        (Ok false,
         {| world := (terminate_instances api iid (world s)).2; heap := heap s |},
         [EvLog INFO (MsgTerminating iid); EvTerminate iid;
          EvLog ERROR (MsgTerminateFailed iid e)])
    end.
Proof.
  unfold terminate_instance, bind, try_, log, emit, call, ret.
  by destruct (terminate_instances api iid (world s)) as [[[]|e] w].
Qed.

Lemma terminations_fst (ids : list string) :
  ∀ w : W, (terminations api ids w).*1 = ids.
Proof.
  induction ids as [|iid rest IH]; intros w; [done|].
  cbn [terminations]. destruct (terminate_instances api iid w) as [r w'].
  cbn [fmap list_fmap fst]. f_equal. apply IH.
Qed.

(** What the pool leaves of a cleanup: one termination call for each started
    position of the submitted list, in the order the calls were run, and in
    each future whether the API let the call return. *)
Lemma cleanup_submit (ids : list string) (started : list nat) :
  ∀ s,
    ∃ futures,
      outcome (submit (terminate_instance api) ids started s) = Ok futures ∧
      api_calls (events (submit (terminate_instance api) ids started s))
      = map EvTerminate (picked ids started) ∧
      (∀ iid, iid ∈ terminate_failures
                      (events (submit (terminate_instance api) ids started s))
              ↔ (iid, false) ∈ terminations api (picked ids started) (world s)) ∧
      (∀ i, is_Some (futures !! i) ↔ i ∈ started ∧ is_Some (ids !! i)) ∧
      (∀ i r, futures !! i = Some r → ∃ b, r = Ok b) ∧
      (NoDup ids → NoDup started →
       ∀ i iid b, ids !! i = Some iid →
                  futures !! i = Some (Ok b)
                  ↔ (iid, b) ∈ terminations api (picked ids started) (world s)).
Proof.
  induction started as [|i rest IH]; intros s.
  - exists ∅. split; [done|]. split; [done|]. split.
    { intros iid. split; intros H; by apply elem_of_nil in H. }
    split.
    { intros i. rewrite lookup_empty. split; [by intros [? ?]|].
      intros [H _]. by apply elem_of_nil in H. }
    split; [intros i r; by rewrite lookup_empty|].
    intros _ _ i iid b _. rewrite lookup_empty. split; [done|].
    intros H. by apply elem_of_nil in H.
  - destruct (ids !! i) as [x|] eqn:Hi.
    + rewrite (submit_cons _ _ _ _ _ _ Hi). cbn zeta.
      assert (picked ids (i :: rest) = x :: picked ids rest) as ->.
      { unfold picked. cbn [omap list_omap]. by rewrite Hi. }
      cbn [terminations]. rewrite (terminate_instance_run x s).
      destruct (terminate_instances api x (world s)) as [answer w'] eqn:Hans.
      cbn [fst snd].
      set (b0 := match answer with Ok _ => true | Raise _ => false end).
      set (s1 := {| world := w'; heap := heap s |}).
      assert (∃ ev0,
                (match answer with
                 | Ok _ =>
                     (Ok true, s1,
                      [EvLog INFO (MsgTerminating x); EvTerminate x])
                 | Raise e =>
                     (Ok false, s1,
                      [EvLog INFO (MsgTerminating x); EvTerminate x;
                       EvLog ERROR (MsgTerminateFailed x e)])
                 end) = (Ok b0, s1, ev0) ∧
                api_calls ev0 = [EvTerminate x] ∧
                terminate_failures ev0 = if b0 then [] else [x])
        as (ev0 & -> & Hcall0 & Hfail0).
      { subst b0. destruct answer as [[]|e]; by eexists. }
      cbn [outcome final events fst snd].
      destruct (IH s1) as (futures & Hout & Hcalls & Hfail & Hdom & Hok & Hans').
      change (world s1) with w' in *.
      rewrite Hout. cbn [outcome events fst snd].
      exists (<[i := Ok b0]> futures). split; [done|]. split.
      { unfold api_calls in *. rewrite List.filter_app, Hcall0, Hcalls. done. }
      split.
      { intros iid. unfold terminate_failures in *. rewrite omap_app, Hfail0.
        rewrite elem_of_app, Hfail, elem_of_cons.
        destruct b0; [set_solver|]. rewrite list_elem_of_singleton.
        split; [intros [->|?]; auto | intros [[= ->]|?]; auto]. }
      split.
      { intros j. destruct (decide (j = i)) as [->|Hne].
        - rewrite lookup_insert_eq. split; [|by eauto].
          intros _. split; [by left | by eauto].
        - rewrite lookup_insert_ne by done. rewrite Hdom. set_solver. }
      split.
      { intros j r. destruct (decide (j = i)) as [->|Hne].
        - rewrite lookup_insert_eq. intros [= <-]. eauto.
        - rewrite lookup_insert_ne by done. apply Hok. }
      intros Hnd [Hi' Hnd']%NoDup_cons j iid b Hj.
      destruct (decide (j = i)) as [->|Hne].
      * assert (iid = x) as -> by congruence.
        rewrite lookup_insert_eq, elem_of_cons. split.
        -- intros [= ->]. by left.
        -- intros [[= ->]|Hin]; [done|]. exfalso. apply Hi'.
           assert (x ∈ picked ids rest) as Hx.
           { rewrite <- (terminations_fst (picked ids rest) w').
             apply list_elem_of_fmap. by exists (x, b). }
           apply elem_of_picked in Hx as (k & Hk & Hx).
           by rewrite (NoDup_lookup ids i k x Hnd Hi Hx).
      * rewrite lookup_insert_ne by done.
        rewrite (Hans' Hnd Hnd' j iid b Hj), elem_of_cons. split; [by right|].
        intros [[= -> _]|Hin]; [|done]. destruct Hne.
        by apply (NoDup_lookup ids j i x Hnd).
    + cbn [submit]. rewrite Hi.
      assert (picked ids (i :: rest) = picked ids rest) as ->.
      { unfold picked. cbn [omap list_omap]. by rewrite Hi. }
      destruct (IH s) as (futures & Hout & Hcalls & Hfail & Hdom & Hok & Hans).
      exists futures. split; [done|]. split; [done|]. split; [done|].
      split.
      { intros j. rewrite Hdom. split; [set_solver|].
        intros [[->|Hj]%elem_of_cons Hsome]; [|done].
        rewrite Hi in Hsome. by destruct Hsome. }
      split; [done|].
      intros Hnd [_ Hnd']%NoDup_cons. by apply Hans.
Qed.

(** The dict built by the completion loop of [cleanup_instances] from futures
    that all returned: no event, and each identifier mapped to what its
    future holds. *)
Lemma cleanup_collect_run (cf : list (string * Res bool)) :
  ∀ (results : gmap string bool) s,
    Forall (λ p, ∃ b, p.2 = Ok b) cf →
    ∃ m, cleanup_collect cf results s = (Ok m, s, []) ∧
         dom m = dom results ∪ list_to_set cf.*1 ∧
         (∀ iid, iid ∉ cf.*1 → m !! iid = results !! iid) ∧
         (NoDup cf.*1 → ∀ iid b, (iid, Ok b) ∈ cf → m !! iid = Some b).
Proof.
  induction cf as [|[x fut] rest IH]; intros results s Hall.
  - exists results. split; [done|]. split; [set_solver|]. split; [done|].
    intros _ iid b H. by apply elem_of_nil in H.
  - apply Forall_cons in Hall as [[b0 Hb0] Hall]. cbn [snd] in Hb0. subst fut.
    destruct (IH (<[x := b0]> results) s Hall) as (m & Hm & Hdom & Hout & Hin).
    exists m. cbn [cleanup_collect]. split; [done|]. split.
    { rewrite Hdom, dom_insert_L. cbn [fmap list_fmap fst]. set_solver. }
    split.
    { intros iid Hiid. cbn [fmap list_fmap fst] in Hiid.
      rewrite Hout by set_solver. apply lookup_insert_ne. set_solver. }
    cbn [fmap list_fmap fst].
    intros [Hx Hnd]%NoDup_cons iid b [[= -> ->]|Hiid]%elem_of_cons.
    + by rewrite (Hout _ Hx), lookup_insert_eq.
    + by apply Hin.
Qed.

(** [cleanup_instances] in one equation. *)
Lemma cleanup_instances_run max_workers started completed ids s :
  cleanup_instances api max_workers started completed ids s =
    let start := EvLog INFO (MsgStartCleanup (length ids)) in
    if max_workers <=? 0
    then (Raise "max_workers must be greater than 0", s, [start])
    else
      let x := submit (terminate_instance api) ids started s in
      match outcome x with
      | Raise e => (Raise e, final x, start :: events x)
      | Ok futures =>
          let y := cleanup_collect (as_completed ids futures completed) ∅
                     (final x) in
          (outcome y, final y, start :: events x ++ events y)
      end.
Proof.
  unfold cleanup_instances. unfold bind at 1, log, emit.
  unfold bind at 1. rewrite ThreadPoolExecutor_run.
  destruct (max_workers <=? 0); [done|]. cbn zeta.
  unfold bind, outcome, final, events.
  destruct (submit (terminate_instance api) ids started s)
    as [[[futures|e] s1] ev1]; cbn [fst snd app]; [|done].
  by destruct (cleanup_collect (as_completed ids futures completed) ∅ s1)
    as [[r s2] ev2].
Qed.

(** A cleanup on a provisioner with at least one worker, put together: the
    dict it returns, the calls it has made and the failures it has logged,
    against the answers of the API to the calls in the order they were
    run. *)
Lemma cleanup_instances_spec max_workers started completed ids s :
  1 ≤ max_workers →
  started ≡ₚ seq 0 (length ids) →
  completed ≡ₚ seq 0 (length ids) →
  ∃ m : gmap string bool,
    outcome (cleanup_instances api max_workers started completed ids s) = Ok m ∧
    dom m = list_to_set ids ∧
    api_calls (events (cleanup_instances api max_workers started completed ids s))
    = map EvTerminate (picked ids started) ∧
    (∀ iid, iid ∈ terminate_failures
                    (events (cleanup_instances api max_workers started
                               completed ids s))
            ↔ (iid, false) ∈ terminations api (picked ids started) (world s)) ∧
    (NoDup ids →
     ∀ iid b, m !! iid = Some b
              ↔ (iid, b) ∈ terminations api (picked ids started) (world s)).
Proof.
  intros Hmw Hstart Hcompl. rewrite cleanup_instances_run; cbn zeta.
  destruct (Z.leb_spec max_workers 0); [lia|].
  destruct (cleanup_submit ids started s)
    as (futures & Hout & Hcalls & Hfail & Hdom & Hok & Hans).
  rewrite Hout.
  set (x := submit (terminate_instance api) ids started s) in *.
  set (cf := as_completed ids futures completed).
  assert (cf.*1 = picked ids completed) as Hfst.
  { apply as_completed_fst. intros i _ Hi. apply Hdom. split; [|done].
    apply (schedule_elem _ _ _ Hstart). by apply lookup_lt_is_Some. }
  assert (cf.*1 ≡ₚ ids) as Hperm by (rewrite Hfst; by apply picked_perm).
  assert (Forall (λ p, ∃ b, p.2 = Ok b) cf) as Hall.
  { apply Forall_forall. intros [iid r] (i & _ & _ & Hr)%elem_of_as_completed.
    by apply (Hok i). }
  destruct (cleanup_collect_run cf ∅ (final x) Hall) as (m & Hm & Hdomm & _ & Hin).
  rewrite dom_empty_L, (left_id_L ∅ (∪)) in Hdomm.
  rewrite (list_to_set_perm_L _ _ Hperm) in Hdomm.
  rewrite Hm. cbn [outcome events fst snd]. rewrite app_nil_r.
  exists m. split; [done|]. split; [done|]. split; [done|]. split.
  { intros iid. rewrite <- Hfail. unfold terminate_failures. done. }
  intros Hnd iid b.
  assert (NoDup cf.*1) as Hnd' by by rewrite Hperm.
  assert (∀ i iid', ids !! i = Some iid' → i ∈ completed) as Hdone.
  { intros i iid' Hi. apply (schedule_elem _ _ _ Hcompl).
    apply lookup_lt_is_Some. eauto. }
  split.
  - intros Hb.
    assert (iid ∈ cf.*1) as Hiid.
    { rewrite Hperm. apply (elem_of_list_to_set (C:=gset string)).
      rewrite <- Hdomm. apply elem_of_dom. eauto. }
    apply list_elem_of_fmap in Hiid as ([iid' r] & -> & Hp). cbn [fst] in *.
    rewrite Forall_forall in Hall. destruct (Hall _ Hp) as [b' Hb'].
    cbn [snd] in Hb'. subst r.
    assert (b' = b) as -> by (pose proof (Hin Hnd' _ _ Hp); congruence).
    apply elem_of_as_completed in Hp as (i & _ & Hi & Hr).
    by apply (Hans Hnd (schedule_NoDup _ _ Hstart) i).
  - intros Hb.
    assert (iid ∈ picked ids started) as Hiid.
    { rewrite <- (terminations_fst (picked ids started) (world s)).
      apply list_elem_of_fmap. by exists (iid, b). }
    apply elem_of_picked in Hiid as (i & _ & Hi).
    apply (Hans Hnd (schedule_NoDup _ _ Hstart) i iid b Hi) in Hb.
    apply (Hin Hnd'). apply elem_of_as_completed. exists i. eauto.
Qed.


Lemma remove_dups_shorter (ids : list string) :
  ¬ NoDup ids → (length (remove_dups ids) < length ids)%nat.
Proof.
  intros Hdup.
  assert (remove_dups ids ⊆+ ids) as Hsub.
  { apply NoDup_submseteq; [apply NoDup_remove_dups|].
    intros x. by rewrite elem_of_remove_dups. }
  destruct (decide (length ids ≤ length (remove_dups ids))%nat) as [Hle|Hgt];
    [|lia].
  destruct Hdup. rewrite <- (submseteq_length_Permutation _ _ Hsub Hle).
  apply NoDup_remove_dups.
Qed.

(** C10.  For any list of identifiers, duplicates included, the dict that
    [cleanup_instances] returns has the distinct identifiers of the list as
    its keys; with a duplicate in the list the dict has fewer entries than
    the list has elements.  On a provisioner with at least one worker it
    does return a dict. *)
Theorem cleanup_one_entry_per_distinct
    (max_workers : Z) (ids : list string) (started completed : list nat)
    (s : St W) :
  started ≡ₚ seq 0 (length ids) →
  completed ≡ₚ seq 0 (length ids) →
  (1 ≤ max_workers →
   ∃ m : gmap string bool,
     outcome (cleanup_instances api max_workers started completed ids s) = Ok m) ∧
  ∀ m : gmap string bool,
    outcome (cleanup_instances api max_workers started completed ids s) = Ok m →
    dom m = list_to_set ids ∧
    size m = length (remove_dups ids) ∧
    (¬ NoDup ids → (size m < length ids)%nat).
Proof.
  intros Hstart Hcompl. split.
  - intros Hmw.
    destruct (cleanup_instances_spec max_workers started completed ids s
                Hmw Hstart Hcompl) as (m & Hm & _).
    by exists m.
  - intros m Hm.
    assert (1 ≤ max_workers) as Hmw.
    { rewrite cleanup_instances_run in Hm; cbn zeta in Hm.
      destruct (Z.leb_spec max_workers 0); [done | lia]. }
    destruct (cleanup_instances_spec max_workers started completed ids s
                Hmw Hstart Hcompl) as (m' & Hm' & Hdom & _).
    assert (m' = m) as -> by congruence.
    assert (size m = length (remove_dups ids)) as Hsize.
    { rewrite <- (size_dom (D:=gset string)), Hdom.
      rewrite <- (size_list_to_set (C:=gset string) (remove_dups ids))
        by apply NoDup_remove_dups.
      f_equal. apply set_eq. intros x.
      by rewrite !elem_of_list_to_set, elem_of_remove_dups. }
    split; [done|]. split; [done|].
    intros Hdup. rewrite Hsize. by apply remove_dups_shorter.
Qed.

(** ** The on-demand path and what provisioning never calls *)

Lemma benign_plain (e : Event) : benign e → plain e.
Proof. by intros [? _]. Qed.

Lemma benign_spot_only (e : Event) : benign e → spot_only e.
Proof. by intros (_ & ? & ?). Qed.

Lemma benign_events (ev : list Event) :
  Forall benign ev → runs ev = [] ∧ spot_calls ev = [] ∧ sleeps ev = [].
Proof.
  intros H. repeat split; apply omap_nil_Forall;
    (eapply Forall_impl; [exact H|]); by intros e ((?&?&?)&?&?).
Qed.

Lemma events_call {A : Type} (e : Event) (f : W → Res A * W) s :
  events (call e f s) = [e].
Proof. unfold call, events. by destruct (f (world s)). Qed.

Lemma create_tags_benign c iid : obeys benign (_create_tags api c iid).
Proof. unfold _create_tags. obeys_auto. Qed.

Lemma tag_volumes_benign c iid vols : obeys benign (tag_volumes api c iid vols).
Proof.
  induction vols as [|v vols IH]; simpl; [apply obeys_ret|].
  apply obeys_bind; [apply create_tags_benign|]; intros tgs.
  apply obeys_bind; [by apply obeys_call|]; intros _. exact IH.
Qed.

Lemma finalize_benign c iid ty : obeys benign (_finalize_instance api c iid ty).
Proof.
  unfold _finalize_instance.
  apply obeys_bind; [by apply obeys_call|]; intros vols.
  apply obeys_bind; [apply tag_volumes_benign|]; intros _.
  obeys_auto.
Qed.

(** What follows the [run_instances] call on the on-demand path. *)
Lemma on_demand_after_run_benign c iid :
  obeys benign
    (log INFO (MsgWaitingRunning iid);;
     call (EvWaitRunning iid) (wait_instance_running api iid);;
     _finalize_instance api c iid "on-demand").
Proof.
  do 2 (apply obeys_bind; [obeys_auto|]; intros ?). apply finalize_benign.
Qed.

(** The on-demand launch issues one [run_instances] call, for exactly one
    instance, and stays off the retry protocol. *)
Lemma on_demand_runs c lp s :
  let ev := events (_launch_on_demand_instance api c lp s) in
  (length (runs ev) ≤ 1)%nat ∧
  Forall (λ p, MinCount p = 1 ∧ MaxCount p = 1 ∧ launch p = lp) (runs ev) ∧
  spot_calls ev = [] ∧ sleeps ev = [] ∧ (∀ iid, EvTerminate iid ∉ ev).
Proof.
  cbn zeta. unfold _launch_on_demand_instance. rewrite events_bind.
  destruct (create_tags_benign c "" s) as [_ Htags].
  pose proof Htags as Htags'. apply benign_events in Htags' as (Hr0 & Hc0 & Hs0).
  assert (∀ ev', Forall benign ev' → ∀ iid, EvTerminate iid ∉ ev') as Hnoterm.
  { intros ev' Hev iid Hin. rewrite Forall_forall in Hev.
    destruct (Hev _ Hin) as (_ & _ & Hne). by apply (Hne iid). }
  destruct (outcome (_create_tags api c "" s)) as [tgs|e].
  - rewrite events_bind, events_call.
    set (p := {| launch := lp; MinCount := 1; MaxCount := 1;
                 TagSpecifications := _ |}).
    set (s1 := final (_create_tags api c "" s)).
    assert (∃ rest, Forall benign rest ∧
              match outcome (call (EvRunInstances p) (run_instances api p) s1) with
              | Ok a => events ((log INFO (MsgWaitingRunning a);;
                                 call (EvWaitRunning a) (wait_instance_running api a);;
                                 _finalize_instance api c a "on-demand")
                                  (final (call (EvRunInstances p)
                                            (run_instances api p) s1)))
              | Raise _ => []
              end = rest) as (rest & Hrest & ->).
    { destruct (outcome (call _ _ s1)) as [iid|e];
        (eexists; split; [|reflexivity]); [|constructor].
      apply (on_demand_after_run_benign c iid). }
    pose proof Hrest as Hrest'. apply benign_events in Hrest' as (Hr1 & Hc1 & Hs1).
    unfold runs, spot_calls, sleeps in *.
    rewrite !omap_app, Hr0, Hc0, Hs0. simpl. rewrite Hr1, Hc1, Hs1. simpl.
    split; [lia|]. split; [by constructor; [cbn beta | constructor]|].
    split; [done|]. split; [done|].
    intros iid [Hin|Hin]%elem_of_app; [exact (Hnoterm _ Htags iid Hin)|].
    apply elem_of_cons in Hin as [Hin|Hin]; [done | exact (Hnoterm _ Hrest iid Hin)].
  - rewrite app_nil_r, Hr0, Hc0, Hs0. simpl.
    split; [lia|]. split; [constructor|]. split; [done|]. split; [done|].
    by apply Hnoterm.
Qed.

Lemma spot_try_request_spot_only c lp n a :
  obeys spot_only (spot_try_request api c lp n a).
Proof. unfold spot_try_request. obeys_auto. Qed.

Lemma spot_try_fulfil_spot_only c sid a :
  obeys spot_only (spot_try_fulfil api c sid a).
Proof.
  unfold spot_try_fulfil.
  do 5 (apply obeys_bind; [obeys_auto|]; intros ?).
  apply obeys_bind.
  { eapply obeys_weaken; [apply benign_spot_only | apply finalize_benign]. }
  intros r. unfold spot_try_tag. apply obeys_bind.
  { apply obeys_try. apply obeys_bind.
    - eapply obeys_weaken; [apply benign_spot_only | apply create_tags_benign].
    - intros tgs. obeys_auto. }
  intros t. obeys_auto.
Qed.

Lemma spot_except_spot_only c n a d sir e :
  obeys spot_only (spot_except api c n a d sir e).
Proof.
  unfold spot_except.
  apply obeys_bind; [obeys_auto|]; intros _.
  apply obeys_bind; [destruct sir; obeys_auto|]; intros _.
  destruct (a =? n - 1); obeys_auto.
Qed.

Lemma spot_loop_spot_only c lp n attempts :
  ∀ d sir, obeys spot_only (spot_loop api c lp n attempts d sir).
Proof.
  induction attempts as [|a rest IH]; intros d sir; cbn [spot_loop];
    [apply obeys_ret|].
  apply obeys_bind; [apply obeys_try, spot_try_request_spot_only|].
  intros [sid|e].
  - apply obeys_bind; [apply obeys_try, spot_try_fulfil_spot_only|].
    intros [r|e]; [apply obeys_ret|].
    apply obeys_bind; [apply spot_except_spot_only | intros d'; apply IH].
  - apply obeys_bind; [apply spot_except_spot_only | intros d'; apply IH].
Qed.


(** X2.  Provisioning never terminates anything, and a spot config never falls
    back to [run_instances]: an instance that came up in an attempt which
    then failed is left running, in both modes. *)
Theorem provisioning_never_terminates (s : St W) (l : Loc) (c : EC2InstanceConfig) :
  heap s !! l = Some c →
  (∀ iid, EvTerminate iid ∉ events (provision_instance api l s)) ∧
  (spot_instance c = true → runs (events (provision_instance api l s)) = []).
Proof.
  intros Hl. rewrite (provision_instance_run s l c Hl); cbn zeta.
  set (c' := defaulted _ c). set (s0 := final _).
  destruct (defaulted_spot (time_time api (world s)).1 c) as (Es & _).
  fold c' in Es.
  assert (Forall (λ e, ∀ iid, e ≠ EvTerminate iid) (events (launch_of api c' s0)) ∧
          (spot_instance c = true → runs (events (launch_of api c' s0)) = []))
    as [Hterm Hruns].
  { unfold launch_of. rewrite Es. destruct (spot_instance c).
    - destruct (spot_loop_spot_only c' (launch_params_of api c')
                  (spot_max_retries c') (range (spot_max_retries c'))
                  (spot_retry_delay c') None s0) as [_ Hso].
      unfold _launch_spot_instance; cbn zeta. split.
      + eapply Forall_impl; [exact Hso|]. by intros e [_ ?].
      + intros _. apply omap_nil_Forall.
        eapply Forall_impl; [exact Hso|]. by intros e [? _].
    - split; [|done]. rewrite events_bind.
      destruct (on_demand_runs c' (launch_params_of api c') s0)
        as (_ & _ & _ & _ & Hnt).
      apply Forall_forall. intros e He iid ->.
      apply (Hnt iid).
      destruct (outcome (_launch_on_demand_instance _ _ _ _));
        by rewrite app_nil_r in He. }
  rewrite Forall_forall in Hterm.
  destruct (outcome (launch_of api c' s0)); cbn [events snd]; split.
  - intros iid [Hin|Hin]%elem_of_cons; [done|]. by eapply Hterm.
  - intros Hs. unfold runs in *. simpl. by apply Hruns.
  - intros iid [Hin|Hin]%elem_of_cons; [done|].
    apply elem_of_app in Hin as [Hin|Hin]; [by eapply Hterm|].
    by apply list_elem_of_singleton in Hin.
  - intros Hs. unfold runs in *. simpl. rewrite omap_app, (Hruns Hs). done.
Qed.

(** ** More on the retry loop *)



(** The loop never sleeps after its last attempt. *)
Lemma spot_loop_sleep_count c lp n attempts :
  ∀ d sir s,
    last attempts = Some (n - 1) →
    (length (sleeps (events (spot_loop api c lp n attempts d sir s)))
     < length attempts)%nat.
Proof.
  induction attempts as [|a rest IH]; intros d sir s Hlast; [done|].
  destruct rest as [|b rest].
  - injection Hlast as ->.
    spot_loop_cases c lp n (n - 1) d sir s;
      rewrite ?sleeps_app, ?Hsl1, ?Hsl2; simpl; try lia;
      try (destruct Hout3 as (Hne & _); done);
      destruct Hout3 as [-> _]; simpl; lia.
  - spot_loop_cases c lp n a d sir s;
      rewrite ?sleeps_app, ?length_app, ?Hsl1, ?Hsl2; cbn [length]; try lia.
    + destruct Hout3 as (_ & _ & _ & ->). cbn [length].
      specialize (IH d' (Some sid)
                    (final (spot_except api c n a d (Some sid) e2 s2)) Hlast).
      cbn [length] in IH. lia.
    + destruct Hout3 as [-> _]. simpl. lia.
    + destruct Hout3 as (_ & _ & _ & ->). cbn [length].
      specialize (IH d' sir (final (spot_except api c n a d sir e1 s1)) Hlast).
      cbn [length] in IH. lia.
    + destruct Hout3 as [-> _]. simpl. lia.
Qed.

Lemma sum_le_cap (ds : list Z) :
  Forall (λ d, d ≤ 120) ds → foldr Z.add 0 ds ≤ 120 * Z.of_nat (length ds).
Proof. induction 1 as [|d ds Hd _ IH]; simpl; lia. Qed.

(** X4.  The time spent in backoff is bounded.  A spot acquisition sleeps at most
    [spot_max_retries - 1] times (never after the last attempt), and with an
    initial delay of at most 120 it sleeps at most
    [120 * (spot_max_retries - 1)] seconds in all. *)
Theorem spot_backoff_time_bounded
    (c : EC2InstanceConfig) (lp : LaunchParams) (s : St W) :
  Z.of_nat (length (sleeps (events (_launch_spot_instance api c lp s))))
  ≤ Z.max 0 (spot_max_retries c - 1) ∧
  (spot_retry_delay c ≤ 120 →
   total_slept (events (_launch_spot_instance api c lp s))
   ≤ 120 * Z.max 0 (spot_max_retries c - 1)).
Proof.
  unfold _launch_spot_instance, total_slept; cbn zeta.
  set (n := spot_max_retries c). set (d := spot_retry_delay c).
  assert (Z.of_nat (length (sleeps (events
            (spot_loop api c lp n (range n) d None s)))) ≤ Z.max 0 (n - 1)) as Hcount.
  { destruct (Z_lt_le_dec n 1) as [Hn|Hn].
    - rewrite range_nonpos by lia. simpl. lia.
    - pose proof (spot_loop_sleep_count c lp n (range n) d None s (last_range n Hn))
        as H. rewrite length_range in H. lia. }
  split; [done|]. intros Hd.
  destruct (spot_loop_sleeps c lp n (range n) d None s) as (k & Hk & Hpos).
  rewrite Hk in *. rewrite length_backoff_seq in Hcount.
  destruct k as [|k]; [simpl; lia|].
  assert (0 ≤ d ≤ 120) as Hd' by (split; [by apply Hpos | done]).
  etrans; [apply sum_le_cap|].
  - eapply Forall_impl; [by apply backoff_seq_bounds|].
    intros x Hx; simpl in Hx. lia.
  - rewrite length_backoff_seq. lia.
Qed.

Lemma finalize_mode c iid ty s r :
  outcome (_finalize_instance api c iid ty s) = Ok r →
  r_instance_type r = Some ty ∧ r_error r = None ∧ r_spot_request_id r = None ∧
  r_instance_id r = Some iid.
Proof.
  unfold _finalize_instance. intros H.
  do 4 (apply outcome_bind_Ok in H as (? & _ & H)).
  apply outcome_ret_Ok in H as <-. done.
Qed.

Lemma spot_try_fulfil_mode c sid a s r :
  outcome (spot_try_fulfil api c sid a s) = Ok r →
  r_instance_type r = Some "spot" ∧ r_error r = None ∧ is_Some (r_instance_id r).
Proof.
  unfold spot_try_fulfil. intros H.
  do 5 (apply outcome_bind_Ok in H as (? & _ & H)).
  apply outcome_bind_Ok in H as (r0 & Hfin & H).
  apply finalize_mode in Hfin as (Hty & He & _ & Hid).
  unfold spot_try_tag in H.
  do 3 (apply outcome_bind_Ok in H as (? & _ & H)).
  apply outcome_ret_Ok in H as <-. simpl. rewrite Hid. eauto.
Qed.

Lemma spot_loop_success c lp n attempts :
  ∀ d sir s r,
    outcome (spot_loop api c lp n attempts d sir s) = Ok (Some r) →
    ∃ sid pre,
      spot_calls (events (spot_loop api c lp n attempts d sir s))
      = pre ++ [Request; Await sid] ∧
      r_spot_request_id r = Some sid ∧
      r_instance_type r = Some "spot" ∧ r_error r = None ∧
      is_Some (r_instance_id r).
Proof.
  induction attempts as [|a rest IH]; intros d sir s r0; [done|].
  rewrite spot_loop_cons; cbn zeta.
  pose proof (spot_try_request_calls c lp n a s) as Hc1.
  set (s1 := final (spot_try_request api c lp n a s)) in *.
  destruct (outcome (spot_try_request api c lp n a s)) as [sid|e1].
  - pose proof (spot_try_fulfil_calls c sid a s1) as Hc2.
    pose proof (spot_try_fulfil_success c sid a s1) as Hok.
    pose proof (spot_try_fulfil_mode c sid a s1) as Hmode.
    set (s2 := final (spot_try_fulfil api c sid a s1)) in *.
    destruct (outcome (spot_try_fulfil api c sid a s1)) as [r|e2].
    + cbn [outcome events fst snd]. intros [= <-].
      destruct (Hok r eq_refl) as (_ & _ & Hsid).
      destruct (Hmode r eq_refl) as (Hty & He & Hid).
      exists sid, []. unfold spot_calls in *. rewrite omap_app, Hc1, Hc2. done.
    + pose proof (spot_except_calls c n a d (Some sid) e2 s2) as Hc3.
      destruct (outcome (spot_except api c n a d (Some sid) e2 s2)) as [d'|e'];
        cbn [outcome events fst snd]; [|done].
      intros Hr. apply IH in Hr as (sid' & pre & Hpre & Hrest).
      exists sid', ([Request; Await sid; Cancel sid] ++ pre).
      unfold spot_calls in *. rewrite !omap_app, Hc1, Hc2, Hc3, Hpre.
      split; [by rewrite <- !app_assoc | done].
  - pose proof (spot_except_calls c n a d sir e1 s1) as Hc3.
    destruct (outcome (spot_except api c n a d sir e1 s1)) as [d'|e'];
      cbn [outcome events fst snd]; [|done].
    intros Hr. apply IH in Hr as (sid' & pre & Hpre & Hrest).
    exists sid', ([Request] ++ match sir with Some x => [Cancel x] | None => [] end
                  ++ pre).
    unfold spot_calls in *. rewrite !omap_app, Hc1, Hc3, Hpre.
    split; [by rewrite <- !app_assoc | done].
Qed.



(** ** More on defaulting *)

Lemma truthy_default_name ty t : truthy (Some (ty +:+ "-" +:+ str_Z t)) = true.
Proof. unfold truthy. by destruct ty. Qed.

Lemma defaulted_truthy t c :
  truthy (name (defaulted t c)) = true ∧
  truthy (image_id (defaulted t c)) = true ∧
  truthy_seq (tags (defaulted t c)) = true.
Proof.
  pose proof (truthy_default_name (instance_type c) t) as Hn.
  unfold defaulted.
  destruct (truthy (name c)) eqn:E1; simpl;
    destruct (truthy (image_id c)) eqn:E2; simpl;
    destruct (truthy_seq (tags c)) eqn:E3; simpl; done.
Qed.

Lemma defaulted_idem t t' c : defaulted t' (defaulted t c) = defaulted t c.
Proof. destruct (defaulted_truthy t c) as (? & ? & ?). by apply defaulted_id. Qed.

(** X10.  Defaulting is idempotent on every config.  The copy returned by a second
    [_set_defaults] equals the copy returned by the first, and the second
    call does not read the clock: no field is defaulted twice. *)
Theorem set_defaults_idempotent (s : St W) (l : Loc) (c : EC2InstanceConfig) :
  heap s !! l = Some c →
  ∃ l1 c1,
    outcome (_set_defaults api l s) = Ok l1 ∧
    heap (final (_set_defaults api l s)) !! l1 = Some c1 ∧
    ∃ l2,
      outcome (_set_defaults api l1 (final (_set_defaults api l s))) = Ok l2 ∧
      l2 ≠ l1 ∧
      heap (final (_set_defaults api l1 (final (_set_defaults api l s)))) !! l2
      = Some c1 ∧
      world (final (_set_defaults api l1 (final (_set_defaults api l s))))
      = world (final (_set_defaults api l s)).
Proof.
  intros Hl. rewrite (set_defaults_run s l c Hl). cbn [outcome final fst snd].
  set (l1 := fresh (dom (heap s))).
  set (c1 := defaulted (time_time api (world s)).1 c).
  set (s1 := {| world := _; heap := _ |}).
  assert (heap s1 !! l1 = Some c1) as Hl1 by apply lookup_insert_eq.
  exists l1, c1. split; [done|]. split; [done|].
  rewrite (set_defaults_run s1 l1 c1 Hl1). cbn [outcome final fst snd heap world].
  destruct (defaulted_truthy (time_time api (world s)).1 c) as (Hn & _).
  fold c1 in Hn. rewrite Hn.
  assert (∀ t', defaulted t' c1 = c1) as -> by (intros t'; apply defaulted_idem).
  eexists. split; [done|]. split; [|split; [apply lookup_insert_eq | done]].
  intros Heq. apply (is_fresh (dom (heap s1))). rewrite Heq.
  apply elem_of_dom. by exists c1.
Qed.

(** X11.  Defaulting fills what is missing and nothing else.  In the copy, name,
    image and tags are all set; a name, image or tag dict the caller gave is
    kept; a missing name becomes the instance type, a dash and the clock
    value, a missing image the fixed AMI, missing tags the three standard
    tags with [InstanceType] naming the mode; the twelve other fields are
    those of the input. *)
Theorem set_defaults_fills_only_missing
    (s : St W) (l : Loc) (c : EC2InstanceConfig) :
  heap s !! l = Some c →
  ∃ l1 c1,
    outcome (_set_defaults api l s) = Ok l1 ∧
    heap (final (_set_defaults api l s)) !! l1 = Some c1 ∧
    (truthy (name c1) = true ∧ truthy (image_id c1) = true ∧
     truthy_seq (tags c1) = true) ∧
    (name c1 = if truthy (name c) then name c
               else Some (instance_type c +:+ "-"
                          +:+ str_Z (time_time api (world s)).1)) ∧
    (image_id c1 = if truthy (image_id c) then image_id c
                   else Some "ami-0ae8595e2aff47037") ∧
    (tags c1 = if truthy_seq (tags c) then tags c
               else Some [("Environment", "Development");
                          ("Project", "AutoProvisioned");
                          ("InstanceType",
                           if spot_instance c then "Spot" else "OnDemand")]) ∧
    (instance_type c1 = instance_type c ∧ key_name c1 = key_name c ∧
     security_group_ids c1 = security_group_ids c ∧ subnet_id c1 = subnet_id c ∧
     user_data c1 = user_data c ∧ volume_size c1 = volume_size c ∧
     volume_type c1 = volume_type c ∧
     iam_instance_profile c1 = iam_instance_profile c ∧
     spot_instance c1 = spot_instance c ∧ spot_max_price c1 = spot_max_price c ∧
     spot_max_retries c1 = spot_max_retries c ∧
     spot_retry_delay c1 = spot_retry_delay c).
Proof.
  intros Hl. rewrite (set_defaults_run s l c Hl). cbn [outcome final fst snd heap].
  eexists _, _. split; [done|]. split; [apply lookup_insert_eq|].
  split; [apply defaulted_truthy|].
  unfold defaulted, default_tags.
  destruct (truthy (name c)) eqn:E1; simpl;
    destruct (truthy (image_id c)) eqn:E2; simpl;
    destruct (truthy_seq (tags c)) eqn:E3; simpl; done.
Qed.

(** ** The report of a batch *)

Lemma on_demand_mode c lp s r :
  outcome (_launch_on_demand_instance api c lp s) = Ok r →
  r_instance_type r = Some "on-demand" ∧ r_error r = None ∧
  r_spot_request_id r = None ∧ is_Some (r_instance_id r).
Proof.
  unfold _launch_on_demand_instance. intros H.
  do 4 (apply outcome_bind_Ok in H as (? & _ & H)).
  apply finalize_mode in H as (? & ? & ? & ->). eauto.
Qed.

Lemma provision_instance_shape s l c r :
  heap s !! l = Some c →
  outcome (provision_instance api l s) = Ok (Some r) →
  well_formed r ∧
  (r_status r = "success" →
   r_instance_type r = Some (mode_of c) ∧
   (spot_instance c = true ↔ is_Some (r_spot_request_id r))).
Proof.
  intros Hl. rewrite (provision_instance_run s l c Hl); cbn zeta.
  set (c' := defaulted _ c). set (s0 := final _).
  destruct (defaulted_spot (time_time api (world s)).1 c) as (Es & _).
  fold c' in Es. unfold mode_of.
  destruct (outcome (launch_of api c' s0)) as [res|e] eqn:Hy; cbn [outcome fst].
  - intros [= ->]. unfold launch_of in Hy. rewrite Es in Hy.
    destruct (spot_instance c).
    + unfold _launch_spot_instance in Hy; cbn zeta in Hy.
      destruct (spot_loop_result _ _ _ _ _ _ _ _ Hy) as [Hst _].
      apply spot_loop_success in Hy as (sid & _ & _ & Hsid & Hty & He & Hid).
      split; [by left|]. intros _. split; [done|]. rewrite Hsid. by split; eauto.
    + apply outcome_bind_Ok in Hy as (r' & Hr & Hy).
      apply outcome_ret_Ok in Hy as [= ->].
      destruct (on_demand_success _ _ _ _ Hr) as [Hst _].
      apply on_demand_mode in Hr as (Hty & He & Hsid & Hid).
      split; [by left|]. intros _. split; [done|]. rewrite Hsid.
      split; [done | by intros [? ?]].
  - intros [= <-]. split; [right; simpl; eauto | done].
Qed.

(** X12.  The shape of what one acquisition returns.  A result dict returned by
    [provision_instance] is either a success with an instance id and no
    error, reporting the mode of the config ('spot' with the id of the
    fulfilled request, 'on-demand' without one), or a failure with an error
    text and no instance id. *)
Theorem provision_instance_result_shape
    (s : St W) (l : Loc) (c : EC2InstanceConfig) (r : Result) :
  heap s !! l = Some c →
  outcome (provision_instance api l s) = Ok (Some r) →
  well_formed r ∧
  (r_status r = "success" →
   r_instance_type r = Some (mode_of c) ∧
   (spot_instance c = true ↔ is_Some (r_spot_request_id r))).
Proof. apply provision_instance_shape. Qed.

(** What the completion loop appends for one future is well formed, and is
    one entry unless the task returned [None]. *)
Lemma entries_of_report h h' (p : Loc * Res (option Result)) :
  future_of api h p →
  Forall entry_ok (entries_of h' p) ∧
  (None ∉ entries_of h' p → length (entries_of h' p) = 1%nat).
Proof.
  destruct p as [l fut]. intros (c & s' & Hc & Hs' & Hr). cbn [fst snd] in *.
  assert (heap s' !! l = Some c) as Hl by by eapply lookup_weaken.
  destruct (provision_instance_total s' l c Hl) as [res Hres].
  unfold entries_of. cbn [fst snd]. rewrite Hr, Hres.
  destruct res as [r|].
  - split; [|done]. constructor; [|constructor].
    intros r' [= <-]. by apply (provision_instance_shape s' l c r Hl Hres).
  - split.
    + constructor; [done|]. constructor; [|constructor].
      intros r [= <-]. right. simpl. eauto.
    + intros H. destruct H. by left.
Qed.

Lemma entries_report h h' (cf : list (Loc * Res (option Result))) :
  Forall (future_of api h) cf →
  Forall entry_ok (mjoin (entries_of h' <$> cf)) ∧
  (None ∉ mjoin (entries_of h' <$> cf) →
   length (mjoin (entries_of h' <$> cf)) = length cf).
Proof.
  induction 1 as [|p rest Hp _ [IHok IHlen]]; [done|].
  destruct (entries_of_report h h' p Hp) as [Hok Hlen].
  change (mjoin (entries_of h' <$> p :: rest))
    with (entries_of h' p ++ mjoin (entries_of h' <$> rest)).
  split; [by apply Forall_app|].
  intros Hnone. rewrite length_app, Hlen, IHlen; [done|..];
    intros Hin; apply Hnone; set_solver.
Qed.

Lemma count_status_Ok status (results : list (option Result)) n :
  count_status status results = Ok n → None ∉ results.
Proof.
  intros Hn Hin. by rewrite (count_status_None status results Hin) in Hn.
Qed.

(** The counts of the summary and the ids selected for cleanup, on a list of
    well-formed result dicts. *)
Lemma report_counts (results : list (option Result)) :
  None ∉ results →
  Forall entry_ok results →
  ∃ ns nf ids,
    count_status "success" results = Ok ns ∧
    count_status "failed" results = Ok nf ∧
    (ns + nf)%nat = length results ∧
    successful_instance_ids (omap id results) = Ok ids ∧
    length ids = ns ∧
    ∀ iid, iid ∈ ids ↔
           ∃ r, Some r ∈ results ∧ r_status r = "success" ∧
                r_instance_id r = Some iid.
Proof.
  induction results as [|[r|] results IH]; intros Hnone Hok.
  - exists 0%nat, 0%nat, []. repeat split; try done.
    + intros H. by apply elem_of_nil in H.
    + intros (r & H & _). by apply elem_of_nil in H.
  - apply Forall_cons_1 in Hok as [Hr Hok].
    destruct IH as (ns & nf & ids & Hs & Hf & Hsum & Hids & Hlen & Hmem);
      [set_solver | done |].
    unfold omap in Hids |- *. simpl in Hids.
    destruct (Hr r eq_refl) as [(Hst & [iid Hid] & _)|(Hst & Hid & _)].
    + exists (S ns), nf, (iid :: ids). simpl. rewrite Hs, Hf, Hst, Hid, Hids. simpl.
      split; [done|]. split; [done|]. split; [lia|]. split; [done|].
      split; [by rewrite Hlen|]. intros iid'. split.
      * intros [->|Hin]%elem_of_cons.
        -- exists r. split; [set_solver | done].
        -- apply Hmem in Hin as (r' & ? & ?). exists r'. split; [set_solver|done].
      * intros (r' & [Heq|Hin]%elem_of_cons & Hst' & Hid').
        -- injection Heq as ->. rewrite Hid in Hid'. injection Hid' as ->.
           set_solver.
        -- apply elem_of_cons. right. apply Hmem. by exists r'.
    + exists ns, (S nf), ids. simpl. rewrite Hs, Hf, Hst, Hids. simpl.
      split; [done|]. split; [done|]. split; [lia|]. split; [done|].
      split; [done|]. intros iid'. split.
      * intros Hin. apply Hmem in Hin as (r' & ? & ?).
        exists r'. split; [set_solver|done].
      * intros (r' & [Heq|Hin]%elem_of_cons & Hst' & Hid').
        -- injection Heq as ->. by rewrite Hst in Hst'.
        -- apply Hmem. by exists r'.
  - destruct Hnone. set_solver.
Qed.

(** What a batch has collected when its summary can be computed. *)
Lemma parallel_report max_workers configs started completed s results :
  started ≡ₚ seq 0 (length configs) →
  completed ≡ₚ seq 0 (length configs) →
  (∀ l, l ∈ configs → is_Some (heap s !! l)) →
  outcome (provision_instances_parallel api max_workers started completed
             configs s) = Ok results →
  (None ∉ results) ∧ Forall entry_ok results ∧
  length results = length configs ∧
  ∃ ns nf,
    count_status "success" results = Ok ns ∧
    count_status "failed" results = Ok nf ∧
    last (events (provision_instances_parallel api max_workers started
                    completed configs s))
    = Some (EvLog INFO (MsgSummary ns nf)).
Proof.
  intros Hstart Hcompl Hall. rewrite parallel_run; cbn zeta.
  destruct (max_workers <=? 0); [done|].
  destruct (parallel_futures configs started completed s Hstart Hall)
    as (futures & -> & Hsub & Hfst & Hfut).
  set (x := submit (provision_instance api) configs started s) in *.
  set (cf := as_completed configs futures completed) in *.
  destruct (collect_run cf [] (final x)) as [Hout _].
  { eapply Forall_impl; [exact Hfut|]. intros p (c & s' & Hc & _).
    exists c. by eapply lookup_weaken. }
  rewrite Hout. cbn [app].
  destruct (entries_report (heap s) (heap (final x)) cf Hfut) as [Hok Hlen].
  set (out := mjoin _) in *.
  destruct (count_status "success" out) as [ns|e] eqn:Hs; [|done].
  destruct (count_status "failed" out) as [nf|e] eqn:Hf; [|done].
  cbn [outcome events fst snd]. intros [= <-].
  pose proof (count_status_Ok _ _ _ Hs) as Hnone.
  split; [done|]. split; [done|]. split.
  - rewrite (Hlen Hnone), <- (length_fmap fst cf), Hfst.
    by rewrite (picked_perm _ _ Hcompl).
  - exists ns, nf. split; [done|]. split; [done|].
    rewrite app_assoc.
    rewrite app_comm_cons.
    apply last_snoc.
Qed.

(** X15.  What a batch returns when it returns.  If
    [provision_instances_parallel] returns a list, the list has one entry
    per submitted config, every entry is a well-formed result dict, and the
    last log record is the summary, whose two counts add up to the number of
    configs. *)
Theorem parallel_report_when_it_returns
    (max_workers : Z) (configs : list Loc) (started completed : list nat)
    (s : St W) (results : list (option Result)) :
  started ≡ₚ seq 0 (length configs) →
  completed ≡ₚ seq 0 (length configs) →
  (∀ l, l ∈ configs → is_Some (heap s !! l)) →
  outcome (provision_instances_parallel api max_workers started completed
             configs s) = Ok results →
  length results = length configs ∧
  (∀ o, o ∈ results → ∃ r, o = Some r ∧ well_formed r) ∧
  ∃ ns nf,
    last (events (provision_instances_parallel api max_workers started
                    completed configs s))
    = Some (EvLog INFO (MsgSummary ns nf)) ∧
    (ns + nf)%nat = length configs.
Proof.
  intros Hstart Hcompl Hall Hres.
  destruct (parallel_report _ _ _ _ _ _ Hstart Hcompl Hall Hres)
    as (Hnone & Hok & Hlen & ns & nf & Hs & Hf & Hlast).
  destruct (report_counts results Hnone Hok)
    as (ns' & nf' & ids & Hs' & Hf' & Hsum & _).
  assert (ns' = ns) as -> by congruence. assert (nf' = nf) as -> by congruence.
  split; [done|]. split.
  - intros [r|] Hin; [|done]. exists r. split; [done|].
    rewrite Forall_forall in Hok. by apply (Hok _ Hin).
  - exists ns, nf. split; [done|]. by rewrite Hsum.
Qed.

(** X17.  A saved report can always be cleaned up.  On the list returned by
    [provision_instances_parallel], the selection of [main]'s cleanup mode
    raises no [KeyError]; it selects the instance ids of the successful
    entries and no other, as many as the summary counted as successful. *)
Theorem cleanup_selection_on_report
    (max_workers : Z) (configs : list Loc) (started completed : list nat)
    (s : St W) (results : list (option Result)) :
  started ≡ₚ seq 0 (length configs) →
  completed ≡ₚ seq 0 (length configs) →
  (∀ l, l ∈ configs → is_Some (heap s !! l)) →
  outcome (provision_instances_parallel api max_workers started completed
             configs s) = Ok results →
  ∃ ids ns nf,
    successful_instance_ids (omap id results) = Ok ids ∧
    (∀ iid, iid ∈ ids ↔
            ∃ r, Some r ∈ results ∧ r_status r = "success" ∧
                 r_instance_id r = Some iid) ∧
    last (events (provision_instances_parallel api max_workers started
                    completed configs s))
    = Some (EvLog INFO (MsgSummary ns nf)) ∧
    length ids = ns.
Proof.
  intros Hstart Hcompl Hall Hres.
  destruct (parallel_report _ _ _ _ _ _ Hstart Hcompl Hall Hres)
    as (Hnone & Hok & _ & ns & nf & Hs & Hf & Hlast).
  destruct (report_counts results Hnone Hok)
    as (ns' & nf' & ids & Hs' & Hf' & _ & Hids & Hlen & Hmem).
  assert (ns' = ns) as -> by congruence.
  by exists ids, ns, nf.
Qed.

(** X16.  A batch leaves the caller's configs alone.  Whatever the API does, and
    whether [provision_instances_parallel] returns or raises, every config
    object that existed before the call holds the same config after it. *)
Theorem parallel_leaves_configs
    (max_workers : Z) (configs : list Loc) (started completed : list nat)
    (s : St W) (k : Loc) (ck : EC2InstanceConfig) :
  started ≡ₚ seq 0 (length configs) →
  completed ≡ₚ seq 0 (length configs) →
  (∀ l, l ∈ configs → is_Some (heap s !! l)) →
  heap s !! k = Some ck →
  heap (final (provision_instances_parallel api max_workers started completed
                 configs s)) !! k
  = Some ck.
Proof.
  intros Hstart Hcompl Hall Hk. rewrite parallel_run; cbn zeta.
  destruct (max_workers <=? 0); [done|].
  destruct (parallel_futures configs started completed s Hstart Hall)
    as (futures & -> & Hsub & Hfst & Hfut).
  set (x := submit (provision_instance api) configs started s) in *.
  set (cf := as_completed configs futures completed) in *.
  destruct (collect_run cf [] (final x)) as [Hout Hfin].
  { eapply Forall_impl; [exact Hfut|]. intros p (c & s' & Hc & _).
    exists c. by eapply lookup_weaken. }
  assert (heap (final x) !! k = Some ck) as Hk' by by eapply lookup_weaken.
  rewrite Hout.
  destruct (count_status "success" _); [|by cbn [final fst snd]; rewrite Hfin].
  destruct (count_status "failed" _); cbn [final fst snd]; by rewrite Hfin.
Qed.

(** ** What cleanup calls *)

(** X18.  Cleanup calls the API once per submitted id and for nothing else.  On
    a provisioner with at least one worker, however the pool schedules the
    calls, the API calls of [cleanup_instances] are one
    [terminate_instances] call for each element of the list, duplicates
    included, and no other: no id outside the list is terminated, and a
    failed termination is not tried again.  With [max_workers] not positive
    the pool constructor raises and no call is made at all. *)
Theorem cleanup_terminates_exactly_submitted
    (max_workers : Z) (ids : list string) (started completed : list nat)
    (s : St W) :
  started ≡ₚ seq 0 (length ids) →
  completed ≡ₚ seq 0 (length ids) →
  (1 ≤ max_workers →
   api_calls (events (cleanup_instances api max_workers started completed ids s))
   ≡ₚ map EvTerminate ids) ∧
  (max_workers ≤ 0 →
   outcome (cleanup_instances api max_workers started completed ids s)
   = Raise "max_workers must be greater than 0" ∧
   api_calls (events (cleanup_instances api max_workers started completed ids s))
   = []).
Proof.
  intros Hstart Hcompl. split.
  - intros Hmw.
    destruct (cleanup_instances_spec max_workers started completed ids s
                Hmw Hstart Hcompl) as (m & _ & _ & -> & _).
    apply Permutation_map. by apply picked_perm.
  - intros Hmw. rewrite cleanup_instances_run; cbn zeta.
    destruct (Z.leb_spec max_workers 0); [done | lia].
Qed.

(** ** Loading a config file *)

Lemma load_items_spec (items : list ConfigItem) :
  ∀ configs,
    (Forall (λ i, is_Some (item_instance_type i)) items →
     ∃ new, load_items items configs = Ok (configs ++ new) ∧
            Forall2 loaded_from items new) ∧
    (¬ Forall (λ i, is_Some (item_instance_type i)) items →
     load_items items configs = Raise "'instance_type'").
Proof.
  induction items as [|item items IH]; intros configs.
  - split; [intros _; exists []; by rewrite app_nil_r|].
    intros H. destruct H. constructor.
  - cbn [load_items]. destruct (item_instance_type item) as [ty|] eqn:Hty.
    + match goal with |- context [load_items items (configs ++ [?c])] =>
        set (cfg := c) end.
      destruct (IH (configs ++ [cfg])) as [IHok IHfail]. split.
      * intros [_ Hall]%Forall_cons_1.
        destruct (IHok Hall) as (new & -> & Hnew).
        exists (cfg :: new). split; [by rewrite <- app_assoc|].
        constructor; [|done]. unfold loaded_from, cfg. by rewrite Hty.
      * intros Hnot. apply IHfail. intros Hall. apply Hnot.
        constructor; [by rewrite Hty | done].
    + split; [|done]. intros [[ty Hsome] _]%Forall_cons_1. congruence.
Qed.

(** X19.  Loading a config file is all or nothing.  When every object of the file
    has the key [instance_type], [load_config_from_file] returns one config
    per object, in file order, each holding the object's values and the
    dataclass defaults for the keys left out.  When one object lacks the
    key, no config is returned: the call raises, naming the file and the
    key. *)
Theorem load_config_all_or_nothing (config_file : string) (items : list ConfigItem) :
  (Forall (λ i, is_Some (item_instance_type i)) items →
   ∃ configs, load_config_from_file config_file (Ok items) = Ok configs ∧
              Forall2 loaded_from items configs) ∧
  (¬ Forall (λ i, is_Some (item_instance_type i)) items →
   load_config_from_file config_file (Ok items)
   = Raise ("Failed to load configuration from " +:+ config_file
            +:+ ": 'instance_type'")).
Proof.
  unfold load_config_from_file. destruct (load_items_spec items []) as [Hok Hfail].
  split.
  - intros Hall. destruct (Hok Hall) as (new & -> & Hnew). by exists new.
  - intros Hnot. by rewrite (Hfail Hnot).
Qed.

(** X20.  The least config file entry, end to end.  An object with the single key
    [instance_type] loads as one config, and [_set_defaults] turns it into a
    spot config named after the type and the clock, with the fixed AMI, the
    three standard tags marked [Spot], an 8 GiB gp3 volume, three retries
    and a first delay of 30. *)
Theorem minimal_entry_defaults
    (config_file ty : string) (s : St W) (l : Loc) (c : EC2InstanceConfig) :
  load_config_from_file config_file (Ok [item_of_type ty]) = Ok [c] →
  heap s !! l = Some c →
  ∃ l1,
    outcome (_set_defaults api l s) = Ok l1 ∧
    heap (final (_set_defaults api l s)) !! l1
    = Some {| instance_type := ty;
              name := Some (ty +:+ "-" +:+ str_Z (time_time api (world s)).1);
              image_id := Some "ami-0ae8595e2aff47037";
              key_name := None; security_group_ids := None; subnet_id := None;
              user_data := None;
              tags := Some [("Environment", "Development");
                            ("Project", "AutoProvisioned");
                            ("InstanceType", "Spot")];
              volume_size := 8; volume_type := "gp3";
              iam_instance_profile := None; spot_instance := true;
              spot_max_price := None; spot_max_retries := 3;
              spot_retry_delay := 30 |}.
Proof.
  intros [= <-] Hl. rewrite (set_defaults_run s l _ Hl).
  eexists. split; [done|]. cbn [final fst snd heap].
  by rewrite lookup_insert_eq.
Qed.

(** ** Tags and launch parameters *)










Lemma spot_try_request_params c lp n a s :
  requests (events (spot_try_request api c lp n a s)) = [spot_request_for c lp].
Proof.
  unfold spot_try_request, spot_request_for, bind, log, emit, call, events.
  destruct (truthy (spot_max_price c)); simpl;
    destruct (request_spot_instances _ _ _) as [[sid|e] w]; by simpl.
Qed.

Lemma spot_loop_same_request c lp n attempts :
  ∀ d sir s,
    Forall (λ p, p = spot_request_for c lp)
           (requests (events (spot_loop api c lp n attempts d sir s))).
Proof.
  induction attempts as [|a rest IH]; intros d sir s; [constructor|].
  pose proof (spot_try_request_params c lp n a s) as Hp.
  spot_loop_cases c lp n a d sir s;
    rewrite ?requests_app, ?Hrq2, ?Hrq3, Hp; simpl;
    repeat constructor; apply IH.
Qed.

(** X22.  Every retry repeats the same request.  All spot requests of one
    acquisition are equal: a one-time request with the launch parameters
    fixed before the first attempt, the price ceiling included exactly when
    [spot_max_price] is set, and one encrypted root volume of the
    configured size that is deleted on termination. *)
Theorem spot_retries_repeat_the_request
    (c : EC2InstanceConfig) (s : St W) :
  Forall (λ p, p = spot_request_for c (launch_params_of api c) ∧
               Type_ p = "one-time" ∧
               (is_Some (SpotPrice p) ↔ truthy (spot_max_price c) = true) ∧
               BlockDeviceMappings (LaunchSpecification p)
               = [ {| DeviceName := "/dev/sda1";
                      Ebs_ := {| VolumeSize := volume_size c;
                                 VolumeType := volume_type c;
                                 DeleteOnTermination := true;
                                 Encrypted := true |} |} ])
         (requests (events (_launch_spot_instance api c (launch_params_of api c) s))).
Proof.
  unfold _launch_spot_instance; cbn zeta.
  eapply Forall_impl; [apply spot_loop_same_request|].
  intros p ->. split; [done|]. split; [done|]. split; [|done].
  unfold spot_request_for; simpl.
  destruct (truthy (spot_max_price c)) eqn:Ht.
  - split; [done|]. intros _. destruct (spot_max_price c); [by eexists | done].
  - split; [by intros [? ?] | done].
Qed.

(** X13.  The error boundary of one acquisition.  On an on-demand config, and on a
    spot config with at least one retry, no exception leaves
    [provision_instance]: it returns a result dict named after the defaulted
    config; a failure carries the error text, and the last log record is the
    error record with that same text. *)
Theorem acquisition_always_reports (s : St W) (l : Loc) (c : EC2InstanceConfig) :
  heap s !! l = Some c →
  retries_positive c →
  ∃ r,
    outcome (provision_instance api l s) = Ok (Some r) ∧
    r_name r = name (defaulted (time_time api (world s)).1 c) ∧
    (r_status r = "success" ∨
     ∃ e, r = failed_result (r_name r) e ∧
          last (events (provision_instance api l s))
          = Some (EvLog ERROR (MsgProvisionFailed (r_name r) e))).
Proof.
  intros Hl Hpos. rewrite (provision_instance_run s l c Hl); cbn zeta.
  set (c' := defaulted _ c). set (s0 := final _).
  destruct (defaulted_spot (time_time api (world s)).1 c) as (Es & En & _).
  fold c' in Es, En.
  destruct (outcome (launch_of api c' s0)) as [res|e] eqn:Hy;
    cbn [outcome events fst snd].
  - unfold launch_of in Hy. rewrite Es in Hy.
    destruct (spot_instance c) eqn:Hspot.
    + unfold _launch_spot_instance in Hy; cbn zeta in Hy.
      destruct res as [r|].
      * apply spot_loop_result in Hy as [Hst Hnm]. exists r. auto.
      * apply spot_loop_not_None in Hy; [done|].
        rewrite En. apply last_range. by apply Hpos.
    + apply outcome_bind_Ok in Hy as (r & Hr & Hy).
      apply outcome_ret_Ok in Hy as <-.
      apply on_demand_success in Hr as [Hst Hnm]. exists r. auto.
  - eexists. split; [done|]. split; [done|]. right. exists e. split; [done|].
    simpl.
    change (EvLog INFO (MsgStarting (name c')) :: events (launch_of api c' s0)
            ++ [EvLog ERROR (MsgProvisionFailed (name c') e)])
      with ((EvLog INFO (MsgStarting (name c')) :: events (launch_of api c' s0))
            ++ [EvLog ERROR (MsgProvisionFailed (name c') e)]).
    apply last_snoc.
Qed.

End Verification.

(** ** The claims on concrete runs *)

Import Scenario.
Import Sample.

(** One spot config with [spot_max_retries = 0]: the task returns [None]; the
    completion loop appends it and then, from its handler, a failed result as
    well, two entries for one config; the summary raises. *)
Lemma zero_retries_collected_twice :
  outcome (provision_instance (scripted all_ok) 1%positive (store1 zero_retries))
  = Ok None ∧
  outcome (collect [(1%positive, Ok None)] [] (store1 zero_retries))
  = Ok [None;
        Some (failed_result (Some "a") "'NoneType' object is not subscriptable")].
Proof. split; vm_compute; reflexivity. Qed.

Lemma parallel_raises_without_retries_witness :
  [1; 0]%nat ≡ₚ seq 0 (length [1%positive; 2%positive]) ∧
  [0; 1]%nat ≡ₚ seq 0 (length [1%positive; 2%positive]) ∧
  (∀ k, k ∈ [1%positive; 2%positive] →
        is_Some (heap (store2 web zero_retries) !! k)) ∧
  2%positive ∈ [1%positive; 2%positive] ∧
  heap (store2 web zero_retries) !! 2%positive = Some zero_retries ∧
  spot_instance zero_retries = true ∧
  spot_max_retries zero_retries ≤ 0 ∧
  outcome (provision_instances_parallel (scripted all_ok) 5 [1; 0]%nat [0; 1]%nat
             [1%positive; 2%positive] (store2 web zero_retries))
  = Raise "'NoneType' object is not subscriptable".
Proof.
  assert (∀ k, k ∈ [1%positive; 2%positive] →
               is_Some (heap (store2 web zero_retries) !! k)) as Hall.
  { intros k [->|[->|H]%elem_of_cons]%elem_of_cons;
      [by eexists | by eexists | by apply elem_of_nil in H]. }
  assert (2%positive ∈ [1%positive; 2%positive]) as Hin
    by (apply elem_of_cons; right; apply elem_of_cons; by left).
  split; [apply perm_swap|]. split; [reflexivity|]. split; [exact Hall|].
  split; [exact Hin|]. split; [reflexivity|]. split; [reflexivity|].
  split; [vm_compute; discriminate|].
  apply (parallel_raises_without_retries (scripted all_ok) 5
           [1%positive; 2%positive] [1; 0]%nat [0; 1]%nat
           (store2 web zero_retries) 2%positive zero_retries);
    [apply perm_swap | reflexivity | exact Hall | exact Hin | reflexivity
    | reflexivity | vm_compute; discriminate].
Defined.

Lemma provision_instance_None_without_retries_witness :
  heap (store1 zero_retries) !! 1%positive = Some zero_retries ∧
  spot_instance zero_retries = true ∧
  spot_max_retries zero_retries ≤ 0 ∧
  outcome (provision_instance (scripted all_ok) 1%positive (store1 zero_retries))
  = Ok None ∧
  ¬ ∃ r, outcome (provision_instance (scripted all_ok) 1%positive
                    (store1 zero_retries)) = Ok (Some r) ∧
         (r_status r = "success" ∨ r_status r = "failed").
Proof.
  split; [reflexivity|]. split; [reflexivity|]. split; [vm_compute; discriminate|].
  apply (provision_instance_None_without_retries (scripted all_ok)
           (store1 zero_retries) 1%positive zero_retries);
    [reflexivity | reflexivity | vm_compute; discriminate].
Defined.

(** C3.  The instance is running and only [create_tags] is refused.
    On-demand: the volume tagging of [_finalize_instance] raises after the
    readiness wait returned, and the acquisition returns a failed result.
    Spot: the same exception lands in the retry handler, which cancels the
    fulfilled request and requests another instance, until the attempts are
    used up. *)
Theorem volume_tag_failure_is_fatal :
  (let x := provision_instance (scripted tags_refused) 1%positive (store1 on_demand) in
   (∃ tgs, drop 3 (events x)
           = [EvWaitRunning "i-0001"; EvVolumes "i-0001";
              EvCreateTags ["vol-0001"] tgs;
              EvLog ERROR (MsgProvisionFailed (Some "a") "UnauthorizedOperation")]) ∧
   outcome x = Ok (Some (failed_result (Some "a") "UnauthorizedOperation"))) ∧
  (let x := provision_instance (scripted tags_refused) 1%positive (store1 two_tries) in
   spot_calls (events x)
   = [Request; Await "sir-0001"; Cancel "sir-0001";
      Request; Await "sir-0001"; Cancel "sir-0001"] ∧
   outcome x
   = Ok (Some (failed_result (Some "a")
           "All 2 spot instance attempts failed for a. Last error: UnauthorizedOperation"))).
Proof.
  cbn zeta. split; [split | split].
  - eexists. vm_compute. reflexivity.
  - vm_compute; reflexivity.
  - vm_compute; reflexivity.
  - vm_compute; reflexivity.
Qed.

(** C4, counterexample.  With an initial delay of 200 and no spot capacity,
    the acquisition sleeps 200 and then 120: the delays decrease, and the
    first one exceeds 120. *)
Lemma backoff_exceeds_cap :
  sleeps (events (_launch_spot_instance (scripted no_capacity) slow_start
                    (launch_params_of (scripted no_capacity) slow_start)
                    (store1 slow_start)))
  = [200; 120] ∧
  ¬ backoff_ok (spot_retry_delay slow_start)
      (sleeps (events (_launch_spot_instance (scripted no_capacity) slow_start
                         (launch_params_of (scripted no_capacity) slow_start)
                         (store1 slow_start)))).
Proof.
  assert (sleeps (events (_launch_spot_instance (scripted no_capacity) slow_start
                            (launch_params_of (scripted no_capacity) slow_start)
                            (store1 slow_start))) = [200; 120]) as ->
    by (vm_compute; reflexivity).
  split; [done|]. intros (_ & _ & Hb).
  apply Forall_cons_1 in Hb as [Hb _]. lia.
Qed.

Lemma backoff_within_cap_witness :
  spot_retry_delay web ≤ 120 ∧
  backoff_ok (spot_retry_delay web)
    (sleeps (events (_launch_spot_instance (scripted no_capacity) web
                       (launch_params_of (scripted no_capacity) web)
                       (store1 web)))).
Proof.
  split; [vm_compute; discriminate|].
  apply (backoff_within_cap (scripted no_capacity) web). vm_compute; discriminate.
Defined.

(** The first spot request is accepted (id [sir-0001]) and its fulfilment
    wait fails: one cancellation.  The second request is refused, and
    [sir-0001] is cancelled a second time. *)
Lemma stale_request_cancelled_again_run :
  spot_calls (events (provision_instance (scripted accepted_then_refused) 1%positive
                        (store1 two_tries)))
  = [Request; Await "sir-0001"; Cancel "sir-0001"; Request; Cancel "sir-0001"].
Proof. vm_compute; reflexivity. Qed.

Lemma stale_request_cancelled_again_witness :
  let api := scripted accepted_then_refused in
  let lp := launch_params_of api two_tries in
  let s := store1 two_tries in
  let s1 := final (spot_try_request api two_tries lp 2 0 s) in
  let s2 := final (spot_try_fulfil api two_tries "sir-0001" 0 s1) in
  let s3 := final (spot_except api two_tries 2 0 30 (Some "sir-0001")
                     "Waiter SpotInstanceRequestFulfilled failed" s2) in
  outcome (spot_try_request api two_tries lp 2 0 s) = Ok "sir-0001" ∧
  outcome (spot_try_fulfil api two_tries "sir-0001" 0 s1)
  = Raise "Waiter SpotInstanceRequestFulfilled failed" ∧
  outcome (spot_except api two_tries 2 0 30 (Some "sir-0001")
             "Waiter SpotInstanceRequestFulfilled failed" s2) = Ok 60 ∧
  outcome (spot_try_request api two_tries lp 2 1 s3)
  = Raise "MaxSpotInstanceCountExceeded" ∧
  ∃ tail,
    spot_calls (events (spot_loop api two_tries lp 2 [0; 1] 30 None s))
    = [Request; Await "sir-0001"; Cancel "sir-0001"; Request; Cancel "sir-0001"]
      ++ tail.
Proof.
  cbn zeta.
  split; [vm_compute; reflexivity|]. split; [vm_compute; reflexivity|].
  split; [vm_compute; reflexivity|]. split; [vm_compute; reflexivity|].
  apply (stale_request_cancelled_again (scripted accepted_then_refused) two_tries
           (launch_params_of (scripted accepted_then_refused) two_tries)
           2 0 1 [] 30 60 (store1 two_tries) "sir-0001"
           "Waiter SpotInstanceRequestFulfilled failed"
           "MaxSpotInstanceCountExceeded");
    vm_compute; reflexivity.
Defined.



Lemma set_defaults_leaves_original_witness :
  heap (store1 bare) !! 1%positive = Some bare ∧
  ∃ l', outcome (_set_defaults (scripted all_ok) 1%positive (store1 bare)) = Ok l' ∧
        l' ≠ 1%positive ∧
        heap (final (_set_defaults (scripted all_ok) 1%positive (store1 bare)))
          !! 1%positive = Some bare ∧
        ∀ k, k ≠ l' →
             heap (final (_set_defaults (scripted all_ok) 1%positive (store1 bare))) !! k
             = heap (store1 bare) !! k.
Proof.
  split; [reflexivity|].
  apply (set_defaults_leaves_original (scripted all_ok) (store1 bare) 1%positive bare).
  reflexivity.
Defined.

(** C9, counterexample.  A config with a name, an image reference and a tag
    dict that is present but empty ([tags = {}]): the copy [_set_defaults]
    returns carries the three default tags, so it differs from the input. *)
Lemma empty_tags_are_defaulted :
  name web_no_tags ≠ None ∧ image_id web_no_tags ≠ None ∧ tags web_no_tags ≠ None ∧
  ∃ l', outcome (_set_defaults (scripted all_ok) 1%positive (store1 web_no_tags))
        = Ok l' ∧
        heap (final (_set_defaults (scripted all_ok) 1%positive (store1 web_no_tags)))
          !! l'
        = Some (set_tags (Some (default_tags true)) web_no_tags) ∧
        heap (final (_set_defaults (scripted all_ok) 1%positive (store1 web_no_tags)))
          !! l'
        ≠ Some web_no_tags.
Proof.
  split; [done|]. split; [done|]. split; [done|].
  exists 2%positive. split; [vm_compute; reflexivity|].
  assert (heap (final (_set_defaults (scripted all_ok) 1%positive
                         (store1 web_no_tags))) !! 2%positive
          = Some (set_tags (Some (default_tags true)) web_no_tags)) as Hc
    by (vm_compute; reflexivity).
  split; [exact Hc|]. intros H.
  by pose proof (eq_trans (eq_sym Hc) H) as [= H'].
Qed.

Lemma set_defaults_fully_specified_witness :
  heap (store1 web) !! 1%positive = Some web ∧
  truthy (name web) = true ∧
  truthy (image_id web) = true ∧
  truthy_seq (tags web) = true ∧
  ∃ l1, outcome (_set_defaults (scripted all_ok) 1%positive (store1 web)) = Ok l1 ∧
        heap (final (_set_defaults (scripted all_ok) 1%positive (store1 web))) !! l1
        = Some web ∧
        world (final (_set_defaults (scripted all_ok) 1%positive (store1 web)))
        = world (store1 web) ∧
  ∃ l2, outcome (_set_defaults (scripted all_ok) l1
                   (final (_set_defaults (scripted all_ok) 1%positive (store1 web))))
        = Ok l2 ∧
        heap (final (_set_defaults (scripted all_ok) l1
                       (final (_set_defaults (scripted all_ok) 1%positive
                                 (store1 web))))) !! l2
        = Some web ∧
        world (final (_set_defaults (scripted all_ok) l1
                        (final (_set_defaults (scripted all_ok) 1%positive
                                  (store1 web)))))
        = world (store1 web).
Proof.
  split; [reflexivity|]. split; [reflexivity|]. split; [reflexivity|].
  split; [reflexivity|].
  apply (set_defaults_fully_specified (scripted all_ok) (store1 web) 1%positive web);
    reflexivity.
Defined.

Lemma cleanup_one_entry_per_distinct_witness :
  [0; 2; 1]%nat ≡ₚ seq 0 (length ["i-aaa"; "i-aaa"; "i-bbb"]) ∧
  [2; 0; 1]%nat ≡ₚ seq 0 (length ["i-aaa"; "i-aaa"; "i-bbb"]) ∧
  1 ≤ 5 ∧
  ¬ NoDup ["i-aaa"; "i-aaa"; "i-bbb"] ∧
  ∃ m : gmap string bool,
    outcome (cleanup_instances (scripted bbb_stuck) 5 [0; 2; 1]%nat [2; 0; 1]%nat
               ["i-aaa"; "i-aaa"; "i-bbb"] (store1 web)) = Ok m ∧
    dom m = list_to_set ["i-aaa"; "i-aaa"; "i-bbb"] ∧
    size m = length (remove_dups ["i-aaa"; "i-aaa"; "i-bbb"]) ∧
    (size m < length ["i-aaa"; "i-aaa"; "i-bbb"])%nat.
Proof.
  assert ([0; 2; 1]%nat ≡ₚ seq 0 (length ["i-aaa"; "i-aaa"; "i-bbb"])) as H1
    by apply perm_skip, perm_swap.
  assert ([2; 0; 1]%nat ≡ₚ seq 0 (length ["i-aaa"; "i-aaa"; "i-bbb"])) as H2.
  { etrans; [apply perm_swap | apply perm_skip, perm_swap]. }
  assert (¬ NoDup ["i-aaa"; "i-aaa"; "i-bbb"]) as Hdup
    by (apply (bool_decide_unpack _); vm_compute; exact I).
  split; [exact H1|]. split; [exact H2|]. split; [lia|]. split; [exact Hdup|].
  destruct (cleanup_one_entry_per_distinct (scripted bbb_stuck) 5
              ["i-aaa"; "i-aaa"; "i-bbb"] [0; 2; 1]%nat [2; 0; 1]%nat
              (store1 web) H1 H2) as [Hret Hkeys].
  destruct Hret as [m Hm]; [lia|].
  destruct (Hkeys m Hm) as (Hdom & Hsize & Hless).
  exists m. split; [exact Hm|]. split; [exact Hdom|]. split; [exact Hsize|].
  exact (Hless Hdup).
Defined.

(** ** The further properties on concrete runs *)


Lemma provisioning_never_terminates_witness :
  heap (store1 two_tries) !! 1%positive = Some two_tries ∧
  (∀ iid, EvTerminate iid
          ∉ events (provision_instance (scripted tags_refused) 1%positive
                      (store1 two_tries))) ∧
  (spot_instance two_tries = true →
   runs (events (provision_instance (scripted tags_refused) 1%positive
                   (store1 two_tries))) = []).
Proof.
  split; [reflexivity|].
  apply (provisioning_never_terminates (scripted tags_refused) (store1 two_tries)
           1%positive two_tries); reflexivity.
Defined.




Lemma refused_first_attempt_not_cancelled_witness :
  outcome (spot_try_request (scripted no_capacity) two_tries
             (launch_params_of (scripted no_capacity) two_tries) 2 0
             (store1 two_tries)) = Raise "InsufficientInstanceCapacity" ∧
  ∃ tail,
    spot_calls (events (spot_loop (scripted no_capacity) two_tries
                          (launch_params_of (scripted no_capacity) two_tries)
                          2 [0; 1] 30 None (store1 two_tries)))
    = [Request] ++ tail ∧
    (tail = [] ∨
     ∃ d' s', tail = spot_calls (events (spot_loop (scripted no_capacity) two_tries
                                           (launch_params_of (scripted no_capacity)
                                              two_tries)
                                           2 [1] d' None s'))).
Proof.
  split; [vm_compute; reflexivity|].
  apply (refused_first_attempt_not_cancelled (scripted no_capacity) two_tries
           (launch_params_of (scripted no_capacity) two_tries) 2 0 [1] 30
           (store1 two_tries) "InsufficientInstanceCapacity").
  vm_compute; reflexivity.
Defined.

Lemma set_defaults_idempotent_witness :
  heap (store1 bare) !! 1%positive = Some bare ∧
  ∃ l1 c1,
    outcome (_set_defaults (scripted all_ok) 1%positive (store1 bare)) = Ok l1 ∧
    heap (final (_set_defaults (scripted all_ok) 1%positive (store1 bare))) !! l1
    = Some c1 ∧
    ∃ l2,
      outcome (_set_defaults (scripted all_ok) l1
                 (final (_set_defaults (scripted all_ok) 1%positive (store1 bare))))
      = Ok l2 ∧
      l2 ≠ l1 ∧
      heap (final (_set_defaults (scripted all_ok) l1
                     (final (_set_defaults (scripted all_ok) 1%positive
                               (store1 bare))))) !! l2
      = Some c1 ∧
      world (final (_set_defaults (scripted all_ok) l1
                      (final (_set_defaults (scripted all_ok) 1%positive
                                (store1 bare)))))
      = world (final (_set_defaults (scripted all_ok) 1%positive (store1 bare))).
Proof.
  split; [reflexivity|].
  apply (set_defaults_idempotent (scripted all_ok) (store1 bare) 1%positive bare).
  reflexivity.
Defined.

Lemma set_defaults_fills_only_missing_witness :
  heap (store1 bare) !! 1%positive = Some bare ∧
  ∃ l1 c1,
    outcome (_set_defaults (scripted all_ok) 1%positive (store1 bare)) = Ok l1 ∧
    heap (final (_set_defaults (scripted all_ok) 1%positive (store1 bare))) !! l1
    = Some c1 ∧
    (truthy (name c1) = true ∧ truthy (image_id c1) = true ∧
     truthy_seq (tags c1) = true) ∧
    (name c1 = if truthy (name bare) then name bare
               else Some (instance_type bare +:+ "-"
                          +:+ str_Z (time_time (scripted all_ok)
                                       (world (store1 bare))).1)) ∧
    (image_id c1 = if truthy (image_id bare) then image_id bare
                   else Some "ami-0ae8595e2aff47037") ∧
    (tags c1 = if truthy_seq (tags bare) then tags bare
               else Some [("Environment", "Development");
                          ("Project", "AutoProvisioned");
                          ("InstanceType",
                           if spot_instance bare then "Spot" else "OnDemand")]) ∧
    (instance_type c1 = instance_type bare ∧ key_name c1 = key_name bare ∧
     security_group_ids c1 = security_group_ids bare ∧
     subnet_id c1 = subnet_id bare ∧
     user_data c1 = user_data bare ∧ volume_size c1 = volume_size bare ∧
     volume_type c1 = volume_type bare ∧
     iam_instance_profile c1 = iam_instance_profile bare ∧
     spot_instance c1 = spot_instance bare ∧
     spot_max_price c1 = spot_max_price bare ∧
     spot_max_retries c1 = spot_max_retries bare ∧
     spot_retry_delay c1 = spot_retry_delay bare).
Proof.
  split; [reflexivity|].
  apply (set_defaults_fills_only_missing (scripted all_ok) (store1 bare)
           1%positive bare).
  reflexivity.
Defined.

Lemma provision_instance_result_shape_witness :
  heap (store1 web) !! 1%positive = Some web ∧
  outcome (provision_instance (scripted all_ok) 1%positive (store1 web))
  = Ok (Some web_success) ∧
  well_formed web_success ∧
  (r_status web_success = "success" →
   r_instance_type web_success = Some (mode_of web) ∧
   (spot_instance web = true ↔ is_Some (r_spot_request_id web_success))).
Proof.
  split; [reflexivity|]. split; [vm_compute; reflexivity|].
  apply (provision_instance_result_shape (scripted all_ok) (store1 web)
           1%positive web web_success);
    [reflexivity | vm_compute; reflexivity].
Defined.

Lemma acquisition_always_reports_witness :
  heap (store1 web) !! 1%positive = Some web ∧
  retries_positive web ∧
  ∃ r,
    outcome (provision_instance (scripted no_capacity) 1%positive (store1 web))
    = Ok (Some r) ∧
    r_name r = name (defaulted (time_time (scripted no_capacity)
                                  (world (store1 web))).1 web) ∧
    (r_status r = "success" ∨
     ∃ e, r = failed_result (r_name r) e ∧
          last (events (provision_instance (scripted no_capacity) 1%positive
                          (store1 web)))
          = Some (EvLog ERROR (MsgProvisionFailed (r_name r) e))).
Proof.
  assert (retries_positive web) as Hpos by (intros _; vm_compute; discriminate).
  split; [reflexivity|]. split; [exact Hpos|].
  apply (acquisition_always_reports (scripted no_capacity) (store1 web)
           1%positive web); [reflexivity | exact Hpos].
Defined.

Lemma parallel_one_result_per_config_witness :
  [1; 0]%nat ≡ₚ seq 0 (length [1%positive; 2%positive]) ∧
  [0; 1]%nat ≡ₚ seq 0 (length [1%positive; 2%positive]) ∧
  (∀ l, l ∈ [1%positive; 2%positive] →
        ∃ c, heap (store2 web on_demand) !! l = Some c ∧ retries_positive c) ∧
  1 ≤ 5 ∧
  ∃ results,
    outcome (provision_instances_parallel (scripted no_capacity) 5 [1; 0]%nat
               [0; 1]%nat [1%positive; 2%positive] (store2 web on_demand))
    = Ok results ∧
    length results = length [1%positive; 2%positive] ∧
    Forall2 (result_for (heap (store2 web on_demand)))
            (picked [1%positive; 2%positive] [0; 1]%nat) results.
Proof.
  assert (∀ l, l ∈ [1%positive; 2%positive] →
               ∃ c, heap (store2 web on_demand) !! l = Some c ∧ retries_positive c)
    as Hall.
  { intros l [->|[->|H]%elem_of_cons]%elem_of_cons;
      [exists web | exists on_demand | by apply elem_of_nil in H];
      (split; [reflexivity|]); intros Hs; vm_compute; discriminate. }
  split; [apply perm_swap|]. split; [reflexivity|]. split; [exact Hall|].
  split; [lia|].
  apply (proj1 (parallel_one_result_per_config (scripted no_capacity) 5
                  [1%positive; 2%positive] [1; 0]%nat [0; 1]%nat
                  (store2 web on_demand) (perm_swap _ _ _) (reflexivity _) Hall)).
  lia.
Defined.

Lemma parallel_report_when_it_returns_witness :
  [0]%nat ≡ₚ seq 0 (length [1%positive]) ∧
  (∀ l, l ∈ [1%positive] → is_Some (heap (store1 web) !! l)) ∧
  outcome (provision_instances_parallel (scripted all_ok) 5 [0]%nat [0]%nat
             [1%positive] (store1 web)) = Ok [Some web_success] ∧
  length [Some web_success] = length [1%positive] ∧
  (∀ o, o ∈ [Some web_success] → ∃ r, o = Some r ∧ well_formed r) ∧
  ∃ ns nf,
    last (events (provision_instances_parallel (scripted all_ok) 5 [0]%nat
                    [0]%nat [1%positive] (store1 web)))
    = Some (EvLog INFO (MsgSummary ns nf)) ∧
    (ns + nf)%nat = length [1%positive].
Proof.
  assert (∀ l, l ∈ [1%positive] → is_Some (heap (store1 web) !! l)) as Hall.
  { intros l Hl. apply list_elem_of_singleton in Hl. rewrite Hl.
    exists web. reflexivity. }
  split; [reflexivity|]. split; [exact Hall|]. split; [vm_compute; reflexivity|].
  apply (parallel_report_when_it_returns (scripted all_ok) 5 [1%positive]
           [0]%nat [0]%nat (store1 web) [Some web_success]);
    [reflexivity | reflexivity | exact Hall | vm_compute; reflexivity].
Defined.

Lemma parallel_leaves_configs_witness :
  [1; 0]%nat ≡ₚ seq 0 (length [1%positive; 2%positive]) ∧
  [0; 1]%nat ≡ₚ seq 0 (length [1%positive; 2%positive]) ∧
  (∀ l, l ∈ [1%positive; 2%positive] →
        is_Some (heap (store2 bare zero_retries) !! l)) ∧
  heap (store2 bare zero_retries) !! 1%positive = Some bare ∧
  heap (final (provision_instances_parallel (scripted tags_refused) 5 [1; 0]%nat
                 [0; 1]%nat [1%positive; 2%positive]
                 (store2 bare zero_retries))) !! 1%positive
  = Some bare.
Proof.
  assert (∀ l, l ∈ [1%positive; 2%positive] →
               is_Some (heap (store2 bare zero_retries) !! l)) as Hall.
  { intros k [->|[->|H]%elem_of_cons]%elem_of_cons;
      [by eexists | by eexists | by apply elem_of_nil in H]. }
  split; [apply perm_swap|]. split; [reflexivity|]. split; [exact Hall|].
  split; [reflexivity|].
  apply (parallel_leaves_configs (scripted tags_refused) 5
           [1%positive; 2%positive] [1; 0]%nat [0; 1]%nat
           (store2 bare zero_retries) 1%positive bare);
    [apply perm_swap | reflexivity | exact Hall | reflexivity].
Defined.

Lemma cleanup_selection_on_report_witness :
  [0]%nat ≡ₚ seq 0 (length [1%positive]) ∧
  (∀ l, l ∈ [1%positive] → is_Some (heap (store1 web) !! l)) ∧
  outcome (provision_instances_parallel (scripted all_ok) 5 [0]%nat [0]%nat
             [1%positive] (store1 web)) = Ok [Some web_success] ∧
  ∃ ids ns nf,
    successful_instance_ids (omap id [Some web_success]) = Ok ids ∧
    (∀ iid, iid ∈ ids ↔
            ∃ r, Some r ∈ [Some web_success] ∧ r_status r = "success" ∧
                 r_instance_id r = Some iid) ∧
    last (events (provision_instances_parallel (scripted all_ok) 5 [0]%nat
                    [0]%nat [1%positive] (store1 web)))
    = Some (EvLog INFO (MsgSummary ns nf)) ∧
    length ids = ns.
Proof.
  assert (∀ l, l ∈ [1%positive] → is_Some (heap (store1 web) !! l)) as Hall.
  { intros l Hl. apply list_elem_of_singleton in Hl. rewrite Hl.
    exists web. reflexivity. }
  split; [reflexivity|]. split; [exact Hall|]. split; [vm_compute; reflexivity|].
  apply (cleanup_selection_on_report (scripted all_ok) 5 [1%positive]
           [0]%nat [0]%nat (store1 web) [Some web_success]);
    [reflexivity | reflexivity | exact Hall | vm_compute; reflexivity].
Defined.

Lemma cleanup_terminates_exactly_submitted_witness :
  [0; 2; 1]%nat ≡ₚ seq 0 (length ["i-aaa"; "i-aaa"; "i-bbb"]) ∧
  [2; 0; 1]%nat ≡ₚ seq 0 (length ["i-aaa"; "i-aaa"; "i-bbb"]) ∧
  (1 ≤ 5 ∧
   api_calls (events (cleanup_instances (scripted bbb_stuck) 5 [0; 2; 1]%nat
                        [2; 0; 1]%nat ["i-aaa"; "i-aaa"; "i-bbb"] (store1 web)))
   ≡ₚ map EvTerminate ["i-aaa"; "i-aaa"; "i-bbb"]) ∧
  (0 ≤ 0 ∧
   outcome (cleanup_instances (scripted bbb_stuck) 0 [0; 2; 1]%nat
              [2; 0; 1]%nat ["i-aaa"; "i-aaa"; "i-bbb"] (store1 web))
   = Raise "max_workers must be greater than 0" ∧
   api_calls (events (cleanup_instances (scripted bbb_stuck) 0 [0; 2; 1]%nat
                        [2; 0; 1]%nat ["i-aaa"; "i-aaa"; "i-bbb"] (store1 web)))
   = []).
Proof.
  assert ([0; 2; 1]%nat ≡ₚ seq 0 (length ["i-aaa"; "i-aaa"; "i-bbb"])) as H1
    by apply perm_skip, perm_swap.
  assert ([2; 0; 1]%nat ≡ₚ seq 0 (length ["i-aaa"; "i-aaa"; "i-bbb"])) as H2.
  { etrans; [apply perm_swap | apply perm_skip, perm_swap]. }
  split; [exact H1|]. split; [exact H2|]. split.
  - split; [lia|].
    apply (proj1 (cleanup_terminates_exactly_submitted (scripted bbb_stuck) 5
                    ["i-aaa"; "i-aaa"; "i-bbb"] [0; 2; 1]%nat [2; 0; 1]%nat
                    (store1 web) H1 H2)).
    lia.
  - split; [lia|].
    apply (proj2 (cleanup_terminates_exactly_submitted (scripted bbb_stuck) 0
                    ["i-aaa"; "i-aaa"; "i-bbb"] [0; 2; 1]%nat [2; 0; 1]%nat
                    (store1 web) H1 H2)).
    lia.
Defined.

Lemma minimal_entry_defaults_witness :
  load_config_from_file "sample_config.json" (Ok [item_of_type "t3.micro"])
  = Ok [minimal] ∧
  heap (store1 minimal) !! 1%positive = Some minimal ∧
  ∃ l1,
    outcome (_set_defaults (scripted all_ok) 1%positive (store1 minimal)) = Ok l1 ∧
    heap (final (_set_defaults (scripted all_ok) 1%positive (store1 minimal))) !! l1
    = Some {| instance_type := "t3.micro";
              name := Some ("t3.micro" +:+ "-"
                            +:+ str_Z (time_time (scripted all_ok)
                                         (world (store1 minimal))).1);
              image_id := Some "ami-0ae8595e2aff47037";
              key_name := None; security_group_ids := None; subnet_id := None;
              user_data := None;
              tags := Some [("Environment", "Development");
                            ("Project", "AutoProvisioned");
                            ("InstanceType", "Spot")];
              volume_size := 8; volume_type := "gp3";
              iam_instance_profile := None; spot_instance := true;
              spot_max_price := None; spot_max_retries := 3;
              spot_retry_delay := 30 |}.
Proof.
  split; [reflexivity|]. split; [reflexivity|].
  apply (minimal_entry_defaults (scripted all_ok) "sample_config.json" "t3.micro"
           (store1 minimal) 1%positive minimal); reflexivity.
Defined.



(** A retry delay of [2 ** 63] with no spot capacity: one request, then
    [time.sleep] raises [OverflowError], which is the error reported. *)
Lemma overlong_delay_run :
  length (requests (events (provision_instance (scripted no_capacity) 1%positive
                              (store1 overlong_delay)))) = 1%nat ∧
  sleeps (events (provision_instance (scripted no_capacity) 1%positive
                    (store1 overlong_delay))) = [] ∧
  outcome (provision_instance (scripted no_capacity) 1%positive
             (store1 overlong_delay))
  = Ok (Some (failed_result (Some "a")
                "timestamp too large to convert to C _PyTime_t")).
Proof. repeat split; vm_compute; reflexivity. Qed.

Lemma spot_backoff_time_bounded_witness :
  spot_retry_delay two_tries ≤ 120 ∧
  sleeps (events (_launch_spot_instance (scripted no_capacity) two_tries
                    (launch_params_of (scripted no_capacity) two_tries)
                    (store1 two_tries))) = [30] ∧
  Z.of_nat (length (sleeps (events (_launch_spot_instance (scripted no_capacity)
                                      two_tries
                                      (launch_params_of (scripted no_capacity)
                                         two_tries)
                                      (store1 two_tries)))))
  ≤ Z.max 0 (spot_max_retries two_tries - 1) ∧
  total_slept (events (_launch_spot_instance (scripted no_capacity) two_tries
                         (launch_params_of (scripted no_capacity) two_tries)
                         (store1 two_tries)))
  ≤ 120 * Z.max 0 (spot_max_retries two_tries - 1).
Proof.
  split; [vm_compute; discriminate|]. split; [vm_compute; reflexivity|].
  destruct (spot_backoff_time_bounded (scripted no_capacity) two_tries
              (launch_params_of (scripted no_capacity) two_tries)
              (store1 two_tries)) as (Hcount & Htotal).
  split; [exact Hcount|]. apply Htotal. vm_compute; discriminate.
Defined.

Lemma spot_instance_tag_failure_nonfatal_witness :
  outcome (_create_tags (scripted tags_refused) web "i-0001" (store1 web))
  = Ok (tags_for web "2024-01-01") ∧
  (create_tags (scripted tags_refused) ["i-0001"] (tags_for web "2024-01-01")
     (world (final (_create_tags (scripted tags_refused) web "i-0001"
                      (store1 web))))).1
  = Raise "UnauthorizedOperation" ∧
  outcome (spot_try_tag (scripted tags_refused) web "i-0001" 0 web_success
             (store1 web)) = Ok web_success ∧
  EvLog WARNING (MsgTagFailed "i-0001" "UnauthorizedOperation")
  ∈ events (spot_try_tag (scripted tags_refused) web "i-0001" 0 web_success
              (store1 web)).
Proof.
  split; [reflexivity|]. split; [reflexivity|].
  destruct (spot_instance_tag_failure_nonfatal (scripted tags_refused) web "i-0001"
              0 web_success (store1 web)) as (Hout & Hlog).
  split; [exact Hout|].
  apply (Hlog (tags_for web "2024-01-01") "UnauthorizedOperation"); reflexivity.
Defined.

Lemma load_config_all_or_nothing_witness :
  Forall (λ i, is_Some (item_instance_type i)) sample_config ∧
  (∃ configs, load_config_from_file "sample_config.json" (Ok sample_config)
              = Ok configs ∧
              Forall2 loaded_from sample_config configs) ∧
  ¬ Forall (λ i, is_Some (item_instance_type i)) [item_of_type "t3.micro"; no_type] ∧
  load_config_from_file "instances.json" (Ok [item_of_type "t3.micro"; no_type])
  = Raise "Failed to load configuration from instances.json: 'instance_type'".
Proof.
  assert (Forall (λ i, is_Some (item_instance_type i)) sample_config) as Hall.
  { unfold sample_config. repeat constructor; simpl; eauto. }
  assert (¬ Forall (λ i, is_Some (item_instance_type i))
              [item_of_type "t3.micro"; no_type]) as Hnot.
  { intros H. apply Forall_cons in H as [_ H]. apply Forall_cons in H as [H _].
    simpl in H. by apply is_Some_None in H. }
  split; [exact Hall|].
  split; [exact (proj1 (load_config_all_or_nothing "sample_config.json"
                          sample_config) Hall)|].
  split; [exact Hnot|].
  exact (proj2 (load_config_all_or_nothing "instances.json"
                  [item_of_type "t3.micro"; no_type]) Hnot).
Defined.

Lemma spot_retries_repeat_the_request_witness :
  length (requests (events (_launch_spot_instance (scripted no_capacity) two_tries
                              (launch_params_of (scripted no_capacity) two_tries)
                              (store1 two_tries)))) = 2%nat ∧
  Forall (λ p, p = spot_request_for two_tries
                     (launch_params_of (scripted no_capacity) two_tries) ∧
               Type_ p = "one-time" ∧
               (is_Some (SpotPrice p) ↔ truthy (spot_max_price two_tries) = true) ∧
               BlockDeviceMappings (LaunchSpecification p)
               = [ {| DeviceName := "/dev/sda1";
                      Ebs_ := {| VolumeSize := volume_size two_tries;
                                 VolumeType := volume_type two_tries;
                                 DeleteOnTermination := true;
                                 Encrypted := true |} |} ])
         (requests (events (_launch_spot_instance (scripted no_capacity) two_tries
                              (launch_params_of (scripted no_capacity) two_tries)
                              (store1 two_tries)))).
Proof.
  split; [vm_compute; reflexivity|].
  apply (spot_retries_repeat_the_request (scripted no_capacity) two_tries
           (store1 two_tries)).
Defined.
